(** * Qserv czar: table metadata pool, in-file result merger and
    metadata cache

    A shallow embedding of three translation units of the czar:

    - [qana/TableInfoPool.cc]: the pool of table metadata objects that
      query analysis resolves tables against (module [TableInfoPool]);
    - [rproc/InfileMerger.cc]: the merger that loads worker result
      messages into a merge table (module [InfileMerger]);
    - [meta/MetadataCache.cc]: the transient cache of database and table
      metadata (module [MetadataCache]).

    Member functions become functions over an explicit object state; a
    C++ exception becomes a [Thrown] outcome that carries the state the
    object is left in. *)

From Stdlib Require Import ZArith Strings.Byte Numbers.DecimalString.
From stdpp Require Import base decidable option list strings sorting gmap.

Local Open Scope Z_scope.

(** ** qana/TableInfoPool.cc *)

Module TableInfoPool.

(** *** Table metadata objects ([qana/TableInfo.h])

    The header is not among the sources; the classes are declared here
    with the members that [TableInfoPool.cc] reads and writes.
    [TableInfo] is the base class ([database], [table], [kind]);
    [DirTableInfo], [ChildTableInfo] and [MatchTableInfo] derive from it.
    The metadata objects are immutable once pooled, so a pointer to a
    pooled director is kept as the director's value, and a null pointer
    as [None]. *)

Inductive Kind := DIRECTOR | CHILD | MATCH.

Record DirTableInfo := {
  dir_database : string;
  dir_table : string;
  pk : string;
  lon : string;
  lat : string;
  partitioningId : Z
}.

Record ChildTableInfo := {
  child_database : string;
  child_table : string;
  child_director : option DirTableInfo;
  child_fk : string
}.

Record MatchTableInfo := {
  match_database : string;
  match_table : string;
  match_director : option DirTableInfo * option DirTableInfo;
  match_fk : string * string
}.

(** An object of static type [TableInfo]: a plain base object, as the
    probe that the lookup builds, or one of the three derived classes. *)
Inductive TableInfo :=
| Plain (db tbl : string) (k : Kind)
| Dir (d : DirTableInfo)
| Child (c : ChildTableInfo)
| Match (m : MatchTableInfo).

Definition database (t : TableInfo) : string :=
  match t with
  | Plain db _ _ => db
  | Dir d => dir_database d
  | Child c => child_database c
  | Match m => match_database m
  end.

Definition table (t : TableInfo) : string :=
  match t with
  | Plain _ tbl _ => tbl
  | Dir d => dir_table d
  | Child c => child_table c
  | Match m => match_table m
  end.


(** [dynamic_cast<DirTableInfo const*>(p)]: null for a null pointer and
    for an object that is not a [DirTableInfo]. *)
Definition dynamic_cast_Dir (p : option TableInfo) : option DirTableInfo :=
  match p with
  | Some (Dir d) => Some d
  | _ => None
  end.

(** Modelled from the spec: the comparison functor [TableInfoLt] of
    [qana/TableInfo.h], which is not among the sources. The pool is
    "ordered by (db, name)": database first, then table name, each by
    [std::string::operator<]; the kind takes no part. *)
Definition TableInfoLt (t1 t2 : TableInfo) : bool :=
  String.ltb (database t1) (database t2)
  || (bool_decide (database t1 = database t2)
      && String.ltb (table t1) (table t2)).

(** *** The configuration store ([css/CssAccess.h]) and the query context

    Modelled from the spec: the interface of the configuration store and
    its parameter structures, whose headers are not among the sources.
    [getTableParams(db, table)] yields the partitioning block
    ([chunkLevel], [dirTable], [dirColName]) and the match block,
    [getPartTableParams(db, table).partitionCols()] the columns
    [lon, lat, pk], and [getDbStriping(db)] the partitioning id. Only
    the members that the pool reads are kept. *)

Record PartTableParams := {
  chunkLevel : Z;
  dirTable : string;
  dirColName : string;
  partitionCols : list string
}.

Record MatchTableParams := {
  isMatchTable : bool;
  dirTable1 : string;
  dirColName1 : string;
  dirTable2 : string;
  dirColName2 : string
}.

Record TableParams := {
  partitioning : PartTableParams;
  match_ : MatchTableParams
}.

Record StripingParams := { stripingPartitioningId : Z }.

Record CssAccess := {
  getTableParams : string → string → TableParams;
  getPartTableParams : string → string → PartTableParams;
  getDbStriping : string → StripingParams
}.

Record QueryContext := {
  defaultDb : string;
  css : CssAccess
}.

(** *** The pool: [std::vector<TableInfo const*> _pool] *)

Definition Pool := list TableInfo.

(** [std::lower_bound] and [std::upper_bound] as the C++ standard
    specifies them: the furthest position [i] such that every element
    before [i] satisfies [comp(e, value)], respectively
    [!comp(value, e)]. *)
Fixpoint lower_bound (pool : Pool) (t : TableInfo) : nat :=
  match pool with
  | [] => 0%nat
  | e :: rest => if TableInfoLt e t then S (lower_bound rest t) else 0%nat
  end.

Fixpoint upper_bound (pool : Pool) (t : TableInfo) : nat :=
  match pool with
  | [] => 0%nat
  | e :: rest => if TableInfoLt t e then 0%nat else S (upper_bound rest t)
  end.

Definition equal_range (pool : Pool) (t : TableInfo) : nat * nat :=
  (lower_bound pool t, upper_bound pool t).

(** [TableInfo const* TableInfoPool::get(db, table) const] *)
Definition get_const (pool : Pool) (db tbl : string) : option TableInfo :=
  let t := Plain db tbl DIRECTOR in
  let p := equal_range pool t in
  if decide (p.1 = p.2) then None else pool !! p.1.

(** [void TableInfoPool::_insert(TableInfo const* t)] *)
Definition _insert (pool : Pool) (t : option TableInfo) : Pool :=
  match t with
  | Some t =>
      let i := upper_bound pool t in
      take i pool ++ t :: drop i pool
  | None => pool
  end.

(** *** Exceptions and recursion

    [get(ctx, db, table)] either returns a pointer (possibly null) or
    throws [InvalidTableError]; in both cases the pool keeps what was
    inserted so far. The function calls itself on the referenced
    director tables, and nothing in the code bounds that recursion, so
    the embedding carries a recursion budget: [None] means that the
    budget was too small. *)

Record InvalidTableError := { what : string }.

Inductive Outcome (A : Type) :=
| Returned (a : A)
| Thrown (e : InvalidTableError).
Arguments Returned {A} a.
Arguments Thrown {A} e.

Definition Run (A : Type) : Type := option (Outcome A * Pool).

Definition bind {A B : Type} (m : Run A) (k : A → Pool → Run B) : Run B :=
  match m with
  | None => None
  | Some (Thrown e, pool) => Some (Thrown e, pool)
  | Some (Returned a, pool) => k a pool
  end.

Definition ret {A : Type} (a : A) (pool : Pool) : Run A :=
  Some (Returned a, pool).

Definition throw {A : Type} (msg : string) (pool : Pool) : Run A :=
  Some (Thrown {| what := msg |}, pool).

Notation "'call' ( x , p ) <- m 'in' k" := (bind m (fun x p => k))
  (at level 10, x name, p name, m at level 100, k at level 200,
   format "'[v' 'call'  ( x ,  p )  <-  m  'in' '/' k ']'").

(** [TableInfo const* TableInfoPool::get(ctx, db, table)] *)
Fixpoint get (fuel : nat) (ctx : QueryContext) (db tbl : string)
    (pool : Pool) : Run (option TableInfo) :=
  match fuel with
  | O => None
  | S fuel =>
    let db_ := if decide (db = "") then defaultDb ctx else db in
    match get_const pool db_ tbl with
    | Some t => ret (Some t) pool
    | None =>
      let tParam := getTableParams (css ctx) db_ tbl in
      let partParam := partitioning tParam in
      let chunkLevel := chunkLevel partParam in
      (* unpartitioned table *)
      if decide (chunkLevel = 0) then ret None pool
      (* match table *)
      else if isMatchTable (match_ tParam) then
        let m := match_ tParam in
        call (r1, pool1) <- get fuel ctx db_ (dirTable1 m) pool in
        call (r2, pool2) <- get fuel ctx db_ (dirTable2 m) pool1 in
        match dynamic_cast_Dir r1, dynamic_cast_Dir r2 with
        | Some first, Some second =>
          if bool_decide (dirColName1 m = dirColName2 m)
             || bool_decide (dirColName1 m = "")
             || bool_decide (dirColName2 m = "")
          then throw ("Match table " +:+ db_ +:+ "." +:+ tbl +:+
                      " metadata does not contain 2 non-empty" +:+
                      " and distinct director column names!") pool2
          else if decide (partitioningId first ≠ partitioningId second)
          then throw ("Match table " +:+ db_ +:+ "." +:+ tbl +:+
                      " relates two director tables with" +:+
                      " different partitionings!") pool2
          else
            let p := Match {| match_database := db_; match_table := tbl;
                              match_director := (Some first, Some second);
                              match_fk := (dirColName1 m, dirColName2 m) |} in
            ret (Some p) (_insert pool2 (Some p))
        | _, _ =>
          throw (db_ +:+ "." +:+ tbl +:+ " is a match table, but" +:+
                 " does not reference two director tables!") pool2
        end
      (* director table *)
      else if bool_decide (dirTable partParam = "")
              || bool_decide (dirTable partParam = tbl) then
        if decide (chunkLevel ≠ 2)
        then throw (db_ +:+ "." +:+ tbl +:+ " is a director " +:+
                    "table, but cannot be sub-chunked!") pool
        else
          let v := partitionCols (getPartTableParams (css ctx) db tbl) in
          let bad := throw ("Director table " +:+ db_ +:+ "." +:+ tbl +:+
                            " metadata does not contain non-empty and" +:+
                            " distinct director, longitude and" +:+
                            " latitude column names.") pool in
          match v with
          | [v0; v1; v2] =>
            if bool_decide (v0 = "") || bool_decide (v1 = "")
               || bool_decide (v2 = "")
               || bool_decide (v0 = v1) || bool_decide (v1 = v2)
               || bool_decide (v0 = v2)
            then bad
            else
              let p := Dir {| dir_database := db_; dir_table := tbl;
                              pk := v2; lon := v0; lat := v1;
                              partitioningId :=
                                stripingPartitioningId
                                  (getDbStriping (css ctx) db_) |} in
              ret (Some p) (_insert pool (Some p))
          | _ => bad
          end
      (* child table *)
      else if decide (chunkLevel ≠ 1)
      then throw (db_ +:+ "." +:+ tbl +:+ " is a child" +:+
                  " table, but can be sub-chunked!") pool
      else
        call (r, pool1) <- get fuel ctx db_ (dirTable partParam) pool in
        match dynamic_cast_Dir r with
        | None =>
          throw (db_ +:+ "." +:+ tbl +:+ " is a child table, but" +:+
                 " does not reference a director table!") pool1
        | Some director =>
          if decide (dirColName partParam = "")
          then throw ("Child table " +:+ db_ +:+ "." +:+ tbl +:+ " metadata" +:+
                      " does not contain a director column name!") pool1
          else
            let p := Child {| child_database := db_; child_table := tbl;
                              child_director := Some director;
                              child_fk := dirColName partParam |} in
            ret (Some p) (_insert pool1 (Some p))
        end
    end
  end.

(** *** Properties of pools and descriptors *)

(** What the pool is ordered and searched by. *)
Definition key (t : TableInfo) : string * string := (database t, table t).

(** The pool is sorted when no element is smaller than an element that
    precedes it; [_insert] keeps it so. *)
Definition pool_sorted (pool : Pool) : Prop :=
  StronglySorted (λ a b, TableInfoLt b a = false) pool.

(** The defining properties of a match descriptor: both directors are
    present (and pooled), they share the partitioning id, and the two
    foreign-key column names are non-empty and distinct. *)
Definition match_ok (pool : Pool) (mi : MatchTableInfo) : Prop :=
  ∃ d1 d2,
    match_director mi = (Some d1, Some d2)
    ∧ Dir d1 ∈ pool ∧ Dir d2 ∈ pool
    ∧ partitioningId d1 = partitioningId d2
    ∧ (match_fk mi).1 ≠ "" ∧ (match_fk mi).2 ≠ ""
    ∧ (match_fk mi).1 ≠ (match_fk mi).2.



(** *** A configuration store to run the resolver on

    Database [LSST] with the director tables [Object] and [Source] and
    the match table [RefMatch] between them; [pid] is the partitioning
    id of the database. Any other database or table is unknown to the
    store, which answers with empty parameters. *)

Definition noPartitioning : PartTableParams :=
  {| chunkLevel := 0; dirTable := ""; dirColName := ""; partitionCols := [] |}.

Definition noMatch : MatchTableParams :=
  {| isMatchTable := false; dirTable1 := ""; dirColName1 := "";
     dirTable2 := ""; dirColName2 := "" |}.

Definition lsstTableParams (db tbl : string) : TableParams :=
  if bool_decide (db = "LSST") then
    if bool_decide (tbl = "Object") then
      {| partitioning := {| chunkLevel := 2; dirTable := "";
                            dirColName := "objectId";
                            partitionCols := ["ra"; "decl"; "objectId"] |};
         match_ := noMatch |}
    else if bool_decide (tbl = "Source") then
      {| partitioning := {| chunkLevel := 2; dirTable := "Source";
                            dirColName := "sourceId";
                            partitionCols := ["ra"; "decl"; "sourceId"] |};
         match_ := noMatch |}
    else if bool_decide (tbl = "RefMatch") then
      {| partitioning := {| chunkLevel := 2; dirTable := "";
                            dirColName := ""; partitionCols := [] |};
         match_ := {| isMatchTable := true;
                      dirTable1 := "Object"; dirColName1 := "objectId";
                      dirTable2 := "Source"; dirColName2 := "sourceId" |} |}
    else {| partitioning := noPartitioning; match_ := noMatch |}
  else {| partitioning := noPartitioning; match_ := noMatch |}.

Definition lsstCss (pid : Z) : CssAccess :=
  {| getTableParams := lsstTableParams;
     getPartTableParams := λ db tbl, partitioning (lsstTableParams db tbl);
     getDbStriping := λ _, {| stripingPartitioningId := pid |} |}.

Definition lsstCtx (pid : Z) : QueryContext :=
  {| defaultDb := "LSST"; css := lsstCss pid |}.

Definition objectInfo (pid : Z) : DirTableInfo :=
  {| dir_database := "LSST"; dir_table := "Object";
     pk := "objectId"; lon := "ra"; lat := "decl"; partitioningId := pid |}.

Definition sourceInfo (pid : Z) : DirTableInfo :=
  {| dir_database := "LSST"; dir_table := "Source";
     pk := "sourceId"; lon := "ra"; lat := "decl"; partitioningId := pid |}.

Definition refMatchInfo (pid : Z) : MatchTableInfo :=
  {| match_database := "LSST"; match_table := "RefMatch";
     match_director := (Some (objectInfo pid), Some (sourceInfo pid));
     match_fk := ("objectId", "sourceId") |}.

(** *** Well-formed descriptors

    What [get] checks before it pools a descriptor: the three columns of
    a director are non-empty and pairwise distinct; a child has a pooled
    director of its own database and a foreign-key column; a match table
    has two pooled directors of its own database. A plain [TableInfo] is
    only ever a probe and is never pooled. *)

Definition dir_ok (d : DirTableInfo) : Prop :=
  pk d ≠ "" ∧ lon d ≠ "" ∧ lat d ≠ ""
  ∧ lon d ≠ lat d ∧ lat d ≠ pk d ∧ lon d ≠ pk d.

Definition child_ok (pool : Pool) (c : ChildTableInfo) : Prop :=
  ∃ d, child_director c = Some d
       ∧ Dir d ∈ pool
       ∧ dir_database d = child_database c
       ∧ child_fk c ≠ "".

Definition descriptor_ok (pool : Pool) (t : TableInfo) : Prop :=
  match t with
  | Plain _ _ _ => False
  | Dir d => dir_ok d
  | Child c => child_ok pool c
  | Match m =>
      match_ok pool m
      ∧ ∀ d1 d2, match_director m = (Some d1, Some d2) →
                 dir_database d1 = match_database m
                 ∧ dir_database d2 = match_database m
  end.

Definition pool_ok (pool : Pool) : Prop :=
  ∀ t, t ∈ pool → descriptor_ok pool t.

(** The store of [lsstCss], with the child table [ForcedSource] of the
    director [Object] added to database [LSST]. *)
Definition lsstChildTableParams (db tbl : string) : TableParams :=
  if bool_decide (db = "LSST") && bool_decide (tbl = "ForcedSource") then
    {| partitioning := {| chunkLevel := 1; dirTable := "Object";
                          dirColName := "objectId"; partitionCols := [] |};
       match_ := noMatch |}
  else lsstTableParams db tbl.

Definition lsstChildCss (pid : Z) : CssAccess :=
  {| getTableParams := lsstChildTableParams;
     getPartTableParams := λ db tbl, partitioning (lsstTableParams db tbl);
     getDbStriping := λ _, {| stripingPartitioningId := pid |} |}.

Definition lsstChildCtx (pid : Z) : QueryContext :=
  {| defaultDb := "LSST"; css := lsstChildCss pid |}.

Definition forcedSourceInfo (pid : Z) : ChildTableInfo :=
  {| child_database := "LSST"; child_table := "ForcedSource";
     child_director := Some (objectInfo pid); child_fk := "objectId" |}.

(** The partitioning columns that a director table needs: three
    columns, none empty, no two the same. *)
Definition director_cols_ok (v : list string) : Prop :=
  ∃ v0 v1 v2, v = [v0; v1; v2]
              ∧ v0 ≠ "" ∧ v1 ≠ "" ∧ v2 ≠ ""
              ∧ v0 ≠ v1 ∧ v1 ≠ v2 ∧ v0 ≠ v2.

End TableInfoPool.

(** ** rproc/InfileMerger.cc *)

Module InfileMerger.

(** *** Errors *)

(** Modelled from the spec: the enumerators of [InfileMergerError], which
    [rproc/InfileMerger.h] declares and which is not among the sources.
    [NONE] is the zero that [merge] tests [_error.errorCode] against;
    the error kinds are distinct and non-zero. *)
Definition NONE : Z := 0.
Definition HEADER_IMPORT : Z := 1.
Definition HEADER_OVERFLOW : Z := 2.
Definition RESULT_IMPORT : Z := 3.
Definition RESULT_MD5 : Z := 4.
Definition MYSQLOPEN : Z := 5.
Definition MERGEWRITE : Z := 6.
Definition TERMINATE : Z := 7.
Definition CREATE_TABLE : Z := 8.
Definition MYSQLCONNECT : Z := 9.
Definition MYSQLEXEC : Z := 10.

Record InfileMergerError := {
  status : Z;
  errorCode : Z;
  description : string
}.

(** [bool InfileMergerError::resultTooBig() const] *)
Definition resultTooBig (e : InfileMergerError) : bool :=
  (status e =? MYSQLEXEC) && (errorCode e =? 1114).

(** *** Configuration ([rproc/InfileMerger.h], not among the sources)

    The members that the compiled code reads. *)

Record MergeFixup := { needsFixup : bool }.

Record InfileMergerConfig := {
  targetDb : string;
  targetTable : string;
  mFixup : MergeFixup;
  user : string;
  socket : string
}.

Record MySqlConfig := {
  username : string;
  dbName : string;
  sqlSocket : string
}.

Definition makeSqlConfig (c : InfileMergerConfig) : MySqlConfig :=
  {| username := user c; dbName := targetDb c; sqlSocket := socket c |}.

(** *** Messages ([proto/worker.pb.h]) and schemas ([sql/Schema.h])

    Neither header is among the sources; the messages and the schema
    are declared here with the members that [InfileMerger.cc] reads and
    writes. The rows of a result are not modelled. *)

Record ColumnSchema := {
  name : string;
  hasdefault : bool;
  defaultvalue : string;
  mysqltype : option Z;   (* [has_mysqltype()] and [mysqltype()] *)
  sqltype : string
}.

Record Result := {
  session : Z;
  rowschema : list ColumnSchema
}.

Record ProtoHeader := {
  size : Z;
  md5 : string
}.

Record Msgs := {
  protoHeader : ProtoHeader;
  result : Result
}.

Record ColType := {
  sqlType : string;
  mysqlType : option Z    (* [None]: never assigned *)
}.

Record ColSchema := {
  colName : string;
  hasDefault : bool;
  defaultValue : string;
  colType : ColType
}.

Record Schema := { columns : list ColSchema }.

(** Statements are kept as the calls that form them, [sql::formCreateTable]
    and [sql::formLoadInfile] of [sql/statement.h], not as their text. *)
Inductive Sql :=
| formCreateTable (table : string) (s : Schema)
| formLoadInfile (table virtFile : string).

(** *** The world outside the merger

    What the SQL engine has been asked so far, in order, with its
    answers: [Connect] and [RunQuery] on the merger's own connection
    [_sqlConn]; [MgrConnect], [PrepareSrc] and [QueryUnbuffered] on the
    connection of the manager [_mgr] that serves the loads. *)
Record SqlErrorObject := {
  errNo : Z;
  printErrMsg : string
}.

Inductive Event :=
| MgrConnect (ok : bool)
| Connect (err : option SqlErrorObject)
| RunQuery (q : Sql) (err : option SqlErrorObject)
| PrepareSrc (virtFile : string)
| QueryUnbuffered (q : Sql) (ok : bool).

Definition World := list Event.

(** How the outside answers, as a function of what happened before: the
    protobuf decoder ([ProtoImporter::setMsgFrom] yields its verdict and
    the message it left behind), the digest, the SQL engine and the
    virtual-file manager. *)
Record timeval := { tv_sec : Z; tv_usec : Z }.

Record Environment := {
  gettimeofday : Z * timeval;
  connect : World → bool;
  headerFrom : list byte → bool * ProtoHeader;
  resultFrom : list byte → bool * Result;
  getMd5 : list byte → string;
  connectToDb : World → option SqlErrorObject;
  runQuery : World → Sql → option SqlErrorObject;
  prepareSrc : World → string;
  connected : World → bool;
  queryUnbuffered : World → Sql → bool
}.

(** *** The merger object *)

Record State := {
  _config : InfileMergerConfig;
  _mergeTable : string;
  _error : InfileMergerError;
  _isFinished : bool;
  _needCreateTable : bool;
  _needHeader : bool;
  _msgs : option Msgs;        (* [std::auto_ptr<Msgs>], [None] when null *)
  _sqlConn : bool;            (* whether [_sqlConn] holds a connection *)
  _numInflight : Z;           (* [_mgr->_numInflight] *)
  world : World
}.

Definition set_config (c : InfileMergerConfig) (s : State) : State :=
  {| _config := c; _mergeTable := _mergeTable s; _error := _error s;
     _isFinished := _isFinished s; _needCreateTable := _needCreateTable s;
     _needHeader := _needHeader s; _msgs := _msgs s; _sqlConn := _sqlConn s;
     _numInflight := _numInflight s; world := world s |}.

Definition set_mergeTable (t : string) (s : State) : State :=
  {| _config := _config s; _mergeTable := t; _error := _error s;
     _isFinished := _isFinished s; _needCreateTable := _needCreateTable s;
     _needHeader := _needHeader s; _msgs := _msgs s; _sqlConn := _sqlConn s;
     _numInflight := _numInflight s; world := world s |}.

Definition set_error (e : InfileMergerError) (s : State) : State :=
  {| _config := _config s; _mergeTable := _mergeTable s; _error := e;
     _isFinished := _isFinished s; _needCreateTable := _needCreateTable s;
     _needHeader := _needHeader s; _msgs := _msgs s; _sqlConn := _sqlConn s;
     _numInflight := _numInflight s; world := world s |}.

Definition set_isFinished (b : bool) (s : State) : State :=
  {| _config := _config s; _mergeTable := _mergeTable s; _error := _error s;
     _isFinished := b; _needCreateTable := _needCreateTable s;
     _needHeader := _needHeader s; _msgs := _msgs s; _sqlConn := _sqlConn s;
     _numInflight := _numInflight s; world := world s |}.

Definition set_needCreateTable (b : bool) (s : State) : State :=
  {| _config := _config s; _mergeTable := _mergeTable s; _error := _error s;
     _isFinished := _isFinished s; _needCreateTable := b;
     _needHeader := _needHeader s; _msgs := _msgs s; _sqlConn := _sqlConn s;
     _numInflight := _numInflight s; world := world s |}.

Definition set_needHeader (b : bool) (s : State) : State :=
  {| _config := _config s; _mergeTable := _mergeTable s; _error := _error s;
     _isFinished := _isFinished s; _needCreateTable := _needCreateTable s;
     _needHeader := b; _msgs := _msgs s; _sqlConn := _sqlConn s;
     _numInflight := _numInflight s; world := world s |}.

Definition set_msgs (m : option Msgs) (s : State) : State :=
  {| _config := _config s; _mergeTable := _mergeTable s; _error := _error s;
     _isFinished := _isFinished s; _needCreateTable := _needCreateTable s;
     _needHeader := _needHeader s; _msgs := m; _sqlConn := _sqlConn s;
     _numInflight := _numInflight s; world := world s |}.

Definition set_sqlConn (b : bool) (s : State) : State :=
  {| _config := _config s; _mergeTable := _mergeTable s; _error := _error s;
     _isFinished := _isFinished s; _needCreateTable := _needCreateTable s;
     _needHeader := _needHeader s; _msgs := _msgs s; _sqlConn := b;
     _numInflight := _numInflight s; world := world s |}.

Definition set_numInflight (n : Z) (s : State) : State :=
  {| _config := _config s; _mergeTable := _mergeTable s; _error := _error s;
     _isFinished := _isFinished s; _needCreateTable := _needCreateTable s;
     _needHeader := _needHeader s; _msgs := _msgs s; _sqlConn := _sqlConn s;
     _numInflight := n; world := world s |}.

Definition observe (ev : Event) (s : State) : State :=
  {| _config := _config s; _mergeTable := _mergeTable s; _error := _error s;
     _isFinished := _isFinished s; _needCreateTable := _needCreateTable s;
     _needHeader := _needHeader s; _msgs := _msgs s; _sqlConn := _sqlConn s;
     _numInflight := _numInflight s; world := world s ++ [ev] |}.

(** The three assignments to the members of [_error]. *)
Definition set_status (v : Z) (s : State) : State :=
  set_error {| status := v; errorCode := errorCode (_error s);
               description := description (_error s) |} s.

Definition set_errorCode (v : Z) (s : State) : State :=
  set_error {| status := status (_error s); errorCode := v;
               description := description (_error s) |} s.

Definition set_description (d : string) (s : State) : State :=
  set_error {| status := status (_error s);
               errorCode := errorCode (_error s); description := d |} s.

(** *** Control: return, throw, and what ends the process

    A call returns a value, throws, or stops the process: a failed
    [assert], or a read outside the bytes that can be read at the
    pointer it was given (through a null [_msgs] as well). The state is
    the one reached at that point. *)

(** What is thrown: a copy of [_error] ([throw _error]); the error that
    the one-argument constructor [InfileMergerError(code)] makes of an
    enumerator, a constructor that [rproc/InfileMerger.h] declares and
    that is not among the sources, so that the members it sets are not
    known here; or a string literal. *)
Inductive Exception :=
| MergerError (e : InfileMergerError)
| MergerErrorOf (code : Z)
| CString (msg : string).

Inductive Stop := AssertFailed | OutOfBounds | NullPointer.

Inductive Res (A : Type) :=
| Ret (a : A)
| Throw (e : Exception)
| Fault (f : Stop).
Arguments Ret {A} a.
Arguments Throw {A} e.
Arguments Fault {A} f.

Definition M (A : Type) : Type := State → Res A * State.

Definition ret {A} (a : A) : M A := λ s, (Ret a, s).
Definition throw {A} (e : Exception) : M A := λ s, (Throw e, s).
Definition fault {A} (f : Stop) : M A := λ s, (Fault f, s).
Definition bind {A B} (m : M A) (k : A → M B) : M B :=
  λ s, match m s with
       | (Ret a, s') => k a s'
       | (Throw e, s') => (Throw e, s')
       | (Fault f, s') => (Fault f, s')
       end.
Definition gets {A} (f : State → A) : M A := λ s, (Ret (f s), s).
Definition modify (f : State → State) : M unit := λ s, (Ret tt, f s).

Notation "x <- m ;; k" := (bind m (λ x, k))
  (at level 100, m at next level, right associativity).
Notation "m ;; k" := (bind m (λ _, k))
  (at level 100, right associativity).

Definition assert (b : bool) : M unit :=
  if b then ret tt else fault AssertFailed.


(** [n] bytes at the cursor, when that many can be read there. *)
Definition readBytes (cursor : list byte) (n : Z) : option (list byte) :=
  if (0 <=? n) && (n <=? Z.of_nat (length cursor))
  then Some (take (Z.to_nat n) cursor) else None.

(** [operator<<] on an integer: its decimal digits. *)
Definition decimal (z : Z) : string := NilZero.string_of_int (Z.to_int z).

Section Operations.

Context (env : Environment).

(** [std::string getTimeStampId()] *)
Definition getTimeStampId : M string :=
  let '(rc, now) := gettimeofday env in
  if negb (rc =? 0) then throw (CString "Failed to get timestamp.")
  else ret (decimal (Z.rem (tv_sec now) 10000) +:+ decimal (tv_usec now)).

(** [InfileMerger::Mgr::Mgr(MySqlConfig const& config)] *)
Definition Mgr_ctor : M unit :=
  w <- gets world ;;
  let ok := connect env w in
  modify (observe (MgrConnect ok)) ;;
  if ok then modify (set_numInflight 0)
  else throw (MergerErrorOf MYSQLCONNECT).

(** [bool InfileMerger::Mgr::applyMysql(std::string const& query)] *)
Definition applyMysql (query : Sql) : M bool :=
  w <- gets world ;;
  if negb (connected env w) then ret false
  else
    let result := queryUnbuffered env w query in
    modify (observe (QueryUnbuffered query result)) ;;
    ret result.

(** [InfileMerger::Mgr::Action]: the constructor that takes over the
    messages, registers a virtual file for their rows and counts the
    load as in flight, and [operator()], which runs the load.

    The parameter [msgs] is a [std::auto_ptr] passed by value, and the
    initializer [_msgs(msgs)] moves the messages out of it into the
    member: when the body of the constructor evaluates [msgs->result],
    the parameter is null. *)
Record Action := {
  action_msgs : option Msgs;
  action_table : string;
  action_virtFile : string
}.

Definition Action_ctor (msgs : option Msgs) (table : string) : M Action :=
  let member := msgs in
  let msgs : option Msgs := None in
  match msgs with
  | None => fault NullPointer
  | Some _ =>
      w <- gets world ;;
      let virtFile := prepareSrc env w in
      modify (observe (PrepareSrc virtFile)) ;;
      modify (λ s, set_numInflight (_numInflight s + 1) s) ;;
      ret {| action_msgs := member; action_table := table;
             action_virtFile := virtFile |}
  end.

Definition Action_call (a : Action) : M unit :=
  let infileStatement :=
    formLoadInfile (action_table a) (action_virtFile a) in
  result <- applyMysql infileStatement ;;
  assert result.

(** [bool InfileMerger::_applySqlLocal(std::string const& sql)] *)
Definition _applySqlLocal (sql : Sql) : M bool :=
  hasConn <- gets _sqlConn ;;
  usable <-
    (if negb hasConn then
       w <- gets world ;;
       let answer := connectToDb env w in
       modify (observe (Connect answer)) ;;
       match answer with
       | Some errObj =>
           modify (set_status MYSQLCONNECT) ;;
           modify (set_errorCode (errNo errObj)) ;;
           modify (set_description
                     ("Error connecting to db. " +:+ printErrMsg errObj)) ;;
           modify (set_sqlConn false) ;;
           ret false
       | None => modify (set_sqlConn true) ;; ret true
       end
     else ret true) ;;
  if negb usable then ret false
  else
    w <- gets world ;;
    let answer := runQuery env w sql in
    modify (observe (RunQuery sql answer)) ;;
    match answer with
    | Some errObj =>
        modify (set_status MYSQLEXEC) ;;
        modify (set_errorCode (errNo errObj)) ;;
        modify (set_description
                  ("Error applying sql. " +:+ printErrMsg errObj)) ;;
        ret false
    | None => ret true
    end.

(** The body of the loop of [_setupTable] over the column schemas. *)
Definition colSchemaOf (cs : ColumnSchema) : ColSchema :=
  {| colName := name cs;
     hasDefault := hasdefault cs;
     defaultValue := if hasdefault cs then defaultvalue cs else "";
     colType := {| sqlType := sqltype cs; mysqlType := mysqltype cs |} |}.

(** [void InfileMerger::_setupTable()] *)
Definition _setupTable : M unit :=
  needCreateTable <- gets _needCreateTable ;;
  if needCreateTable then
    msgs <- gets _msgs ;;
    match msgs with
    | None => fault NullPointer
    | Some msgs =>
        let rs := rowschema (result msgs) in
        let s := {| columns := map colSchemaOf rs |} in
        mergeTable <- gets _mergeTable ;;
        let createStmt := formCreateTable mergeTable s in
        ok <- _applySqlLocal createStmt ;;
        if negb ok then
          modify (set_errorCode CREATE_TABLE) ;;
          modify (set_description
                    ("Error creating table (" +:+ mergeTable +:+ ")")) ;;
          modify (set_isFinished true)
        else modify (set_needCreateTable false)
    end
  else ret tt.

(** [int InfileMerger::_fetchHeader(char const* buffer, int length)].
    [buffer] is the bytes that can be read at the pointer, [length] the
    count that the caller gives: the header is read whatever [length]
    is, which only enters the comparison with the size of the payload. *)
Definition _fetchHeader (buffer : list byte) (length : Z) : M Z :=
  match buffer with
  | [] => fault OutOfBounds
  | first :: cursor =>
    let phSize := Z.of_N (Byte.to_N first) in
    let remain := length - 1 in
    msgs <- gets _msgs ;;
    match msgs, readBytes cursor phSize with
    | None, _ => fault NullPointer
    | _, None => fault OutOfBounds
    | Some msgs, Some headerBytes =>
      let '(ok, header) := headerFrom env headerBytes in
      modify (set_msgs (Some {| protoHeader := header;
                                result := result msgs |})) ;;
      if negb ok then
        modify (set_errorCode HEADER_IMPORT) ;;
        modify (set_description "Error decoding proto header") ;;
        ret 0
      else
        let cursor := drop (Z.to_nat phSize) cursor in
        let remain := remain - phSize in
        if remain <? size header then
          modify (set_description
                    ("Buffer too small for result msg, " +:+
                     "increase buffer size in InfileMerger")) ;;
          modify (set_errorCode HEADER_OVERFLOW) ;;
          ret 0
        else
          let resultSize := size header in
          match readBytes cursor resultSize with
          | None => fault OutOfBounds
          | Some resultBytes =>
            let '(ok, res) := resultFrom env resultBytes in
            modify (set_msgs (Some {| protoHeader := header;
                                      result := res |})) ;;
            if negb ok then
              modify (set_errorCode RESULT_IMPORT) ;;
              modify (set_description "Error decoding result msg") ;;
              e <- gets _error ;;
              throw (MergerError e)
            else
              _setupTable ;;
              e <- gets _error ;;
              if negb (errorCode e =? 0) then ret (-1)
              else
                let computedMd5 := getMd5 env resultBytes in
                if bool_decide (md5 header ≠ computedMd5) then
                  modify (set_description "Result message MD5 mismatch") ;;
                  modify (set_errorCode RESULT_MD5) ;;
                  ret 0
                else
                  modify (set_needHeader false) ;;
                  mergeTable <- gets _mergeTable ;;
                  given <- gets _msgs ;;
                  modify (set_msgs None) ;;
                  a <- Action_ctor given mergeTable ;;
                  Action_call a ;;
                  msgs <- gets _msgs ;;
                  assert (bool_decide (msgs = None)) ;;
                  ret 0
          end
    end
  end.

(** [int InfileMerger::_waitPacket(char const* buffer, int length)]; the
    pointer is the caller's buffer and an offset into it. *)
Definition _waitPacket (buffer : list byte) (offset length : Z) : M Z :=
  ret 0.

(** [off_t InfileMerger::merge(char const* dumpBuffer, int dumpLength,
    std::string const& tableName)] *)
Definition merge (dumpBuffer : list byte) (dumpLength : Z)
    (tableName : string) : M Z :=
  e <- gets _error ;;
  if negb (errorCode e =? 0) then ret (-1)
  else
    needHeader <- gets _needHeader ;;
    if needHeader then
      hSize <- _fetchHeader dumpBuffer dumpLength ;;
      if hSize =? 0 then ret 0
      else
        _waitPacket dumpBuffer hSize (dumpLength - hSize) ;;
        ret dumpLength
    else
      _waitPacket dumpBuffer 0 dumpLength ;;
      ret dumpLength.

(** [bool InfileMerger::finalize()], as it is compiled. *)
Definition finalize : M bool := ret false.

(** [bool InfileMerger::isFinished() const] *)
Definition isFinished : M bool := gets _isFinished.

(** [void InfileMerger::_fixupTargetName()] *)
Definition _fixupTargetName : M unit :=
  c <- gets _config ;;
  (if bool_decide (targetTable c = "") then
     assert (negb (bool_decide (targetDb c = ""))) ;;
     stamp <- getTimeStampId ;;
     modify (set_config
               {| targetDb := targetDb c;
                  targetTable := targetDb c +:+ ".result_" +:+ stamp;
                  mFixup := mFixup c; user := user c; socket := socket c |})
   else ret tt) ;;
  c <- gets _config ;;
  if needsFixup (mFixup c)
  then modify (set_mergeTable (targetTable c +:+ "_m"))
  else modify (set_mergeTable (targetTable c)).

(** [InfileMerger::InfileMerger(InfileMergerConfig const& c)]. The
    initializer list gives no value to [_needHeader], nor to
    [_error.status]: they start as whatever the memory held,
    [needHeader0] and [status0]. *)
Definition uninitialized (c : InfileMergerConfig) (needHeader0 : bool)
    (status0 : Z) (w : World) : State :=
  {| _config := c; _mergeTable := "";
     _error := {| status := status0; errorCode := NONE; description := "" |};
     _isFinished := false; _needCreateTable := true;
     _needHeader := needHeader0;
     _msgs := Some {| protoHeader := {| size := 0; md5 := "" |};
                      result := {| session := 0; rowschema := [] |} |};
     _sqlConn := false; _numInflight := 0; world := w |}.

Definition InfileMerger_ctor (c : InfileMergerConfig) (needHeader0 : bool)
    (status0 : Z) (w : World) : Res unit * State :=
  (Mgr_ctor ;;
   modify (set_errorCode NONE) ;;
   _fixupTargetName) (uninitialized c needHeader0 status0 w).

(** *** A query session: the public calls made on one merger *)

Inductive Call :=
| CallMerge (dumpBuffer : list byte) (dumpLength : Z) (tableName : string)
| CallFinalize.

Inductive Reply :=
| MergeReply (r : Res Z)
| FinalizeReply (r : Res bool).

Definition call (c : Call) (s : State) : Reply * State :=
  match c with
  | CallMerge dumpBuffer dumpLength tableName =>
      let '(r, s') := merge dumpBuffer dumpLength tableName s in
      (MergeReply r, s')
  | CallFinalize =>
      let '(r, s') := finalize s in (FinalizeReply r, s')
  end.

Definition stopped (r : Reply) : bool :=
  match r with
  | MergeReply (Fault _) | FinalizeReply (Fault _) => true
  | _ => false
  end.

(** The calls are made in turn; a call that stops the process is the
    last one. *)
Fixpoint run (calls : list Call) (s : State) : list Reply * State :=
  match calls with
  | [] => ([], s)
  | c :: rest =>
      let '(r, s') := call c s in
      if stopped r then ([r], s')
      else let '(rs, s'') := run rest s' in (r :: rs, s'')
  end.

End Operations.


(** *** An environment to run the merger in

    A toy wire format stands in for the protobuf messages: a header is a
    size byte followed by the digest text, a result is any non-empty
    byte string (its first byte is the session), and the digest of a
    byte string is the decimal text of the sum of its bytes. The SQL
    engine accepts every statement. *)

Definition toyHeaderFrom (bytes : list byte) : bool * ProtoHeader :=
  match bytes with
  | [] => (false, {| size := 0; md5 := "" |})
  | b :: rest =>
      (true, {| size := Z.of_N (Byte.to_N b);
                md5 := String.string_of_list_byte rest |})
  end.

Definition toyRowSchema : list ColumnSchema :=
  [ {| name := "id"; hasdefault := false; defaultvalue := "";
       mysqltype := None; sqltype := "INT" |};
    {| name := "v"; hasdefault := false; defaultvalue := "";
       mysqltype := None; sqltype := "DOUBLE" |} ].

Definition toyResultFrom (bytes : list byte) : bool * Result :=
  match bytes with
  | [] => (false, {| session := 0; rowschema := [] |})
  | b :: _ => (true, {| session := Z.of_N (Byte.to_N b);
                        rowschema := toyRowSchema |})
  end.

Definition toyMd5 (bytes : list byte) : string :=
  decimal (fold_right (λ b acc, Z.of_N (Byte.to_N b) + acc) 0 bytes).

Definition toyEnv : Environment :=
  {| gettimeofday := (0, {| tv_sec := 1414665432; tv_usec := 123456 |});
     connect := λ _, true;
     headerFrom := toyHeaderFrom;
     resultFrom := toyResultFrom;
     getMd5 := toyMd5;
     connectToDb := λ _, None;
     runQuery := λ _ _, None;
     prepareSrc := λ w, "virtual" +:+ decimal (Z.of_nat (length w));
     connected := λ _, true;
     queryUnbuffered := λ _ _, true |}.

Definition toyConfig : InfileMergerConfig :=
  {| targetDb := "qservResult"; targetTable := "qservResult.result_1";
     mFixup := {| needsFixup := true |}; user := "qsmaster";
     socket := "/tmp/mysql.sock" |}.

(** The merger as constructed, awaiting its first header, and as it is
    constructed when the memory of [_needHeader] happens to hold
    [false]. *)
Definition toyMerger : State :=
  (InfileMerger_ctor toyEnv toyConfig true NONE []).2.

Definition toyMergerNoHeader : State :=
  (InfileMerger_ctor toyEnv toyConfig false NONE []).2.

(** Payload [07 01 02], of digest "10"; the header is the size byte 3
    and the two digest characters, so that H = 3 and the frame has
    1 + 3 + 3 bytes. *)
Definition toyPayload : list byte := [x07; x01; x02].
Definition toyFrame : list byte := [x03; x03; x31; x30] ++ toyPayload.
(** The same frame with its last payload byte changed. *)
Definition corruptFrame : list byte := [x03; x03; x31; x30; x07; x01; x03].
(** The same frame with its last payload byte missing. *)
Definition shortFrame : list byte := [x03; x03; x31; x30; x07; x01].

(** *** Properties of sessions *)

(** The reply of a call made on a merger that has an error recorded. *)
Definition refusal (c : Call) : Reply :=
  match c with
  | CallMerge _ _ _ => MergeReply (Ret (-1))
  | CallFinalize => FinalizeReply (Ret false)
  end.

(** The CREATE TABLE statements that were run on [_sqlConn], accepted by
    the engine or not, and their number. *)
Definition is_create (ev : Event) : bool :=
  match ev with
  | RunQuery (formCreateTable _ _) _ => true
  | _ => false
  end.

Fixpoint count_create (w : World) : nat :=
  match w with
  | [] => 0%nat
  | ev :: rest =>
      ((if is_create ev then 1 else 0) + count_create rest)%nat
  end.

(** What a session keeps true: the engine has seen no CREATE TABLE, or
    it has seen one and the merger will not send another, because the
    table is marked as created or an error is recorded. *)
Definition create_once (s : State) : Prop :=
  count_create (world s) = 0%nat
  ∨ (count_create (world s) = 1%nat
     ∧ (_needCreateTable s = false ∨ errorCode (_error s) ≠ NONE)).

(** Once the table is marked as created it stays so, and no public call
    sends a CREATE TABLE. *)
Definition created_with (n : nat) (s : State) : Prop :=
  _needCreateTable s = false ∧ count_create (world s) = n.

(** The events of a load: the registration of a virtual file and the
    LOAD statement on the connection of the manager; and their number. *)
Definition is_load (ev : Event) : bool :=
  match ev with
  | PrepareSrc _ | QueryUnbuffered _ _ => true
  | _ => false
  end.

Fixpoint count_load (w : World) : nat :=
  match w with
  | [] => 0%nat
  | ev :: rest => ((if is_load ev then 1 else 0) + count_load rest)%nat
  end.

(** What no public call changes, relative to a state [s0]: the
    configuration, the name of the merge table, the in-flight counter
    and the number of load events. *)
Definition session_fixed (s0 s : State) : Prop :=
  _config s = _config s0
  ∧ _mergeTable s = _mergeTable s0
  ∧ _numInflight s = _numInflight s0
  ∧ count_load (world s) = count_load (world s0).

(** [_isFinished] is set only where the creation of the table fails. *)
Definition finished_by_create (s : State) : Prop :=
  _isFinished s = true → errorCode (_error s) = CREATE_TABLE.

(** An engine that refuses every statement with error 1114, "the table
    is full". *)
Definition fullEnv : Environment :=
  {| gettimeofday := gettimeofday toyEnv;
     connect := connect toyEnv;
     headerFrom := headerFrom toyEnv;
     resultFrom := resultFrom toyEnv;
     getMd5 := getMd5 toyEnv;
     connectToDb := connectToDb toyEnv;
     runQuery := λ _ _, Some {| errNo := 1114;
                                printErrMsg := "The table is full" |};
     prepareSrc := prepareSrc toyEnv;
     connected := connected toyEnv;
     queryUnbuffered := queryUnbuffered toyEnv |}.

(** An engine that the manager cannot connect to. *)
Definition downEnv : Environment :=
  {| gettimeofday := gettimeofday toyEnv;
     connect := λ _, false;
     headerFrom := headerFrom toyEnv;
     resultFrom := resultFrom toyEnv;
     getMd5 := getMd5 toyEnv;
     connectToDb := connectToDb toyEnv;
     runQuery := runQuery toyEnv;
     prepareSrc := prepareSrc toyEnv;
     connected := λ _, false;
     queryUnbuffered := queryUnbuffered toyEnv |}.

(** A frame whose header is empty, and so does not decode, and a frame
    whose header declares an empty payload, which does not decode. *)
Definition badHeaderFrame : list byte := [x00; x07; x01; x02].
Definition badResultFrame : list byte := [x02; x00; x30].

End InfileMerger.

(** ** meta/MetadataCache.cc *)

Module MetadataCache.

(** A [float] is stored and handed back, never computed with: it is
    kept as the bit pattern of its IEEE 754 binary32 value. *)
Definition float := Z.

(** The [int] -1 converted to [float]: sign 1, exponent 127, fraction 0. *)
Definition float_minus_one : float := 0xBF800000.

(** The status codes [MetadataCache::STATUS_...]. Their declaration, in
    [meta/MetadataCache.h], is not among the sources: they are kept as
    the enumerators that the code returns. *)
Inductive Status :=
| STATUS_OK
| STATUS_ERR_DB_DOES_NOT_EXIST
| STATUS_ERR_DB_EXISTS
| STATUS_ERR_TABLE_EXISTS.

(** [std::invalid_argument(__FILE__ ":" + __SLINE__ + ":" text)]: the
    line of the [throw] and the text after the last colon. *)
Record invalid_argument := { line : Z; what : string }.

Inductive Res (A : Type) :=
| Ret (a : A)
| Throw (e : invalid_argument).
Arguments Ret {A} a.
Arguments Throw {A} e.

#[global] Instance invalid_argument_eq_dec : EqDecision invalid_argument.
Proof. solve_decision. Defined.

#[global] Instance Res_eq_dec {A : Type} `{EqDecision A} : EqDecision (Res A).
Proof. solve_decision. Defined.

(** *** [std::map<std::string, V>]

    [find] is the lookup of the key; [insert] adds the pair unless the
    key is there, and then changes nothing; the iteration from [begin()]
    to [end()] goes through the keys in ascending order of
    [std::string::operator<]. *)
Definition map_insert {V : Type} (k : string) (v : V) (m : gmap string V) :
    gmap string V :=
  match m !! k with
  | Some _ => m
  | None => <[k := v]> m
  end.

Definition map_keys {V : Type} (m : gmap string V) : list string :=
  merge_sort String.le (map_to_list m).*1.

(** The loops of [getChunkedTables] and [getSubChunkedTables]: the names
    for which [check] holds are pushed to the back of [v], and an
    exception of [check] leaves the loop. *)
Fixpoint push_back_if (check : string → Res bool) (keys : list string)
    (v : list string) : Res (list string) :=
  match keys with
  | [] => Ret v
  | k :: keys' =>
      match check k with
      | Throw e => Throw e
      | Ret b => push_back_if check keys' (if b then v ++ [k] else v)
      end
  end.

(** *** [MetadataCache::TableInfo]; the fields go by their getters *)

Record TableInfo := {
  getIsPartitioned : bool;
  getOverlap : float;
  getLonCol : string;
  getLatCol : string;
  getObjIdCol : string;
  getLonColNo : Z;
  getLatColNo : Z;
  getObjIdColNo : Z;
  getLogicalPart : Z;
  getPhysChunking : Z
}.

(** [TableInfo::TableInfo()] *)
Definition TableInfo_default : TableInfo :=
  {| getIsPartitioned := false;
     getOverlap := float_minus_one;
     getLonCol := "invalid";
     getLatCol := "invalid";
     getObjIdCol := "invalid";
     getLonColNo := -1;
     getLatColNo := -1;
     getObjIdColNo := -1;
     getLogicalPart := -1;
     getPhysChunking := -1 |}.

(** [TableInfo::TableInfo(float overlap, ..., int physChunking)] *)
Definition TableInfo_sphBox (overlap : float) (lonCol latCol objIdCol : string)
    (lonColNo latColNo objIdColNo logicalPart physChunking : Z) : TableInfo :=
  {| getIsPartitioned := true;
     getOverlap := overlap;
     getLonCol := lonCol;
     getLatCol := latCol;
     getObjIdCol := objIdCol;
     getLonColNo := lonColNo;
     getLatColNo := latColNo;
     getObjIdColNo := objIdColNo;
     getLogicalPart := logicalPart;
     getPhysChunking := physChunking |}.

(** *** [MetadataCache::DbInfo] *)

Module DbInfo.

Record t := {
  _isPartitioned : bool;
  _nStripes : Z;
  _nSubStripes : Z;
  _defOverlapF : float;
  _defOverlapNN : float;
  _tables : gmap string TableInfo
}.

Definition set_tables (tables : gmap string TableInfo) (d : t) : t :=
  {| _isPartitioned := _isPartitioned d;
     _nStripes := _nStripes d;
     _nSubStripes := _nSubStripes d;
     _defOverlapF := _defOverlapF d;
     _defOverlapNN := _defOverlapNN d;
     _tables := tables |}.

(** [DbInfo::DbInfo()] *)
Definition default : t :=
  {| _isPartitioned := false;
     _nStripes := -1;
     _nSubStripes := -1;
     _defOverlapF := float_minus_one;
     _defOverlapNN := float_minus_one;
     _tables := ∅ |}.

(** [DbInfo::DbInfo(int nStripes, int nSubStripes, float defOverlapF,
    float defOverlapNN)] *)
Definition sphBox (nStripes nSubStripes : Z) (defOverlapF defOverlapNN : float) :
    t :=
  {| _isPartitioned := true;
     _nStripes := nStripes;
     _nSubStripes := nSubStripes;
     _defOverlapF := defOverlapF;
     _defOverlapNN := defOverlapNN;
     _tables := ∅ |}.

(** [int DbInfo::addTable(std::string const& tbName,
    const TableInfo& tbInfo)] *)
Definition addTable (tbName : string) (tbInfo : TableInfo) (d : t) :
    Status * t :=
  match _tables d !! tbName with
  | Some _ => (STATUS_ERR_TABLE_EXISTS, d)
  | None => (STATUS_OK, set_tables (map_insert tbName tbInfo (_tables d)) d)
  end.

(** [bool DbInfo::checkIfContainsTable(std::string const& tableName) const] *)
Definition checkIfContainsTable (tableName : string) (d : t) : bool :=
  match _tables d !! tableName with
  | Some _ => true
  | None => false
  end.

(** [bool DbInfo::checkIfTableIsChunked(std::string const& tableName) const] *)
Definition checkIfTableIsChunked (tableName : string) (d : t) : Res bool :=
  match _tables d !! tableName with
  | None => Throw {| line := 110; what := "Invalid table." |}
  | Some ti => Ret (getIsPartitioned ti)
  end.

(** [bool DbInfo::checkIfTableIsSubChunked(std::string const& tableName)
    const] *)
Definition checkIfTableIsSubChunked (tableName : string) (d : t) : Res bool :=
  match _tables d !! tableName with
  | None => Throw {| line := 125; what := "Invalid table" |}
  | Some ti => Ret (2 =? getLogicalPart ti)
  end.

(** [int DbInfo::getChunkLevel(std::string const& tableName) const] *)
Definition getChunkLevel (tableName : string) (d : t) : Res Z :=
  let chunklevel := 0 in
  match _tables d !! tableName with
  | None => Throw {| line := 143; what := "Invalid table." |}
  | Some ti =>
      Ret (if getIsPartitioned ti then getLogicalPart ti else chunklevel)
  end.

(** [std::vector<std::string> DbInfo::getChunkedTables() const] *)
Definition getChunkedTables (d : t) : Res (list string) :=
  push_back_if (λ name, checkIfTableIsChunked name d)
    (map_keys (_tables d)) [].

(** [std::vector<std::string> DbInfo::getSubChunkedTables() const] *)
Definition getSubChunkedTables (d : t) : Res (list string) :=
  push_back_if (λ name, checkIfTableIsSubChunked name d)
    (map_keys (_tables d)) [].

(** [std::vector<std::string> DbInfo::getPartitionCols(
    std::string const& tableName) const] *)
Definition getPartitionCols (tableName : string) (d : t) :
    Res (list string) :=
  match _tables d !! tableName with
  | None => Throw {| line := 198; what := "Invalid table" |}
  | Some ti => Ret [getLonCol ti; getLatCol ti; getObjIdCol ti]
  end.

(** [std::string DbInfo::getKeyColumn(std::string const& table) const] *)
Definition getKeyColumn (table : string) (d : t) : Res string :=
  match _tables d !! table with
  | None => Throw {| line := 218; what := "Invalid table." |}
  | Some ti => Ret (getObjIdCol ti)
  end.

End DbInfo.

(** *** [MetadataCache]

    The cache is the map [_dbs]; its mutex is left out, the calls being
    taken one after the other. *)

Record MetadataCache := { _dbs : gmap string DbInfo.t }.

(** A cache as it is constructed: no database. *)
Definition empty_cache : MetadataCache := {| _dbs := ∅ |}.

(** [bool MetadataCache::checkIfContainsDb(std::string const& dbName)] *)
Definition checkIfContainsDb (dbName : string) (c : MetadataCache) : bool :=
  match _dbs c !! dbName with
  | Some _ => true
  | None => false
  end.

(** [int MetadataCache::addDbInfoNonPartitioned(std::string const& dbName)] *)
Definition addDbInfoNonPartitioned (dbName : string) (c : MetadataCache) :
    Status * MetadataCache :=
  if checkIfContainsDb dbName c then (STATUS_ERR_DB_EXISTS, c)
  else (STATUS_OK, {| _dbs := map_insert dbName DbInfo.default (_dbs c) |}).

(** [int MetadataCache::addDbInfoPartitionedSphBox(
    std::string const& dbName, int nStripes, int nSubStripes,
    float defOverlapF, float defOverlapNN)] *)
Definition addDbInfoPartitionedSphBox (dbName : string)
    (nStripes nSubStripes : Z) (defOverlapF defOverlapNN : float)
    (c : MetadataCache) : Status * MetadataCache :=
  if checkIfContainsDb dbName c then (STATUS_ERR_DB_EXISTS, c)
  else
    let dbInfo := DbInfo.sphBox nStripes nSubStripes defOverlapF defOverlapNN in
    (STATUS_OK, {| _dbs := map_insert dbName dbInfo (_dbs c) |}).

(** [itr->second.addTable(tbName, tInfo)] on the entry that [find] gave:
    the [DbInfo] is changed where it lies in the map. *)
Definition addTableAt (dbName tbName : string) (tInfo : TableInfo)
    (c : MetadataCache) : Status * MetadataCache :=
  match _dbs c !! dbName with
  | None => (STATUS_ERR_DB_DOES_NOT_EXIST, c)
  | Some d =>
      let '(status, d') := DbInfo.addTable tbName tInfo d in
      (status, {| _dbs := <[dbName := d']> (_dbs c) |})
  end.

(** [int MetadataCache::addTbInfoNonPartitioned(std::string const& dbName,
    std::string const& tbName)] *)
Definition addTbInfoNonPartitioned (dbName tbName : string)
    (c : MetadataCache) : Status * MetadataCache :=
  addTableAt dbName tbName TableInfo_default c.

(** [int MetadataCache::addTbInfoPartitionedSphBox(
    std::string const& dbName, std::string const& tbName, float overlap,
    ..., int physChunking)] *)
Definition addTbInfoPartitionedSphBox (dbName tbName : string)
    (overlap : float) (lonCol latCol objIdCol : string)
    (lonColNo latColNo objIdColNo logicalPart physChunking : Z)
    (c : MetadataCache) : Status * MetadataCache :=
  addTableAt dbName tbName
    (TableInfo_sphBox overlap lonCol latCol objIdCol lonColNo latColNo
       objIdColNo logicalPart physChunking) c.

(** [bool MetadataCache::checkIfContainsTable(std::string const& dbName,
    std::string const& tableName)] *)
Definition checkIfContainsTable (dbName tableName : string)
    (c : MetadataCache) : bool :=
  match _dbs c !! dbName with
  | None => false
  | Some d => DbInfo.checkIfContainsTable tableName d
  end.

(** [bool MetadataCache::checkIfTableIsChunked(std::string const& dbName,
    std::string const& tableName)] *)
Definition checkIfTableIsChunked (dbName tableName : string)
    (c : MetadataCache) : Res bool :=
  match _dbs c !! dbName with
  | None => Throw {| line := 418; what := "Invalid table." |}
  | Some d => DbInfo.checkIfTableIsChunked tableName d
  end.

(** [bool MetadataCache::checkIfTableIsSubChunked(
    std::string const& dbName, std::string const& tableName)] *)
Definition checkIfTableIsSubChunked (dbName tableName : string)
    (c : MetadataCache) : Res bool :=
  match _dbs c !! dbName with
  | None => Throw {| line := 436; what := "Invalid table." |}
  | Some d => DbInfo.checkIfTableIsSubChunked tableName d
  end.

(** [std::vector<std::string> MetadataCache::getAllowedDbs()] *)
Definition getAllowedDbs (c : MetadataCache) : list string :=
  fold_left (λ v name, v ++ [name]) (map_keys (_dbs c)) [].

(** [std::vector<std::string> MetadataCache::getChunkedTables(
    std::string const& dbName)] *)
Definition getChunkedTables (dbName : string) (c : MetadataCache) :
    Res (list string) :=
  match _dbs c !! dbName with
  | None => Throw {| line := 467; what := "Invalid db." |}
  | Some d => DbInfo.getChunkedTables d
  end.

(** [std::vector<std::string> MetadataCache::getSubChunkedTables(
    std::string const& dbName)] *)
Definition getSubChunkedTables (dbName : string) (c : MetadataCache) :
    Res (list string) :=
  match _dbs c !! dbName with
  | None => Throw {| line := 483; what := "Invalid db." |}
  | Some d => DbInfo.getSubChunkedTables d
  end.

(** [std::vector<std::string> MetadataCache::getPartitionCols(
    std::string const& dbName, std::string const& tableName)] *)
Definition getPartitionCols (dbName tableName : string) (c : MetadataCache) :
    Res (list string) :=
  match _dbs c !! dbName with
  | None => Throw {| line := 501; what := "Invalid db/table" |}
  | Some d => DbInfo.getPartitionCols tableName d
  end.

(** [long MetadataCache::getChunkLevel(std::string const& dbName,
    std::string const& tableName)] *)
Definition getChunkLevel (dbName tableName : string) (c : MetadataCache) :
    Res Z :=
  match _dbs c !! dbName with
  | None => Throw {| line := 519; what := "Invalid db/table." |}
  | Some d => DbInfo.getChunkLevel tableName d
  end.

(** [std::string MetadataCache::getKeyColumn(std::string const& db,
    std::string const& table)] *)
Definition getKeyColumn (db table : string) (c : MetadataCache) : Res string :=
  match _dbs c !! db with
  | None => Throw {| line := 538; what := "Invalid db/table." |}
  | Some d => DbInfo.getKeyColumn table d
  end.

(** [MetadataCache::DbInfo MetadataCache::getDbInfo(
    std::string const& dbName)] *)
Definition getDbInfo (dbName : string) (c : MetadataCache) : Res DbInfo.t :=
  match _dbs c !! dbName with
  | None => Throw {| line := 556; what := "Invalid db." |}
  | Some d => Ret d
  end.

(** *** The calls that fill a cache *)

Inductive Add :=
| AddDbInfoNonPartitioned (dbName : string)
| AddDbInfoPartitionedSphBox (dbName : string) (nStripes nSubStripes : Z)
    (defOverlapF defOverlapNN : float)
| AddTbInfoNonPartitioned (dbName tbName : string)
| AddTbInfoPartitionedSphBox (dbName tbName : string) (overlap : float)
    (lonCol latCol objIdCol : string)
    (lonColNo latColNo objIdColNo logicalPart physChunking : Z).

Definition add (a : Add) (c : MetadataCache) : Status * MetadataCache :=
  match a with
  | AddDbInfoNonPartitioned dbName => addDbInfoNonPartitioned dbName c
  | AddDbInfoPartitionedSphBox dbName nStripes nSubStripes f nn =>
      addDbInfoPartitionedSphBox dbName nStripes nSubStripes f nn c
  | AddTbInfoNonPartitioned dbName tbName =>
      addTbInfoNonPartitioned dbName tbName c
  | AddTbInfoPartitionedSphBox dbName tbName overlap lonCol latCol objIdCol
      lonColNo latColNo objIdColNo logicalPart physChunking =>
      addTbInfoPartitionedSphBox dbName tbName overlap lonCol latCol objIdCol
        lonColNo latColNo objIdColNo logicalPart physChunking c
  end.

(** The cache after a sequence of calls, whatever their statuses. *)
Definition fill (calls : list Add) (c : MetadataCache) : MetadataCache :=
  fold_left (λ c a, (add a c).2) calls c.

(** *** What the theorems about the cache speak of *)

(** Whether a call returned, rather than threw. *)
Definition returned {A : Type} (r : Res A) : bool :=
  match r with
  | Ret _ => true
  | Throw _ => false
  end.

(** A list of names in strictly ascending order. *)
Definition ascending (names : list string) : Prop :=
  StronglySorted (λ a b, String.ltb a b = true) names.

(** A [TableInfo] as one of its two constructors makes it. *)
Definition constructed (ti : TableInfo) : Prop :=
  getIsPartitioned ti = true ∨ ti = TableInfo_default.

(** A cache whose every table entry was made by a constructor. *)
Definition cache_constructed (c : MetadataCache) : Prop :=
  ∀ db d tb ti,
    _dbs c !! db = Some d → DbInfo._tables d !! tb = Some ti → constructed ti.

(** [c'] holds every database of [c], with the parameters it had, and
    every table of [c], as it was. *)
Definition extends (c c' : MetadataCache) : Prop :=
  ∀ db d,
    _dbs c !! db = Some d →
    ∃ d', _dbs c' !! db = Some d'
          ∧ DbInfo.set_tables ∅ d' = DbInfo.set_tables ∅ d
          ∧ ∀ tb ti, DbInfo._tables d !! tb = Some ti →
                     DbInfo._tables d' !! tb = Some ti.

(** *** A cache to run the definitions on *)

Definition lsstCache : MetadataCache :=
  fill [AddDbInfoPartitionedSphBox "LSST" 60 18 0 0;
        AddTbInfoPartitionedSphBox "LSST" "Source" 0 "raObject" "declObject"
          "objectId" 3 4 0 1 0;
        AddTbInfoPartitionedSphBox "LSST" "Object" 0 "ra_PS" "decl_PS"
          "objectId" 2 4 0 2 0;
        AddTbInfoNonPartitioned "LSST" "Filter";
        AddDbInfoNonPartitioned "Test"]
    empty_cache.

End MetadataCache.

(** ** Strings as the code compares them

    [std::string::operator<] is the lexicographic order on the bytes of
    the string, which is [String.ltb]. *)

Module StrOrder.

Lemma compare_refl (s : string) : String.compare s s = Eq.
Proof.
  pose proof (String.compare_antisym s s) as H.
  destruct (String.compare s s); done.
Qed.

Lemma ltb_irrefl (s : string) : String.ltb s s = false.
Proof. unfold String.ltb. by rewrite compare_refl. Qed.

Lemma ltb_le (a b : string) : String.ltb a b = true ↔ String.le a b ∧ a ≠ b.
Proof.
  unfold String.ltb, String.le, String.leb.
  destruct (String.compare a b) eqn:E; split.
  - done.
  - apply String.compare_eq_iff in E. by intros [_ []].
  - intros _. split; [done|]. intros ->. by rewrite compare_refl in E.
  - done.
  - done.
  - by intros [[] _].
Qed.

Lemma ltb_trans (a b c : string) :
  String.ltb a b = true → String.ltb b c = true → String.ltb a c = true.
Proof.
  rewrite !ltb_le. intros [Hab Nab] [Hbc Nbc]. split.
  - by etrans.
  - intros ->. apply Nab. by apply (anti_symm String.le).
Qed.

Lemma ltb_trichotomy (a b : string) :
  String.ltb a b = true ∨ a = b ∨ String.ltb b a = true.
Proof.
  destruct (decide (a = b)) as [->|Hne]; [by right; left|].
  destruct (total String.le a b).
  - left. by apply ltb_le.
  - right; right. apply ltb_le. split; [done|]. by intros ->.
Qed.

Lemma ltb_asym (a b : string) :
  String.ltb a b = true → String.ltb b a = false.
Proof.
  intros H. destruct (String.ltb b a) eqn:E; [|done].
  pose proof (ltb_trans _ _ _ H E) as K. by rewrite ltb_irrefl in K.
Qed.

End StrOrder.

(** ** Properties of the table metadata pool *)

Module TableInfoPoolFacts.

Import TableInfoPool.

(** *** The order of the pool *)

Lemma TableInfoLt_spec (a b : TableInfo) :
  TableInfoLt a b = true ↔
  String.ltb (database a) (database b) = true
  ∨ (database a = database b ∧ String.ltb (table a) (table b) = true).
Proof.
  unfold TableInfoLt.
  rewrite orb_true_iff, andb_true_iff, bool_decide_eq_true. tauto.
Qed.

Lemma TableInfoLt_key (a a' b b' : TableInfo) :
  key a = key a' → key b = key b' → TableInfoLt a b = TableInfoLt a' b'.
Proof.
  unfold key, TableInfoLt. intros [= -> ->] [= -> ->]. reflexivity.
Qed.

Lemma TableInfoLt_irrefl (t : TableInfo) : TableInfoLt t t = false.
Proof.
  apply not_true_is_false. rewrite TableInfoLt_spec.
  rewrite !StrOrder.ltb_irrefl. intros [?|[_ ?]]; discriminate.
Qed.

Lemma TableInfoLt_trans (a b c : TableInfo) :
  TableInfoLt a b = true → TableInfoLt b c = true → TableInfoLt a c = true.
Proof.
  rewrite !TableInfoLt_spec.
  intros [Hab|[Eab Hab]] [Hbc|[Ebc Hbc]].
  - left. eapply StrOrder.ltb_trans; eassumption.
  - left. by rewrite <- Ebc.
  - left. by rewrite Eab.
  - right. split; [congruence|]. eapply StrOrder.ltb_trans; eassumption.
Qed.

Lemma TableInfoLt_asym (a b : TableInfo) :
  TableInfoLt a b = true → TableInfoLt b a = false.
Proof.
  intros H. destruct (TableInfoLt b a) eqn:E; [|done].
  pose proof (TableInfoLt_trans _ _ _ H E) as K.
  by rewrite TableInfoLt_irrefl in K.
Qed.

Lemma TableInfoLt_equiv (a b : TableInfo) :
  TableInfoLt a b = false → TableInfoLt b a = false → key a = key b.
Proof.
  intros Hab Hba. unfold key.
  apply not_true_iff_false in Hab, Hba. rewrite TableInfoLt_spec in Hab, Hba.
  destruct (StrOrder.ltb_trichotomy (database a) (database b))
    as [H|[Hd|H]]; [tauto| |tauto].
  destruct (StrOrder.ltb_trichotomy (table a) (table b))
    as [H|[Ht|H]]; [tauto| |].
  - congruence.
  - exfalso. apply Hba. right. split; [congruence|done].
Qed.

Lemma TableInfoLt_same_key (a b : TableInfo) :
  key a = key b → TableInfoLt a b = false.
Proof.
  intros H. rewrite (TableInfoLt_key a b b b H eq_refl).
  apply TableInfoLt_irrefl.
Qed.

Lemma lower_le_upper (pool : Pool) (t : TableInfo) :
  (lower_bound pool t ≤ upper_bound pool t)%nat.
Proof.
  induction pool as [|e rest IH]; simpl; [lia|].
  destruct (TableInfoLt e t) eqn:E.
  - rewrite (TableInfoLt_asym _ _ E). lia.
  - lia.
Qed.

(** The equation that [get_const] satisfies on a pool with a first
    element: skip it when it is smaller than the probe, stop without a
    result when it is larger, and return it otherwise. *)
Lemma get_const_cons (e : TableInfo) (rest : Pool) (db tbl : string) :
  get_const (e :: rest) db tbl =
  if TableInfoLt e (Plain db tbl DIRECTOR) then get_const rest db tbl
  else if TableInfoLt (Plain db tbl DIRECTOR) e then None
  else Some e.
Proof.
  unfold get_const, equal_range. simpl.
  destruct (TableInfoLt e _) eqn:E1.
  - rewrite (TableInfoLt_asym _ _ E1). simpl.
    repeat case_decide; try reflexivity; lia.
  - destruct (TableInfoLt _ e) eqn:E2; simpl; reflexivity.
Qed.

Lemma get_const_nil (db tbl : string) : get_const [] db tbl = None.
Proof. reflexivity. Qed.

(** What the lookup returns is an element of the pool with the key that
    was asked for, and no element before it has that key. *)
Lemma get_const_sound (pool : Pool) (db tbl : string) (t : TableInfo) :
  get_const pool db tbl = Some t →
  ∃ i, pool !! i = Some t ∧ key t = (db, tbl)
       ∧ ∀ j e, (j < i)%nat → pool !! j = Some e → key e ≠ (db, tbl).
Proof.
  induction pool as [|e rest IH]; [done|].
  rewrite get_const_cons.
  destruct (TableInfoLt e _) eqn:E1.
  - intros H. destruct (IH H) as (i & Hi & Hk & Hfirst).
    exists (S i). split; [done|]. split; [done|].
    intros [|j] e' Hj; simpl.
    + intros [= <-] Hke.
      rewrite (TableInfoLt_same_key e (Plain db tbl DIRECTOR)) in E1; done.
    + apply Hfirst. lia.
  - destruct (TableInfoLt _ e) eqn:E2; [done|].
    intros [= <-]. exists 0%nat. split; [done|]. split.
    + apply (TableInfoLt_equiv e (Plain db tbl DIRECTOR)); done.
    + intros j e' Hj. lia.
Qed.

Lemma get_const_elem_of (pool : Pool) (db tbl : string) (t : TableInfo) :
  get_const pool db tbl = Some t → t ∈ pool.
Proof.
  intros H. destruct (get_const_sound _ _ _ _ H) as (i & Hi & _).
  by eapply list_elem_of_lookup_2.
Qed.

(** On a sorted pool the lookup misses no element. *)
Lemma get_const_complete (pool : Pool) (db tbl : string) (t : TableInfo) :
  pool_sorted pool → t ∈ pool → key t = (db, tbl) →
  is_Some (get_const pool db tbl).
Proof.
  intros Hs. induction Hs as [|e rest Hs IH Hall]; intros Hin Hk.
  - by apply elem_of_nil in Hin.
  - rewrite get_const_cons.
    destruct (TableInfoLt e _) eqn:E1.
    + apply elem_of_cons in Hin as [Heq|Hin]; [|by apply IH].
      subst e.
      rewrite (TableInfoLt_same_key t (Plain db tbl DIRECTOR)) in E1; done.
    + destruct (TableInfoLt _ e) eqn:E2; [|by eexists].
      exfalso. apply elem_of_cons in Hin as [Heq|Hin].
      * subst e. rewrite (TableInfoLt_same_key (Plain db tbl DIRECTOR) t) in E2; done.
      * rewrite Forall_forall in Hall. specialize (Hall _ Hin).
        rewrite (TableInfoLt_key t (Plain db tbl DIRECTOR) e e) in Hall;
          [congruence|done|done].
Qed.


(** *** Insertion *)

Lemma _insert_cons (e t : TableInfo) (rest : Pool) :
  _insert (e :: rest) (Some t) =
  if TableInfoLt t e then t :: e :: rest else e :: _insert rest (Some t).
Proof. unfold _insert. simpl. by destruct (TableInfoLt t e). Qed.

Lemma _insert_nil (t : TableInfo) : _insert [] (Some t) = [t].
Proof. reflexivity. Qed.

Lemma elem_of__insert (pool : Pool) (t x : TableInfo) :
  x ∈ _insert pool (Some t) ↔ x = t ∨ x ∈ pool.
Proof.
  unfold _insert. cbv zeta. rewrite elem_of_app, elem_of_cons.
  assert (x ∈ pool ↔ x ∈ take (upper_bound pool t) pool
                     ∨ x ∈ drop (upper_bound pool t) pool) as ->
    by (by rewrite <- elem_of_app, take_drop).
  tauto.
Qed.

Lemma sublist__insert (pool : Pool) (t : option TableInfo) :
  sublist pool (_insert pool t).
Proof.
  destruct t as [t|]; [|done]. unfold _insert. cbv zeta.
  pose proof (take_drop (upper_bound pool t) pool) as E.
  rewrite <- E at 1.
  apply sublist_app; [done|]. by apply sublist_cons.
Qed.

Lemma length__insert (pool : Pool) (t : TableInfo) :
  length (_insert pool (Some t)) = S (length pool).
Proof.
  unfold _insert. cbv zeta. rewrite length_app. simpl.
  pose proof (f_equal length (take_drop (upper_bound pool t) pool)) as E.
  rewrite length_app in E. lia.
Qed.

Lemma pool_sorted__insert (pool : Pool) (t : TableInfo) :
  pool_sorted pool → pool_sorted (_insert pool (Some t)).
Proof.
  intros Hs. induction Hs as [|e rest Hs IH Hall].
  - rewrite _insert_nil. repeat constructor.
  - rewrite _insert_cons. destruct (TableInfoLt t e) eqn:E.
    + constructor; [by constructor|].
      constructor; [by apply TableInfoLt_asym|].
      rewrite Forall_forall in Hall |- *. intros y Hy.
      destruct (TableInfoLt y t) eqn:Eyt; [|done].
      rewrite <- (Hall _ Hy). symmetry.
      eapply TableInfoLt_trans; eassumption.
    + constructor; [done|].
      rewrite Forall_forall in Hall |- *. intros y Hy.
      apply elem_of__insert in Hy as [->|Hy]; [done|by apply Hall].
Qed.

(** *** What one call of [get] does to the pool *)

Arguments _insert : simpl never.

Ltac get_cases H :=
  cbn [get] in H; unfold bind, ret, throw in H;
  try (set (db_ := if decide (_ = "") then _ else _) in H; clearbody db_);
  repeat (case_match; simplify_eq/=; try done).

Lemma get_sublist (fuel : nat) :
  ∀ ctx db tbl pool o pool',
    get fuel ctx db tbl pool = Some (o, pool') → sublist pool pool'.
Proof.
  induction fuel as [|fuel IH]; intros ctx db tbl pool o pool' H; [done|].
  get_cases H;
    repeat match goal with
           | K : get fuel _ _ _ _ = Some _ |- _ => apply IH in K
           end;
    try done;
    try (etrans; [eassumption|]); try (etrans; [eassumption|]);
    try apply sublist__insert; try done.
Qed.


(** A result does not depend on the recursion budget, once the budget
    suffices. *)
Lemma get_fuel_S (fuel : nat) :
  ∀ ctx db tbl pool r,
    get fuel ctx db tbl pool = Some r → get (S fuel) ctx db tbl pool = Some r.
Proof.
  induction fuel as [|fuel IH]; intros ctx db tbl pool r H; [done|].
  remember (S fuel) as n eqn:Hn. rewrite Hn in H.
  cbn [get] in H |- *. clear Hn.
  unfold bind, ret, throw in *.
  set (db_ := if decide (_ = "") then _ else _) in *. clearbody db_.
  repeat first
    [ done
    | match type of H with
      | context [get fuel ?c ?d ?t ?p] =>
          let K := fresh "K" in
          destruct (get fuel c d t p) as [[[?|?] ?]|] eqn:K;
          [apply IH in K; rewrite K
          |apply IH in K; rewrite K
          |discriminate H]
      end
    | case_match ].
Qed.

Lemma get_fuel_le (fuel fuel' : nat) :
  (fuel ≤ fuel')%nat →
  ∀ ctx db tbl pool r,
    get fuel ctx db tbl pool = Some r → get fuel' ctx db tbl pool = Some r.
Proof.
  induction 1 as [|fuel' _ IH]; intros ctx db tbl pool r H; [done|].
  by apply get_fuel_S, IH.
Qed.

Lemma get_returned_elem_of (fuel : nat) :
  ∀ ctx db tbl pool t pool',
    get fuel ctx db tbl pool = Some (Returned (Some t), pool') → t ∈ pool'.
Proof.
  destruct fuel as [|fuel]; intros ctx db tbl pool t pool' H; [done|].
  get_cases H;
    solve [ by eapply get_const_elem_of
          | apply elem_of__insert; by left ].
Qed.

Lemma get_pool_sorted (fuel : nat) :
  ∀ ctx db tbl pool o pool',
    pool_sorted pool →
    get fuel ctx db tbl pool = Some (o, pool') → pool_sorted pool'.
Proof.
  induction fuel as [|fuel IH]; intros ctx db tbl pool o pool' Hs H; [done|].
  get_cases H;
    repeat match goal with
           | K : get fuel _ _ _ ?p = Some _, Hp : pool_sorted ?p |- _ =>
               apply (IH _ _ _ _ _ _ Hp) in K
           end;
    try apply pool_sorted__insert; done.
Qed.

Lemma sublist_elem_of (pool pool' : Pool) (t : TableInfo) :
  sublist pool pool' → t ∈ pool → t ∈ pool'.
Proof.
  induction 1 as [|x l1 l2 _ IH|x l1 l2 _ IH]; [done| |].
  - rewrite !elem_of_cons. intros [->|?]; [by left|right; by apply IH].
  - intros ?. apply elem_of_cons. right. by apply IH.
Qed.

Lemma match_ok_sublist (pool pool' : Pool) (mi : MatchTableInfo) :
  sublist pool pool' → match_ok pool mi → match_ok pool' mi.
Proof.
  intros Hsub (d1 & d2 & ? & ? & ? & ?).
  exists d1, d2. split; [done|].
  split; [by eapply sublist_elem_of|]. split; [by eapply sublist_elem_of|].
  done.
Qed.



Lemma dynamic_cast_Dir_Some (r : option TableInfo) (d : DirTableInfo) :
  dynamic_cast_Dir r = Some d ↔ r = Some (Dir d).
Proof.
  destruct r as [[| | |]|]; simpl; split; intros H; by simplify_eq.
Qed.



(** Resolving the match table from an empty pool leaves the three
    descriptors in the pool, in key order. *)
Example get_RefMatch :
  get 2 (lsstCtx 17) "LSST" "RefMatch" [] =
  Some (Returned (Some (Match (refMatchInfo 17))),
        [Dir (objectInfo 17); Match (refMatchInfo 17); Dir (sourceInfo 17)]).
Proof. reflexivity. Qed.

Example get_RefMatch_again :
  get 1 (lsstCtx 17) "" "RefMatch"
    [Dir (objectInfo 17); Match (refMatchInfo 17); Dir (sourceInfo 17)] =
  Some (Returned (Some (Match (refMatchInfo 17))),
        [Dir (objectInfo 17); Match (refMatchInfo 17); Dir (sourceInfo 17)]).
Proof. reflexivity. Qed.

(** *** The claims about the pool *)





(** The pool that holds [Object] as it was resolved while the database
    had partitioning id 17. *)
Example get_Object :
  get 1 (lsstCtx 17) "LSST" "Object" [] =
  Some (Returned (Some (Dir (objectInfo 17))), [Dir (objectInfo 17)]).
Proof. reflexivity. Qed.

(** The database that a recursive call resolves is the one that the
    call that made it resolved. *)
Lemma resolved_db_idem (ctx : QueryContext) (db : string) :
  let db_ := if decide (db = "") then defaultDb ctx else db in
  (if decide (db_ = "") then defaultDb ctx else db_) = db_.
Proof.
  cbv zeta. destruct (decide (db = "")) as [->|N].
  - by destruct (decide (defaultDb ctx = "")).
  - by rewrite decide_False.
Qed.

(** A recursive call for a table that is pooled returns it. *)
Lemma get_pooled (fuel : nat) (ctx : QueryContext) (db_ tbl : string)
    (pool : Pool) (x : TableInfo) :
  (if decide (db_ = "") then defaultDb ctx else db_) = db_ →
  get_const pool db_ tbl = Some x →
  get (S fuel) ctx db_ tbl pool = Some (Returned (Some x), pool).
Proof. intros Hidem Hx. cbn [get]. by rewrite Hidem, Hx. Qed.

(** C7, as stated, fails: the match table [RefMatch] relates [Object],
    pooled with partitioning id 17, to [Source], which resolves with
    partitioning id 18. The call throws, and the pool has grown by the
    descriptor of [Source]. *)
Lemma C7_counterexample :
  get 2 (lsstCtx 18) "LSST" "RefMatch" [Dir (objectInfo 17)] =
  Some (Thrown {| what := "Match table LSST.RefMatch relates two director" +:+
                          " tables with different partitionings!" |},
        [Dir (objectInfo 17); Dir (sourceInfo 18)])
  ∧ [Dir (objectInfo 17); Dir (sourceInfo 18)] ≠ [Dir (objectInfo 17)]
  ∧ length [Dir (objectInfo 17); Dir (sourceInfo 18)]
    ≠ length [Dir (objectInfo 17)].
Proof. split; [reflexivity|]. split; discriminate. Qed.

(** C7, amended. When [get] throws, the pool keeps all it held, in
    order, and the call has inserted nothing of its own (the descriptor
    that it was building is dropped): the pool it leaves is exactly the
    pool left by the recursive resolutions that it made of the director
    tables that the failing table refers to, so that what those pooled
    stays pooled. A match table resolves its first director on the pool
    as it was and its second on the pool that the first left; a child
    table resolves its director on the pool as it was. Where the call
    resolves no table before it throws (a director table, or a child
    table of a chunk level other than 1), and where the directors
    referred to are pooled already, the pool is as it was. *)
Theorem C7_thrown_pool (fuel : nat) (ctx : QueryContext) (db tbl : string)
    (pool pool' : Pool) (e : InvalidTableError) :
  let db_ := if decide (db = "") then defaultDb ctx else db in
  let tParam := getTableParams (css ctx) db_ tbl in
  let m := match_ tParam in
  let partParam := partitioning tParam in
  get (S fuel) ctx db tbl pool = Some (Thrown e, pool') →
  sublist pool pool'
  ∧ (isMatchTable m = true →
     get fuel ctx db_ (dirTable1 m) pool = Some (Thrown e, pool')
     ∨ ∃ r1 pool1,
         get fuel ctx db_ (dirTable1 m) pool = Some (Returned r1, pool1)
         ∧ (get fuel ctx db_ (dirTable2 m) pool1 = Some (Thrown e, pool')
            ∨ ∃ r2, get fuel ctx db_ (dirTable2 m) pool1
                    = Some (Returned r2, pool')))
  ∧ (isMatchTable m = false →
     (dirTable partParam = "" ∨ dirTable partParam = tbl
      ∨ chunkLevel partParam ≠ 1 →
      pool' = pool)
     ∧ (dirTable partParam ≠ "" →
        dirTable partParam ≠ tbl →
        chunkLevel partParam = 1 →
        get fuel ctx db_ (dirTable partParam) pool = Some (Thrown e, pool')
        ∨ ∃ r, get fuel ctx db_ (dirTable partParam) pool
               = Some (Returned r, pool')))
  ∧ ((if isMatchTable m
      then is_Some (get_const pool db_ (dirTable1 m))
           ∧ is_Some (get_const pool db_ (dirTable2 m))
      else is_Some (get_const pool db_ (dirTable partParam))) →
     pool' = pool).
Proof.
  intros db_ tParam m partParam H.
  split; [by eapply get_sublist|].
  pose proof (resolved_db_idem ctx db) as Hidem.
  cbv zeta in Hidem. fold db_ in Hidem.
  cbn [get] in H. unfold bind, ret, throw in H.
  fold db_ in H. fold tParam in H. fold m in H. fold partParam in H.
  destruct (get_const pool db_ tbl); [done|].
  destruct (decide (chunkLevel partParam = 0)); [done|].
  destruct (isMatchTable m) eqn:Em.
  - split; [intros _|split; [done|]].
    + destruct (get fuel ctx db_ (dirTable1 m) pool)
        as [[[r1|e1] pool1]|] eqn:H1; [| |done].
      * right. exists r1, pool1. split; [done|].
        destruct (get fuel ctx db_ (dirTable2 m) pool1)
          as [[[r2|e2] pool2]|] eqn:H2; [| |done].
        -- right. exists r2. repeat case_match; by simplify_eq.
        -- left. by simplify_eq.
      * left. by simplify_eq.
    + intros [[x1 Hx1] [x2 Hx2]]. destruct fuel as [|fuel]; [done|].
      rewrite (get_pooled fuel ctx db_ (dirTable1 m) pool x1 Hidem Hx1) in H.
      rewrite (get_pooled fuel ctx db_ (dirTable2 m) pool x2 Hidem Hx2) in H.
      repeat case_match; by simplify_eq.
  - destruct (bool_decide (dirTable partParam = "")
              || bool_decide (dirTable partParam = tbl)) eqn:Ed.
    + assert (pool' = pool) as -> by (repeat case_match; by simplify_eq).
      split; [done|]. split; [|done]. split; [done|].
      apply orb_true_iff in Ed as [Ed|Ed]; apply bool_decide_eq_true in Ed;
        intros; done.
    + apply orb_false_elim in Ed as [E1 E2].
      apply bool_decide_eq_false in E1, E2.
      split; [done|].
      destruct (decide (chunkLevel partParam ≠ 1)) as [Hlevel|Hlevel].
      { assert (pool' = pool) as -> by by simplify_eq.
        split; [|done]. intros _. split; [done|]. intros; done. }
      apply dec_stable in Hlevel.
      split; [intros _; split|].
      * intros [?|[?|?]]; done.
      * intros _ _ _.
        destruct (get fuel ctx db_ (dirTable partParam) pool)
          as [[[r|e1] pool1]|] eqn:H1; [| |done].
        -- right. exists r. repeat case_match; by simplify_eq.
        -- left. by simplify_eq.
      * intros [x Hx]. destruct fuel as [|fuel]; [done|].
        rewrite (get_pooled fuel ctx db_ (dirTable partParam) pool x Hidem Hx)
          in H.
        repeat case_match; by simplify_eq.
Qed.

Lemma C7_thrown_pool_witness :
  let e :=
    {| what := "Match table LSST.RefMatch relates two director" +:+
               " tables with different partitionings!" |} in
  let m := match_ (getTableParams (css (lsstCtx 18)) "LSST" "RefMatch") in
  let pool := [Dir (objectInfo 17)] in
  let pool' := [Dir (objectInfo 17); Dir (sourceInfo 18)] in
  sublist pool pool'
  ∧ (isMatchTable m = true →
     get 1 (lsstCtx 18) "LSST" "Object" pool = Some (Thrown e, pool')
     ∨ ∃ r1 pool1,
         get 1 (lsstCtx 18) "LSST" "Object" pool = Some (Returned r1, pool1)
         ∧ (get 1 (lsstCtx 18) "LSST" "Source" pool1 = Some (Thrown e, pool')
            ∨ ∃ r2, get 1 (lsstCtx 18) "LSST" "Source" pool1
                    = Some (Returned r2, pool'))).
Proof.
  intros e m pool pool'.
  pose proof (C7_thrown_pool 1 (lsstCtx 18) "LSST" "RefMatch" pool pool' e
                eq_refl)
    as (Hsub & Hmatch & _).
  split; [exact Hsub|exact Hmatch].
Defined.

(** With both directors pooled, under different partitioning ids, the
    same call throws and leaves the pool as it was. *)
Example get_RefMatch_pooled :
  get 2 (lsstCtx 18) "LSST" "RefMatch"
    [Dir (objectInfo 17); Dir (sourceInfo 18)]
  = Some (Thrown {| what := "Match table LSST.RefMatch relates two" +:+
                            " director tables with different" +:+
                            " partitionings!" |},
          [Dir (objectInfo 17); Dir (sourceInfo 18)]).
Proof. reflexivity. Qed.


(** The empty database name stands for the default database everywhere
    but in the query for the partitioning columns of a director table,
    which is made with the database name as it was passed: the two
    resolutions agree as soon as the store answers that one query alike. *)
Lemma get_empty_db_agrees (fuel : nat) (ctx : QueryContext) (tbl : string)
    (pool : Pool) :
  defaultDb ctx ≠ "" →
  partitionCols (getPartTableParams (css ctx) "" tbl)
  = partitionCols (getPartTableParams (css ctx) (defaultDb ctx) tbl) →
  get fuel ctx "" tbl pool = get fuel ctx (defaultDb ctx) tbl pool.
Proof.
  intros Hne Hcols. destruct fuel as [|fuel]; [done|].
  cbn [get].
  rewrite (decide_True (P := "" = "")) by done.
  rewrite (decide_False (P := defaultDb ctx = "")) by done.
  by rewrite Hcols.
Qed.

(** C8. With the default database [LSST], the director table [Object]
    resolves when it is asked for in database [LSST], and is rejected
    when it is asked for with the empty database name: the partitioning
    columns are then looked up in the store under the empty name. *)
Lemma C8_empty_db_diverges :
  get 1 (lsstCtx 17) "LSST" "Object" [] =
    Some (Returned (Some (Dir (objectInfo 17))), [Dir (objectInfo 17)])
  ∧ get 1 (lsstCtx 17) "" "Object" [] =
    Some (Thrown {| what := "Director table LSST.Object metadata does not" +:+
                            " contain non-empty and distinct director," +:+
                            " longitude and latitude column names." |},
          []).
Proof. split; reflexivity. Qed.

Lemma equal_range_kind (pool : Pool) (db tbl : string) (k : Kind) :
  equal_range pool (Plain db tbl k) = equal_range pool (Plain db tbl DIRECTOR).
Proof.
  unfold equal_range. induction pool as [|e rest IH]; [done|].
  injection IH as IHl IHu. simpl.
  rewrite (TableInfoLt_key e e (Plain db tbl k) (Plain db tbl DIRECTOR))
    by done.
  rewrite (TableInfoLt_key (Plain db tbl k) (Plain db tbl DIRECTOR) e e)
    by done.
  by rewrite IHl, IHu.
Qed.

(** C9. On a sorted pool, the lookup [get(db, table)] finds a descriptor
    exactly when the pool holds one with that database and table name,
    whatever its kind; the descriptor returned is an element of the
    pool, the first one with that key, and the kind given to the probe
    plays no part in the search. *)
Theorem C9_pool_lookup (pool : Pool) (db tbl : string) :
  pool_sorted pool →
  (is_Some (get_const pool db tbl)
   ↔ ∃ t, t ∈ pool ∧ database t = db ∧ table t = tbl)
  ∧ (∀ t, get_const pool db tbl = Some t →
       ∃ i, pool !! i = Some t ∧ database t = db ∧ table t = tbl
            ∧ ∀ j e, (j < i)%nat → pool !! j = Some e →
                     ¬ (database e = db ∧ table e = tbl))
  ∧ (∀ k, equal_range pool (Plain db tbl k)
          = equal_range pool (Plain db tbl DIRECTOR)).
Proof.
  intros Hs. split; [split|split].
  - intros [t H]. destruct (get_const_sound _ _ _ _ H) as (i & Hi & Hk & _).
    exists t. injection Hk as Hd Ht.
    split; [by eapply list_elem_of_lookup_2|done].
  - intros (t & Hin & Hd & Ht).
    eapply get_const_complete; [done|done|]. unfold key. by rewrite Hd, Ht.
  - intros t H. destruct (get_const_sound _ _ _ _ H) as (i & Hi & Hk & Hfirst).
    exists i. injection Hk as Hd Ht. split; [done|]. split; [done|].
    split; [done|]. intros j e Hj He [Hde Hte].
    apply (Hfirst j e Hj He). unfold key. by rewrite Hde, Hte.
  - intros k. apply equal_range_kind.
Qed.

Lemma C9_pool_lookup_witness :
  let pool := [Dir (objectInfo 17); Match (refMatchInfo 17);
               Dir (sourceInfo 17)] in
  (is_Some (get_const pool "LSST" "RefMatch")
   ↔ ∃ t, t ∈ pool ∧ database t = "LSST" ∧ table t = "RefMatch")
  ∧ (∀ t, get_const pool "LSST" "RefMatch" = Some t →
       ∃ i, pool !! i = Some t ∧ database t = "LSST" ∧ table t = "RefMatch"
            ∧ ∀ j e, (j < i)%nat → pool !! j = Some e →
                     ¬ (database e = "LSST" ∧ table e = "RefMatch"))
  ∧ (∀ k, equal_range pool (Plain "LSST" "RefMatch" k)
          = equal_range pool (Plain "LSST" "RefMatch" DIRECTOR)).
Proof.
  apply (C9_pool_lookup
           [Dir (objectInfo 17); Match (refMatchInfo 17); Dir (sourceInfo 17)]
           "LSST" "RefMatch").
  unfold pool_sorted. repeat constructor.
Defined.

Example get_const_RefMatch :
  get_const [Dir (objectInfo 17); Match (refMatchInfo 17); Dir (sourceInfo 17)]
    "LSST" "RefMatch" = Some (Match (refMatchInfo 17)).
Proof. reflexivity. Qed.

(** *** Further properties of the pool *)

(** X1. [_insert] ignores a null pointer; on a sorted pool it adds the
    descriptor, and nothing else, at a place that keeps the pool sorted
    and keeps the descriptors that were there in their order. *)
Theorem insert_sorted_grows (pool : Pool) (t : TableInfo) :
  pool_sorted pool →
  _insert pool None = pool
  ∧ pool_sorted (_insert pool (Some t))
  ∧ length (_insert pool (Some t)) = S (length pool)
  ∧ sublist pool (_insert pool (Some t))
  ∧ ∀ x, x ∈ _insert pool (Some t) ↔ x = t ∨ x ∈ pool.
Proof.
  intros Hs. split; [done|].
  split; [by apply pool_sorted__insert|].
  split; [apply length__insert|].
  split; [apply sublist__insert|]. intros x. apply elem_of__insert.
Qed.

Lemma insert_sorted_grows_witness :
  let pool := [Dir (objectInfo 17); Dir (sourceInfo 17)] in
  let t := Match (refMatchInfo 17) in
  _insert pool None = pool
  ∧ pool_sorted (_insert pool (Some t))
  ∧ length (_insert pool (Some t)) = S (length pool)
  ∧ sublist pool (_insert pool (Some t))
  ∧ ∀ x, x ∈ _insert pool (Some t) ↔ x = t ∨ x ∈ pool.
Proof.
  apply (insert_sorted_grows [Dir (objectInfo 17); Dir (sourceInfo 17)]
           (Match (refMatchInfo 17))).
  unfold pool_sorted. repeat constructor.
Defined.

Lemma TableInfoLt_key_cases (t p : TableInfo) :
  (TableInfoLt t p = true ∧ key t ≠ key p)
  ∨ (TableInfoLt p t = true ∧ key t ≠ key p)
  ∨ (TableInfoLt t p = false ∧ TableInfoLt p t = false ∧ key t = key p).
Proof.
  destruct (TableInfoLt t p) eqn:E1.
  - left. split; [done|]. intros Hk.
    by rewrite (TableInfoLt_same_key _ _ Hk) in E1.
  - destruct (TableInfoLt p t) eqn:E2.
    + right; left. split; [done|]. intros Hk.
      by rewrite (TableInfoLt_same_key _ _ (eq_sym Hk)) in E2.
    + right; right. split; [done|]. split; [done|].
      by apply TableInfoLt_equiv.
Qed.

(** X2. Insertion and lookup: after [_insert] of [t] into a sorted pool,
    a lookup that found a descriptor before finds the same one, a lookup
    for the key of [t] that found none finds [t] itself, and any other
    lookup still finds none. A descriptor pooled earlier under the same
    key thus hides the new one. (That the pool is sorted is what
    [std::upper_bound] and [std::equal_range] ask of their range.) *)
Theorem insert_then_lookup (pool : Pool) (t : TableInfo) (db tbl : string) :
  pool_sorted pool →
  get_const (_insert pool (Some t)) db tbl =
  match get_const pool db tbl with
  | Some x => Some x
  | None => if decide (key t = (db, tbl)) then Some t else None
  end.
Proof.
  intros _. set (p := Plain db tbl DIRECTOR).
  assert (∀ x, key x = (db, tbl) ↔ key x = key p) as Hp by done.
  induction pool as [|e rest IH].
  - rewrite _insert_nil, get_const_cons, get_const_nil. fold p.
    destruct (TableInfoLt_key_cases t p)
      as [[-> N]|[[E N]|(-> & -> & K)]].
    + by rewrite decide_False by (by rewrite Hp).
    + rewrite (TableInfoLt_asym _ _ E), E.
      by rewrite decide_False by (by rewrite Hp).
    + by rewrite decide_True by (by rewrite Hp).
  - rewrite _insert_cons. destruct (TableInfoLt t e) eqn:Ete.
    + rewrite (get_const_cons t). fold p.
      destruct (TableInfoLt_key_cases t p)
        as [[-> N]|[[E N]|(-> & -> & K)]].
      * destruct (get_const (e :: rest) db tbl); [done|].
        by rewrite decide_False by (by rewrite Hp).
      * rewrite (TableInfoLt_asym _ _ E), E.
        rewrite get_const_cons. fold p.
        pose proof (TableInfoLt_trans _ _ _ E Ete) as Epe.
        rewrite (TableInfoLt_asym _ _ Epe), Epe.
        by rewrite decide_False by (by rewrite Hp).
      * rewrite get_const_cons. fold p.
        rewrite (TableInfoLt_key p t e e (eq_sym K) eq_refl), Ete.
        rewrite (TableInfoLt_key e e p t eq_refl (eq_sym K)).
        rewrite (TableInfoLt_asym _ _ Ete).
        by rewrite decide_True by (by rewrite Hp).
    + rewrite !(get_const_cons e). fold p.
      destruct (TableInfoLt e p) eqn:Eep; [exact IH|].
      destruct (TableInfoLt p e) eqn:Epe; [|done].
      rewrite decide_False; [done|]. rewrite Hp. intros K.
      rewrite (TableInfoLt_key t p e e K eq_refl) in Ete. congruence.
Qed.

Lemma insert_then_lookup_witness :
  get_const
    (_insert [Dir (objectInfo 17); Dir (sourceInfo 17)]
       (Some (Match (refMatchInfo 17)))) "LSST" "RefMatch" =
  match get_const [Dir (objectInfo 17); Dir (sourceInfo 17)]
          "LSST" "RefMatch" with
  | Some x => Some x
  | None =>
      if decide (key (Match (refMatchInfo 17)) = ("LSST", "RefMatch"))
      then Some (Match (refMatchInfo 17)) else None
  end.
Proof.
  apply (insert_then_lookup [Dir (objectInfo 17); Dir (sourceInfo 17)]
           (Match (refMatchInfo 17)) "LSST" "RefMatch").
  unfold pool_sorted. repeat constructor.
Defined.

(** The names of the descriptor that [get] returns. *)
Lemma get_returned_names (fuel : nat) (ctx : QueryContext) (db tbl : string)
    (pool pool' : Pool) (t : TableInfo) :
  get fuel ctx db tbl pool = Some (Returned (Some t), pool') →
  database t = (if decide (db = "") then defaultDb ctx else db)
  ∧ table t = tbl.
Proof.
  intros H. split;
    (destruct fuel as [|fuel]; [done|]);
    cbn [get] in H; unfold bind, ret, throw in H;
    set (db_ := if decide (_ = "") then _ else _) in *;
    (destruct (get_const pool db_ tbl) as [x|] eqn:Hhit;
     [ injection H as -> ->;
       destruct (get_const_sound _ _ _ _ Hhit) as (_ & _ & [= Hd Ht] & _);
       done
     | clearbody db_; repeat (case_match; simplify_eq/=; try done) ]).
Qed.

(** X3. The descriptor that [get] returns is pooled and is the one of
    the table that was asked for: its database is the database given,
    or the default database of the context when none was given, and its
    table is the table given. *)
Theorem get_returned_key (fuel : nat) (ctx : QueryContext) (db tbl : string)
    (pool pool' : Pool) (t : TableInfo) :
  get fuel ctx db tbl pool = Some (Returned (Some t), pool') →
  database t = (if decide (db = "") then defaultDb ctx else db)
  ∧ table t = tbl
  ∧ t ∈ pool'.
Proof.
  intros H. destruct (get_returned_names _ _ _ _ _ _ _ H) as [Hd Ht].
  split; [exact Hd|]. split; [exact Ht|].
  by eapply get_returned_elem_of.
Qed.

Lemma get_returned_key_witness :
  database (Match (refMatchInfo 17))
  = (if decide ("" = "") then defaultDb (lsstCtx 17) else "")
  ∧ table (Match (refMatchInfo 17)) = "RefMatch"
  ∧ Match (refMatchInfo 17)
    ∈ [Dir (objectInfo 17); Match (refMatchInfo 17); Dir (sourceInfo 17)].
Proof.
  apply (get_returned_key 2 (lsstCtx 17) "" "RefMatch" []). reflexivity.
Defined.

(** X4. Whatever [get] does, return a descriptor, return null or throw,
    it leaves a sorted pool sorted, and the pool it leaves holds every
    descriptor that was pooled before, in the same order. *)
Theorem get_keeps_sorted (fuel : nat) (ctx : QueryContext) (db tbl : string)
    (pool pool' : Pool) (o : Outcome (option TableInfo)) :
  pool_sorted pool →
  get fuel ctx db tbl pool = Some (o, pool') →
  pool_sorted pool' ∧ sublist pool pool'.
Proof.
  intros Hs H. split; [by eapply get_pool_sorted|by eapply get_sublist].
Qed.

Lemma get_keeps_sorted_witness :
  pool_sorted [Dir (objectInfo 17); Dir (sourceInfo 18)]
  ∧ sublist [Dir (objectInfo 17)] [Dir (objectInfo 17); Dir (sourceInfo 18)].
Proof.
  apply (get_keeps_sorted 2 (lsstCtx 18) "LSST" "RefMatch"
           [Dir (objectInfo 17)] _
           (Thrown {| what := "Match table LSST.RefMatch relates two director"
                              +:+ " tables with different partitionings!" |})).
  - unfold pool_sorted. repeat constructor.
  - reflexivity.
Defined.

(** X5. Once [get] has returned a descriptor for a table, asking again
    is answered from the pool: whatever the configuration store of the
    later context says, the call returns a pooled descriptor of the same
    database and table and leaves the pool as it is. *)
Theorem get_again_hits_pool (fuel fuel' : nat) (ctx ctx' : QueryContext)
    (db tbl : string) (pool pool' : Pool) (t : TableInfo) :
  pool_sorted pool →
  defaultDb ctx' = defaultDb ctx →
  get fuel ctx db tbl pool = Some (Returned (Some t), pool') →
  ∃ t', get (S fuel') ctx' db tbl pool' = Some (Returned (Some t'), pool')
        ∧ database t' = database t ∧ table t' = table t ∧ t' ∈ pool'.
Proof.
  intros Hs Hdb H.
  destruct (get_returned_names _ _ _ _ _ _ _ H) as (Hd & Ht).
  pose proof (get_returned_elem_of _ _ _ _ _ _ _ H) as Hin.
  pose proof (get_pool_sorted _ _ _ _ _ _ _ Hs H) as Hs'.
  destruct (get_const_complete pool' (database t) (table t) t Hs' Hin eq_refl)
    as [t' Hhit].
  exists t'. cbn [get]. rewrite Hdb, <- Hd, Ht.
  rewrite Ht in Hhit. rewrite Hhit.
  destruct (get_const_sound _ _ _ _ Hhit) as (_ & _ & [= Hd' Ht'] & _).
  split; [done|]. split; [done|]. split; [congruence|].
  by eapply get_const_elem_of.
Qed.

Lemma get_again_hits_pool_witness :
  ∃ t', get 1 (lsstCtx 18) "" "RefMatch"
          [Dir (objectInfo 17); Match (refMatchInfo 17); Dir (sourceInfo 17)]
        = Some (Returned (Some t'),
                [Dir (objectInfo 17); Match (refMatchInfo 17);
                 Dir (sourceInfo 17)])
        ∧ database t' = database (Match (refMatchInfo 17))
        ∧ table t' = table (Match (refMatchInfo 17))
        ∧ t' ∈ [Dir (objectInfo 17); Match (refMatchInfo 17);
                Dir (sourceInfo 17)].
Proof.
  apply (get_again_hits_pool 2 0 (lsstCtx 17) (lsstCtx 18) "" "RefMatch" []).
  - unfold pool_sorted. constructor.
  - reflexivity.
  - reflexivity.
Defined.

(** X6. A table that is not pooled, is partitioned, is no match table
    and names no other table as its director is resolved as a director
    table, without any recursion: when its chunk level is 2 and the
    store lists three non-empty, pairwise distinct partitioning columns
    [lon, lat, pk], [get] returns and pools the descriptor made of them
    and of the partitioning id of the database; otherwise it throws and
    the pool stays as it is. The columns are the ones the store lists
    for the database name as it was passed. *)
Theorem get_director (fuel : nat) (ctx : QueryContext) (db tbl : string)
    (pool : Pool) :
  let db_ := if decide (db = "") then defaultDb ctx else db in
  let tParam := getTableParams (css ctx) db_ tbl in
  let partParam := partitioning tParam in
  let v := partitionCols (getPartTableParams (css ctx) db tbl) in
  get_const pool db_ tbl = None →
  chunkLevel partParam ≠ 0 →
  isMatchTable (match_ tParam) = false →
  dirTable partParam = "" ∨ dirTable partParam = tbl →
  (chunkLevel partParam = 2
   ∧ director_cols_ok v
   ∧ ∃ v0 v1 v2,
       v = [v0; v1; v2]
       ∧ let d := {| dir_database := db_; dir_table := tbl;
                     pk := v2; lon := v0; lat := v1;
                     partitioningId :=
                       stripingPartitioningId (getDbStriping (css ctx) db_) |} in
         get (S fuel) ctx db tbl pool
         = Some (Returned (Some (Dir d)), _insert pool (Some (Dir d))))
  ∨ ((chunkLevel partParam ≠ 2 ∨ ¬ director_cols_ok v)
     ∧ ∃ e, get (S fuel) ctx db tbl pool = Some (Thrown e, pool)).
Proof.
  intros db_ tParam partParam v Hmiss Hlevel Hmatch Hdir.
  cbn [get]. fold db_. rewrite Hmiss. fold tParam. fold partParam.
  rewrite decide_False by done. rewrite Hmatch.
  assert (bool_decide (dirTable partParam = "")
          || bool_decide (dirTable partParam = tbl) = true) as ->.
  { apply orb_true_iff. rewrite !bool_decide_eq_true. done. }
  unfold throw, ret.
  destruct (decide (chunkLevel partParam ≠ 2)) as [N|E].
  { right. split; [by left|by eexists]. }
  apply dec_stable in E. fold v.
  destruct v as [|v0 [|v1 [|v2 [|v3 rest]]]] eqn:Ev;
    try (right; split; [right; by intros (?&?&?&?&?)|by eexists]).
  destruct (bool_decide (v0 = "")) eqn:B0; simpl.
  { apply bool_decide_eq_true in B0. right.
    split; [right; intros (?&?&?&?&?&?&?&?&?&?); by simplify_eq|by eexists]. }
  destruct (bool_decide (v1 = "")) eqn:B1; simpl.
  { apply bool_decide_eq_true in B1. right.
    split; [right; intros (?&?&?&?&?&?&?&?&?&?); by simplify_eq|by eexists]. }
  destruct (bool_decide (v2 = "")) eqn:B2; simpl.
  { apply bool_decide_eq_true in B2. right.
    split; [right; intros (?&?&?&?&?&?&?&?&?&?); by simplify_eq|by eexists]. }
  destruct (bool_decide (v0 = v1)) eqn:B3; simpl.
  { apply bool_decide_eq_true in B3. right.
    split; [right; intros (?&?&?&?&?&?&?&?&?&?); by simplify_eq|by eexists]. }
  destruct (bool_decide (v1 = v2)) eqn:B4; simpl.
  { apply bool_decide_eq_true in B4. right.
    split; [right; intros (?&?&?&?&?&?&?&?&?&?); by simplify_eq|by eexists]. }
  destruct (bool_decide (v0 = v2)) eqn:B5; simpl.
  { apply bool_decide_eq_true in B5. right.
    split; [right; intros (?&?&?&?&?&?&?&?&?&?); by simplify_eq|by eexists]. }
  apply bool_decide_eq_false in B0, B1, B2, B3, B4, B5.
  left. split; [done|]. split; [by exists v0, v1, v2|].
  by exists v0, v1, v2.
Qed.

Lemma get_director_witness :
  (2 = 2
   ∧ director_cols_ok ["ra"; "decl"; "objectId"]
   ∧ ∃ v0 v1 v2,
       ["ra"; "decl"; "objectId"] = [v0; v1; v2]
       ∧ let d := {| dir_database := "LSST"; dir_table := "Object";
                     pk := v2; lon := v0; lat := v1;
                     partitioningId := 17 |} in
         get 1 (lsstCtx 17) "LSST" "Object" []
         = Some (Returned (Some (Dir d)), _insert [] (Some (Dir d))))
  ∨ ((2 ≠ 2 ∨ ¬ director_cols_ok ["ra"; "decl"; "objectId"])
     ∧ ∃ e, get 1 (lsstCtx 17) "LSST" "Object" [] = Some (Thrown e, [])).
Proof.
  apply (get_director 0 (lsstCtx 17) "LSST" "Object" []).
  - reflexivity.
  - vm_compute. discriminate.
  - reflexivity.
  - left. reflexivity.
Defined.

(** X7. A table that is not pooled, is partitioned, is no match table
    and names another table as its director is resolved as a child
    table. A chunk level other than 1 makes [get] throw before anything
    is resolved. Otherwise the director table is resolved first, and
    once that call has returned, [get] returns and pools a child
    descriptor that refers to the director and carries the director
    column name, provided the director table resolved to a director
    descriptor and the column name is not empty; if not, it throws, and
    the pool is the one that the resolution of the director left. *)
Theorem get_child (fuel : nat) (ctx : QueryContext) (db tbl : string)
    (pool : Pool) :
  let db_ := if decide (db = "") then defaultDb ctx else db in
  let tParam := getTableParams (css ctx) db_ tbl in
  let partParam := partitioning tParam in
  get_const pool db_ tbl = None →
  chunkLevel partParam ≠ 0 →
  isMatchTable (match_ tParam) = false →
  dirTable partParam ≠ "" →
  dirTable partParam ≠ tbl →
  (chunkLevel partParam ≠ 1 →
   ∃ e, get (S fuel) ctx db tbl pool = Some (Thrown e, pool))
  ∧ (chunkLevel partParam = 1 →
     ∀ r pool1,
       get fuel ctx db_ (dirTable partParam) pool
       = Some (Returned r, pool1) →
       (∃ d, r = Some (Dir d)
             ∧ dirColName partParam ≠ ""
             ∧ let c := {| child_database := db_; child_table := tbl;
                           child_director := Some d;
                           child_fk := dirColName partParam |} in
               get (S fuel) ctx db tbl pool
               = Some (Returned (Some (Child c)),
                       _insert pool1 (Some (Child c))))
       ∨ ((dynamic_cast_Dir r = None ∨ dirColName partParam = "")
          ∧ ∃ e, get (S fuel) ctx db tbl pool = Some (Thrown e, pool1))).
Proof.
  intros db_ tParam partParam Hmiss Hlevel Hmatch Hdir1 Hdir2.
  cbn [get]. fold db_. rewrite Hmiss. fold tParam. fold partParam.
  rewrite decide_False by done. rewrite Hmatch.
  assert (bool_decide (dirTable partParam = "")
          || bool_decide (dirTable partParam = tbl) = false) as ->.
  { apply orb_false_iff. rewrite !bool_decide_eq_false. done. }
  unfold throw, ret. split.
  - intros N. rewrite decide_True by done. by eexists.
  - intros E r pool1 H1. rewrite decide_False by (by intros ?).
    rewrite H1. cbn [bind].
    destruct (dynamic_cast_Dir r) as [d|] eqn:Ed.
    + apply dynamic_cast_Dir_Some in Ed. subst r.
      destruct (decide (dirColName partParam = "")) as [Ec|Nc].
      * right. split; [by right|by eexists].
      * left. by exists d.
    + right. split; [by left|by eexists].
Qed.

Lemma get_child_witness :
  (1 ≠ 1 →
   ∃ e, get 2 (lsstChildCtx 17) "LSST" "ForcedSource" []
        = Some (Thrown e, []))
  ∧ (1 = 1 →
     ∀ r pool1,
       get 1 (lsstChildCtx 17) "LSST" "Object" [] = Some (Returned r, pool1) →
       (∃ d, r = Some (Dir d)
             ∧ "objectId" ≠ ""
             ∧ let c := {| child_database := "LSST";
                           child_table := "ForcedSource";
                           child_director := Some d;
                           child_fk := "objectId" |} in
               get 2 (lsstChildCtx 17) "LSST" "ForcedSource" []
               = Some (Returned (Some (Child c)),
                       _insert pool1 (Some (Child c))))
       ∨ ((dynamic_cast_Dir r = None ∨ "objectId" = "")
          ∧ ∃ e, get 2 (lsstChildCtx 17) "LSST" "ForcedSource" []
                 = Some (Thrown e, pool1))).
Proof.
  apply (get_child 1 (lsstChildCtx 17) "LSST" "ForcedSource" []).
  - reflexivity.
  - vm_compute. discriminate.
  - reflexivity.
  - vm_compute. discriminate.
  - vm_compute. discriminate.
Defined.

Example get_ForcedSource :
  get 2 (lsstChildCtx 17) "" "ForcedSource" [] =
  Some (Returned (Some (Child (forcedSourceInfo 17))),
        [Child (forcedSourceInfo 17); Dir (objectInfo 17)]).
Proof. reflexivity. Qed.

(** *** Every pooled descriptor is well formed *)

Lemma descriptor_ok_sublist (pool pool' : Pool) (t : TableInfo) :
  sublist pool pool' → descriptor_ok pool t → descriptor_ok pool' t.
Proof.
  intros Hsub. destruct t as [| d | c | m]; simpl; [done|done| |].
  - intros (d & ? & ? & ?). exists d. split; [done|].
    split; [by eapply sublist_elem_of|done].
  - intros [Hm Hdb]. split; [by eapply match_ok_sublist|done].
Qed.

Lemma pool_ok__insert (pool : Pool) (t : TableInfo) :
  descriptor_ok pool t → pool_ok pool → pool_ok (_insert pool (Some t)).
Proof.
  intros Ht Hp x Hin.
  eapply descriptor_ok_sublist; [apply sublist__insert|].
  apply elem_of__insert in Hin as [->|Hin]; [done|by apply Hp].
Qed.

Lemma get_pool_ok (fuel : nat) :
  ∀ ctx db tbl pool o pool',
    pool_ok pool →
    get fuel ctx db tbl pool = Some (o, pool') → pool_ok pool'.
Proof.
  induction fuel as [|fuel IH]; intros ctx db tbl pool o pool' Hp H; [done|].
  pose proof (resolved_db_idem ctx db) as Hidem. cbv zeta in Hidem.
  cbn [get] in H. unfold bind, ret, throw in H.
  set (db_ := if decide (db = "") then defaultDb ctx else db) in *.
  clearbody db_.
  destruct (get_const pool db_ tbl); [by simplify_eq|].
  destruct (decide (_ = 0)); [by simplify_eq|].
  destruct (isMatchTable _) eqn:Em.
  - destruct (get fuel ctx db_ _ pool) as [[[r1|e1] pool1]|] eqn:H1;
      [| |done].
    2: { simplify_eq. by eapply IH. }
    pose proof (IH _ _ _ _ _ _ Hp H1) as Hp1.
    destruct (get fuel ctx db_ _ pool1) as [[[r2|e2] pool2]|] eqn:H2;
      [| |done].
    2: { simplify_eq. by eapply IH. }
    pose proof (IH _ _ _ _ _ _ Hp1 H2) as Hp2.
    destruct (dynamic_cast_Dir r1) as [d1|] eqn:E1; [|by simplify_eq].
    destruct (dynamic_cast_Dir r2) as [d2|] eqn:E2; [|by simplify_eq].
    apply dynamic_cast_Dir_Some in E1, E2. subst r1 r2.
    destruct (_ || _) eqn:Ecols; [by simplify_eq|].
    destruct (decide (_ ≠ _)) as [N|E]; [by simplify_eq|].
    apply dec_stable in E. simplify_eq.
    apply orb_false_elim in Ecols as [Ecols B3].
    apply orb_false_elim in Ecols as [B1 B2].
    apply bool_decide_eq_false in B1, B2, B3.
    apply pool_ok__insert; [|done].
    destruct (get_returned_names _ _ _ _ _ _ _ H1) as (Hd1 & _).
    pose proof (get_returned_elem_of _ _ _ _ _ _ _ H1) as Hin1.
    destruct (get_returned_names _ _ _ _ _ _ _ H2) as (Hd2 & _).
    pose proof (get_returned_elem_of _ _ _ _ _ _ _ H2) as Hin2.
    rewrite Hidem in Hd1, Hd2. simpl in Hd1, Hd2.
    pose proof (get_sublist _ _ _ _ _ _ _ H2) as Hsub.
    split.
    + exists d1, d2. simpl. split; [done|].
      split; [by eapply sublist_elem_of|]. done.
    + simpl. intros x1 x2 [= <- <-]. done.
  - destruct (_ || _) eqn:Edir.
    + destruct (decide (_ ≠ 2)); [by simplify_eq|]. cbv zeta in H.
      destruct (partitionCols _) as [|v0 [|v1 [|v2 [|v3 rest]]]];
        try (by simplify_eq).
      destruct (_ || bool_decide (v0 = v2)) eqn:Ecols; [by simplify_eq|].
      simplify_eq.
      repeat match goal with
             | K : _ || _ = false |- _ => apply orb_false_elim in K as [K ?]
             end.
      repeat match goal with
             | K : bool_decide _ = false |- _ =>
                 apply bool_decide_eq_false in K
             end.
      apply pool_ok__insert; [|done]. simpl. unfold dir_ok. simpl. done.
    + destruct (decide (_ ≠ 1)); [by simplify_eq|].
      destruct (get fuel ctx db_ _ pool) as [[[r|e1] pool1]|] eqn:H1;
        [| |done].
      2: { simplify_eq. by eapply IH. }
      pose proof (IH _ _ _ _ _ _ Hp H1) as Hp1.
      destruct (dynamic_cast_Dir r) as [d|] eqn:Ed; [|by simplify_eq].
      apply dynamic_cast_Dir_Some in Ed. subst r.
      destruct (decide (_ = "")); [by simplify_eq|]. simplify_eq.
      apply pool_ok__insert; [|done].
      destruct (get_returned_names _ _ _ _ _ _ _ H1) as (Hd1 & _).
      pose proof (get_returned_elem_of _ _ _ _ _ _ _ H1) as Hin1.
      rewrite Hidem in Hd1. simpl in Hd1.
      exists d. simpl. done.
Qed.

(** X8. Every descriptor in a pool that [get] has built is well formed,
    and [get] keeps it so whether it returns or throws: a director has
    three non-empty, pairwise distinct columns; a child refers to a
    pooled director of its own database and has a foreign-key column; a
    match table refers to two pooled directors of its own database that
    share the partitioning id, by two non-empty, distinct columns; and
    no probe object is ever pooled. *)
Theorem get_keeps_pool_ok (fuel : nat) (ctx : QueryContext) (db tbl : string)
    (pool pool' : Pool) (o : Outcome (option TableInfo)) :
  pool_ok pool →
  get fuel ctx db tbl pool = Some (o, pool') →
  pool_ok pool'
  ∧ ∀ t, o = Returned (Some t) → descriptor_ok pool' t.
Proof.
  intros Hp H. pose proof (get_pool_ok _ _ _ _ _ _ _ Hp H) as Hp'.
  split; [done|]. intros t ->. apply Hp'. by eapply get_returned_elem_of.
Qed.

Lemma get_keeps_pool_ok_witness :
  pool_ok [Child (forcedSourceInfo 17); Dir (objectInfo 17)]
  ∧ ∀ t, Returned (Some (Child (forcedSourceInfo 17))) = Returned (Some t) →
         descriptor_ok [Child (forcedSourceInfo 17); Dir (objectInfo 17)] t.
Proof.
  apply (get_keeps_pool_ok 2 (lsstChildCtx 17) "" "ForcedSource" []).
  - intros t Hin. by apply elem_of_nil in Hin.
  - reflexivity.
Defined.

End TableInfoPoolFacts.

(** ** Properties of the merger *)

Module InfileMergerFacts.

Import InfileMerger.

(** *** Facts about sessions *)

Ltac unfold_ops :=
  unfold merge, _fetchHeader, _waitPacket, _setupTable, _applySqlLocal,
    Action_ctor, Action_call, applyMysql, finalize, assert,
    bind, gets, modify, ret, throw, fault in *.

Lemma run_nil (env : Environment) (s : State) : run env [] s = ([], s).
Proof. reflexivity. Qed.

Lemma run_cons (env : Environment) (c : Call) (rest : list Call) (s : State) :
  run env (c :: rest) s =
  if stopped (call env c s).1 then ([(call env c s).1], (call env c s).2)
  else ((call env c s).1 :: (run env rest (call env c s).2).1,
        (run env rest (call env c s).2).2).
Proof.
  simpl. destruct (call env c s) as [r s']. simpl.
  destruct (stopped r); [done|]. by destruct (run env rest s').
Qed.

(** A property of the state that every public call keeps holds at the
    end of every session. *)
Lemma run_invariant (env : Environment) (P : State → Prop) :
  (∀ c s, P s → P (call env c s).2) →
  ∀ calls s, P s → P (run env calls s).2.
Proof.
  intros Hcall calls. induction calls as [|c rest IH]; intros s Hs; [done|].
  rewrite run_cons. destruct (stopped _); simpl.
  - by apply Hcall.
  - apply IH. by apply Hcall.
Qed.

(** An error that [merge] records, or throws, leaves a code other than
    [NONE] in [_error.errorCode]. *)
Lemma merge_records_nonzero (env : Environment) (dumpBuffer : list byte)
    (dumpLength : Z) (tableName : string) (s : State) :
  errorCode (_error s) = NONE →
  (_error (merge env dumpBuffer dumpLength tableName s).2 = _error s
   ∧ ∀ e, (merge env dumpBuffer dumpLength tableName s).1 ≠ Throw e)
  ∨ errorCode (_error (merge env dumpBuffer dumpLength tableName s).2) ≠ NONE.
Proof.
  intros Hnone. unfold_ops.
  repeat (case_match; simplify_eq/=; try done);
    repeat match goal with
           | H : (_ =? _) = true |- _ => apply Z.eqb_eq in H
           | H : (_ =? _) = false |- _ => apply Z.eqb_neq in H
           end;
    first [ by left | by right ].
Qed.

(** C4. Once an error is recorded ([_error.errorCode] is not [NONE]),
    every later [merge] returns -1 and every later [finalize] returns
    [false], at once: the merger, the recorded error with it, and the
    statements seen by the SQL engine stay as they are. *)
Theorem C4_error_short_circuit (env : Environment) (calls : list Call)
    (s : State) :
  errorCode (_error s) ≠ NONE →
  run env calls s = (map refusal calls, s).
Proof.
  intros Herr. induction calls as [|c rest IH]; [done|].
  rewrite run_cons.
  assert (call env c s = (refusal c, s)) as ->.
  { destruct c as [dumpBuffer dumpLength tableName|]; [|done].
    unfold call, merge, bind, gets, ret. simpl.
    apply Z.eqb_neq in Herr. unfold NONE in Herr. by rewrite Herr. }
  simpl. rewrite IH. by destruct c.
Qed.

Lemma C4_error_short_circuit_witness :
  let s := (merge toyEnv corruptFrame 7 "chunk_1" toyMerger).2 in
  run toyEnv [CallMerge toyFrame 7 "chunk_2"; CallFinalize;
              CallMerge toyFrame 7 "chunk_3"] s
  = ([MergeReply (Ret (-1)); FinalizeReply (Ret false);
      MergeReply (Ret (-1))], s).
Proof.
  apply (C4_error_short_circuit toyEnv
           [CallMerge toyFrame 7 "chunk_2"; CallFinalize;
            CallMerge toyFrame 7 "chunk_3"]
           (merge toyEnv corruptFrame 7 "chunk_1" toyMerger).2).
  vm_compute. discriminate.
Defined.

(** C5. A second [finalize] returns what the first returned and leaves
    the merger, and so the statements seen by the SQL engine, as the
    first left them. *)
Theorem C5_finalize_idempotent (s : State) :
  (finalize (finalize s).2).1 = (finalize s).1
  ∧ world (finalize (finalize s).2).2 = world (finalize s).2
  ∧ (finalize (finalize s).2).2 = (finalize s).2.
Proof. done. Qed.


(** *** CREATE TABLE statements seen by the engine *)

Lemma count_create_app (w1 w2 : World) :
  count_create (w1 ++ w2) = (count_create w1 + count_create w2)%nat.
Proof. induction w1 as [|ev w1 IH]; simpl; [done|]. rewrite IH. lia. Qed.

Ltac finish_count :=
  unfold create_once, NONE, HEADER_IMPORT, HEADER_OVERFLOW, RESULT_IMPORT,
    RESULT_MD5, CREATE_TABLE in *;
  simpl in *; rewrite ?count_create_app in *; simpl in *;
  repeat match goal with
         | H : (_ =? _) = true |- _ => apply Z.eqb_eq in H
         | H : (_ =? _) = false |- _ => apply Z.eqb_neq in H
         end;
  try lia;
  try (left; lia);
  try (right; split; [lia|]; first [left; done | right; done | right; lia]).

Lemma merge_create_once (env : Environment) (dumpBuffer : list byte)
    (dumpLength : Z) (tableName : string) (s : State) :
  create_once s → create_once (merge env dumpBuffer dumpLength tableName s).2.
Proof.
  intros Hinv. unfold_ops.
  repeat (case_match; simplify_eq/=; try done);
    destruct Hinv as [Hzero|[Hone [Hdone|Herr]]]; finish_count;
    try congruence.
Qed.

Lemma call_create_once (env : Environment) (c : Call) (s : State) :
  create_once s → create_once (call env c s).2.
Proof.
  destruct c as [dumpBuffer dumpLength tableName|]; [|done].
  intros Hinv. unfold call.
  pose proof (merge_create_once env dumpBuffer dumpLength tableName s Hinv)
    as H.
  by destruct (merge env dumpBuffer dumpLength tableName s).
Qed.

Lemma merge_created_with (env : Environment) (n : nat)
    (dumpBuffer : list byte) (dumpLength : Z)
    (tableName : string) (s : State) :
  created_with n s →
  created_with n (merge env dumpBuffer dumpLength tableName s).2.
Proof.
  intros [Hn Hc]. unfold created_with. unfold_ops.
  repeat (case_match; simplify_eq/=; try done);
    rewrite ?count_create_app; simpl; split; first [done | lia | congruence].
Qed.

Lemma call_created_with (env : Environment) (n : nat) (c : Call) (s : State) :
  created_with n s → created_with n (call env c s).2.
Proof.
  destruct c as [dumpBuffer dumpLength tableName|]; [|done].
  intros Hinv. unfold call.
  pose proof
    (merge_created_with env n dumpBuffer dumpLength tableName s Hinv) as H.
  by destruct (merge env dumpBuffer dumpLength tableName s).
Qed.


(** The constructor sends no CREATE TABLE. *)
Lemma ctor_count_create (env : Environment) (c : InfileMergerConfig)
    (needHeader0 : bool) (status0 : Z) (w : World) :
  count_create (world (InfileMerger_ctor env c needHeader0 status0 w).2)
  = count_create w.
Proof.
  unfold InfileMerger_ctor, Mgr_ctor, _fixupTargetName, getTimeStampId,
    assert, bind, gets, modify, ret, throw, fault.
  repeat (case_match; simplify_eq/=; try done);
    rewrite ?count_create_app; simpl; lia.
Qed.

(** A whole frame on a fresh merger: the table is created, and the
    call ends in the constructor of the load action, on the emptied
    [msgs]; the calls that follow are not made. *)
Example merge_toyFrame :
  (run toyEnv [CallMerge toyFrame 7 "chunk_1";
               CallMerge toyFrame 7 "chunk_2"; CallFinalize] toyMerger).1
  = [MergeReply (Fault NullPointer)]
  ∧ world (run toyEnv [CallMerge toyFrame 7 "chunk_1";
                       CallMerge toyFrame 7 "chunk_2"; CallFinalize]
             toyMerger).2
    = [MgrConnect true; Connect None;
       RunQuery (formCreateTable "qservResult.result_1_m"
                   {| columns := map colSchemaOf toyRowSchema |}) None].
Proof. split; reflexivity. Qed.


(** *** Frames *)

Lemma readBytes_app (l1 l2 : list byte) (n : Z) :
  Z.of_nat (length l1) = n → readBytes (l1 ++ l2) n = Some l1.
Proof.
  intros <-. unfold readBytes. rewrite length_app.
  rewrite (proj2 (Z.leb_le 0 _)) by lia.
  rewrite (proj2 (Z.leb_le _ _)) by lia.
  simpl. rewrite Nat2Z.id. by rewrite take_app_length.
Qed.

Lemma readBytes_all (l : list byte) (n : Z) :
  Z.of_nat (length l) = n → readBytes l n = Some l.
Proof.
  intros H. rewrite <- (app_nil_r l) at 1. by apply readBytes_app.
Qed.

(** [_fetchHeader] on bytes that hold a header that decodes: the header
    is stored, and the payload is either counted too short for the size
    that the header declares, or is the next thing read. *)
Lemma _fetchHeader_header_at (env : Environment) (s : State) (first : byte)
    (headerBytes rest : list byte) (length : Z) (header : ProtoHeader)
    (msgs : Msgs) :
  _msgs s = Some msgs →
  Z.of_nat (List.length headerBytes) = Z.of_N (Byte.to_N first) →
  headerFrom env headerBytes = (true, header) →
  _fetchHeader env (first :: headerBytes ++ rest) length s =
  (let s1 := set_msgs (Some {| protoHeader := header;
                               result := result msgs |}) s in
   if length - 1 - Z.of_N (Byte.to_N first) <? size header then
     (Ret 0,
      set_errorCode HEADER_OVERFLOW
        (set_description ("Buffer too small for result msg, " +:+
                          "increase buffer size in InfileMerger") s1))
   else
     match readBytes rest (size header) with
     | None => (Fault OutOfBounds, s1)
     | Some resultBytes =>
       (let '(ok, res) := resultFrom env resultBytes in
        modify (set_msgs (Some {| protoHeader := header; result := res |})) ;;
        if negb ok then
          modify (set_errorCode RESULT_IMPORT) ;;
          modify (set_description "Error decoding result msg") ;;
          e <- gets _error ;;
          throw (MergerError e)
        else
          _setupTable env ;;
          e <- gets _error ;;
          if negb (errorCode e =? 0) then ret (-1)
          else
            let computedMd5 := getMd5 env resultBytes in
            if bool_decide (md5 header ≠ computedMd5) then
              modify (set_description "Result message MD5 mismatch") ;;
              modify (set_errorCode RESULT_MD5) ;;
              ret 0
            else
              modify (set_needHeader false) ;;
              mergeTable <- gets _mergeTable ;;
              given <- gets _msgs ;;
              modify (set_msgs None) ;;
              a <- Action_ctor env given mergeTable ;;
              Action_call env a ;;
              msgs <- gets _msgs ;;
              assert (bool_decide (msgs = None)) ;;
              ret 0) s1
     end).
Proof.
  intros Hmsgs Hlen Hheader. unfold _fetchHeader.
  unfold bind at 1. unfold gets at 1. rewrite Hmsgs.
  rewrite (readBytes_app _ _ _ Hlen). rewrite Hheader.
  unfold bind at 1. unfold modify at 1. cbn [negb].
  rewrite <- Hlen, Nat2Z.id, drop_app_length.
  cbv zeta.
  destruct (_ <? size header); [reflexivity|].
  destruct (readBytes rest (size header)); reflexivity.
Qed.

(** The same when the count is the number of the bytes. *)
Lemma _fetchHeader_header (env : Environment) (s : State) (first : byte)
    (headerBytes rest : list byte) (header : ProtoHeader) (msgs : Msgs) :
  _msgs s = Some msgs →
  Z.of_nat (length headerBytes) = Z.of_N (Byte.to_N first) →
  headerFrom env headerBytes = (true, header) →
  _fetchHeader env (first :: headerBytes ++ rest)
    (Z.of_nat (length (first :: headerBytes ++ rest))) s =
  (let s1 := set_msgs (Some {| protoHeader := header;
                               result := result msgs |}) s in
   if Z.of_nat (length rest) <? size header then
     (Ret 0,
      set_errorCode HEADER_OVERFLOW
        (set_description ("Buffer too small for result msg, " +:+
                          "increase buffer size in InfileMerger") s1))
   else
     match readBytes rest (size header) with
     | None => (Fault OutOfBounds, s1)
     | Some resultBytes =>
       (let '(ok, res) := resultFrom env resultBytes in
        modify (set_msgs (Some {| protoHeader := header; result := res |})) ;;
        if negb ok then
          modify (set_errorCode RESULT_IMPORT) ;;
          modify (set_description "Error decoding result msg") ;;
          e <- gets _error ;;
          throw (MergerError e)
        else
          _setupTable env ;;
          e <- gets _error ;;
          if negb (errorCode e =? 0) then ret (-1)
          else
            let computedMd5 := getMd5 env resultBytes in
            if bool_decide (md5 header ≠ computedMd5) then
              modify (set_description "Result message MD5 mismatch") ;;
              modify (set_errorCode RESULT_MD5) ;;
              ret 0
            else
              modify (set_needHeader false) ;;
              mergeTable <- gets _mergeTable ;;
              given <- gets _msgs ;;
              modify (set_msgs None) ;;
              a <- Action_ctor env given mergeTable ;;
              Action_call env a ;;
              msgs <- gets _msgs ;;
              assert (bool_decide (msgs = None)) ;;
              ret 0) s1
     end).
Proof.
  intros Hmsgs Hlen Hheader.
  rewrite (_fetchHeader_header_at env s first headerBytes rest _ header msgs
             Hmsgs Hlen Hheader).
  replace (Z.of_nat (length (first :: headerBytes ++ rest)) - 1
           - Z.of_N (Byte.to_N first))
    with (Z.of_nat (length rest))
    by (cbn [length]; rewrite length_app; lia).
  reflexivity.
Qed.


Lemma _setupTable_returns (env : Environment) (s : State) (msgs : Msgs) :
  _msgs s = Some msgs → (_setupTable env s).1 = Ret tt.
Proof.
  intros Hmsgs. unfold_ops. cbv beta.
  destruct (_needCreateTable s); [|done]. rewrite Hmsgs.
  repeat (case_match; simplify_eq/=; try done).
Qed.

(** [merge] returns -1, 0 or the length that it was given. *)
Lemma merge_returns (env : Environment) (dumpBuffer : list byte)
    (dumpLength : Z) (tableName : string) (s s' : State) (n : Z) :
  merge env dumpBuffer dumpLength tableName s = (Ret n, s') →
  n = -1 ∨ n = 0 ∨ n = dumpLength.
Proof.
  unfold merge, _waitPacket, bind, gets, ret.
  destruct (negb _); [intros [= <- _]; auto|].
  destruct (_needHeader s); [|intros [= <- _]; auto].
  destruct (_fetchHeader env dumpBuffer dumpLength s) as [[hSize|e|f] s1];
    [|done..].
  destruct (hSize =? 0); intros [= <- _]; auto.
Qed.

(** C2, as stated, fails: the payload of [corruptFrame] has digest "11"
    while its header declares "10"; the first [merge] on it records
    [RESULT_MD5], and by then the engine has run the CREATE TABLE for
    the merge table. *)
Lemma C2_counterexample :
  md5 (toyHeaderFrom [x03; x31; x30]).2 = "10"
  ∧ toyMd5 [x07; x01; x03] = "11"
  ∧ (merge toyEnv corruptFrame 7 "chunk_1" toyMerger).1 = Ret 0
  ∧ errorCode (_error (merge toyEnv corruptFrame 7 "chunk_1" toyMerger).2)
    = RESULT_MD5
  ∧ world toyMerger = [MgrConnect true]
  ∧ world (merge toyEnv corruptFrame 7 "chunk_1" toyMerger).2
    = [MgrConnect true; Connect None;
       RunQuery (formCreateTable "qservResult.result_1_m"
                   {| columns := map colSchemaOf toyRowSchema |}) None].
Proof. repeat split; reflexivity. Qed.

(** C2, amended. On a frame whose header and payload decode and whose
    payload digest differs from the digest that the header declares,
    the first [merge] sets the table up before it compares the digests:
    the CREATE TABLE for the merge table is sent if the table is not yet
    marked as created. Unless the setup fails (the call then leaves the
    error of the setup), the call records [RESULT_MD5] and returns 0,
    and it sends no load. *)
Theorem C2_digest_mismatch (env : Environment) (s : State) (first : byte)
    (headerBytes resultBytes : list byte) (header : ProtoHeader)
    (res : Result) (msgs : Msgs) (tableName : string) :
  errorCode (_error s) = NONE →
  _needHeader s = true →
  _msgs s = Some msgs →
  Z.of_nat (length headerBytes) = Z.of_N (Byte.to_N first) →
  headerFrom env headerBytes = (true, header) →
  size header = Z.of_nat (length resultBytes) →
  resultFrom env resultBytes = (true, res) →
  md5 header ≠ getMd5 env resultBytes →
  let buffer := first :: headerBytes ++ resultBytes in
  let decoded :=
    set_msgs (Some {| protoHeader := header; result := res |}) s in
  let afterSetup := (_setupTable env decoded).2 in
  let stmt := formCreateTable (_mergeTable s)
                {| columns := map colSchemaOf (rowschema res) |} in
  merge env buffer (Z.of_nat (length buffer)) tableName s =
    (if errorCode (_error afterSetup) =? NONE
     then (Ret 0,
           set_errorCode RESULT_MD5
             (set_description "Result message MD5 mismatch" afterSetup))
     else (Ret (Z.of_nat (length buffer)), afterSetup))
  ∧ (_needCreateTable s = false → afterSetup = decoded)
  ∧ (_needCreateTable s = true →
     _sqlConn s = true ∨ connectToDb env (world s) = None →
     let pre := if _sqlConn s then [] else [Connect None] in
     world afterSetup
     = world s ++ pre ++ [RunQuery stmt (runQuery env (world s ++ pre) stmt)]
     ∧ (runQuery env (world s ++ pre) stmt = None →
        errorCode (_error afterSetup) = NONE
        ∧ _needCreateTable afterSetup = false)).
Proof.
  intros Herr Hhead Hmsgs Hlen Hheader Hsize Hres Hmd5
    buffer decoded afterSetup stmt.
  split; [|split].
  - unfold merge. unfold bind at 1. unfold gets at 1. rewrite Herr.
    cbn [Z.eqb NONE negb]. unfold bind at 1. unfold gets at 1.
    rewrite Hhead. unfold bind at 1. unfold buffer.
    rewrite (_fetchHeader_header env s first headerBytes resultBytes
               header msgs Hmsgs Hlen Hheader).
    cbv zeta. rewrite <- Hsize, Z.ltb_irrefl.
    rewrite (readBytes_all _ _ (eq_sym Hsize)). rewrite Hres.
    cbn [negb]. unfold bind at 1. unfold modify at 1.
    change (set_msgs (Some {| protoHeader := header; result := res |})
              (set_msgs (Some {| protoHeader := header;
                                 result := result msgs |}) s))
      with decoded.
    unfold bind at 1.
    pose proof (_setupTable_returns env decoded _ eq_refl) as Hret.
    fold afterSetup.
    destruct (_setupTable env decoded) as [r s2] eqn:Hsetup.
    simpl in Hret. subst r. unfold afterSetup. cbn [snd].
    unfold bind at 1. unfold gets at 1. unfold NONE.
    destruct (errorCode (_error s2) =? 0) eqn:Hcode; cbn [negb].
    + rewrite bool_decide_eq_true_2 by done. reflexivity.
    + unfold ret. rewrite (proj2 (Z.eqb_neq (-1) 0)) by done. reflexivity.
  - intros Hneed. unfold afterSetup, decoded, _setupTable, bind, gets, ret.
    cbn. by rewrite Hneed.
  - intros Hneed Hconn pre. unfold afterSetup, decoded, pre. clear pre.
    unfold_ops. cbn. rewrite Hneed. cbn. fold stmt.
    destruct (_sqlConn s) eqn:Econn; cbn.
    + rewrite app_nil_r.
      destruct (runQuery env (world s) stmt) eqn:Erun; cbn; split;
        done.
    + destruct Hconn as [?|Hconn]; [done|]. rewrite Hconn. cbn.
      destruct (runQuery env (world s ++ [Connect None]) stmt) eqn:Erun;
        cbn; rewrite <- ?app_assoc; split; done.
Qed.

Lemma C2_digest_mismatch_witness :
  let s := toyMerger in
  let header := {| size := 3; md5 := "10" |} in
  let res := {| session := 7; rowschema := toyRowSchema |} in
  let decoded :=
    set_msgs (Some {| protoHeader := header; result := res |}) s in
  let afterSetup := (_setupTable toyEnv decoded).2 in
  let stmt := formCreateTable (_mergeTable s)
                {| columns := map colSchemaOf (rowschema res) |} in
  merge toyEnv corruptFrame 7 "chunk_1" s =
    (if errorCode (_error afterSetup) =? NONE
     then (Ret 0,
           set_errorCode RESULT_MD5
             (set_description "Result message MD5 mismatch" afterSetup))
     else (Ret (Z.of_nat (length corruptFrame)), afterSetup))
  ∧ (_needCreateTable s = false → afterSetup = decoded)
  ∧ (_needCreateTable s = true →
     _sqlConn s = true ∨ connectToDb toyEnv (world s) = None →
     let pre := if _sqlConn s then [] else [Connect None] in
     world afterSetup
     = world s ++ pre
       ++ [RunQuery stmt (runQuery toyEnv (world s ++ pre) stmt)]
     ∧ (runQuery toyEnv (world s ++ pre) stmt = None →
        errorCode (_error afterSetup) = NONE
        ∧ _needCreateTable afterSetup = false)).
Proof.
  apply (C2_digest_mismatch toyEnv toyMerger x03 [x03; x31; x30]
           [x07; x01; x03] {| size := 3; md5 := "10" |}
           {| session := 7; rowschema := toyRowSchema |}
           {| protoHeader := {| size := 0; md5 := "" |};
              result := {| session := 0; rowschema := [] |} |}
           "chunk_1").
  - reflexivity.
  - reflexivity.
  - reflexivity.
  - reflexivity.
  - reflexivity.
  - reflexivity.
  - reflexivity.
  - vm_compute. discriminate.
Defined.


(** A merger that does not await a header reports every buffer as
    consumed, without looking into it. *)
Example merge_toyFrame_no_header :
  (run toyEnv [CallMerge toyFrame 7 "chunk_1"; CallMerge shortFrame 6 "chunk_2"]
     toyMergerNoHeader)
  = ([MergeReply (Ret 7); MergeReply (Ret 6)], toyMergerNoHeader).
Proof. reflexivity. Qed.

(** C3, as stated, fails. [shortFrame] holds the header (H = 3, declared
    payload size 3) and two payload bytes: zero bytes are reported, but
    the merger is not as it was, it has [HEADER_OVERFLOW] recorded and
    refuses the next call, which brings the whole frame. *)
Lemma C3_counterexample :
  Z.of_nat (length shortFrame) < 1 + 3 + 3
  ∧ (merge toyEnv shortFrame 6 "chunk_1" toyMerger).1 = Ret 0
  ∧ (merge toyEnv shortFrame 6 "chunk_1" toyMerger).2 ≠ toyMerger
  ∧ errorCode (_error (merge toyEnv shortFrame 6 "chunk_1" toyMerger).2)
    = HEADER_OVERFLOW
  ∧ (merge toyEnv toyFrame 7 "chunk_1"
       (merge toyEnv shortFrame 6 "chunk_1" toyMerger).2).1 = Ret (-1).
Proof.
  split; [reflexivity|].
  split; [reflexivity|]. split; [vm_compute; discriminate|].
  repeat split; reflexivity.
Qed.

(** C3, amended. A buffer that holds the length byte H and a header
    that decodes, and fewer payload bytes than the header declares,
    yields 0 bytes and no SQL, but not an unchanged merger: the decoded
    header is kept and [HEADER_OVERFLOW] is recorded, so that every
    later [merge] returns -1. (What [merge] reports for a whole frame
    is left out.) *)
Theorem C3_short_payload (env : Environment) (s : State) (first : byte)
    (headerBytes payload : list byte) (header : ProtoHeader) (msgs : Msgs)
    (tableName : string) :
  errorCode (_error s) = NONE →
  _needHeader s = true →
  _msgs s = Some msgs →
  Z.of_nat (length headerBytes) = Z.of_N (Byte.to_N first) →
  headerFrom env headerBytes = (true, header) →
  let H := Z.of_N (Byte.to_N first) in
  let payload_size := size header in
  let buffer := first :: headerBytes ++ payload in
  Z.of_nat (length buffer) < 1 + H + payload_size →
  let s' :=
    set_errorCode HEADER_OVERFLOW
      (set_description ("Buffer too small for result msg, " +:+
                        "increase buffer size in InfileMerger")
         (set_msgs (Some {| protoHeader := header;
                            result := result msgs |}) s)) in
  merge env buffer (Z.of_nat (length buffer)) tableName s = (Ret 0, s')
  ∧ world s' = world s
  ∧ s' ≠ s
  ∧ ∀ more moreLength tableName',
      merge env more moreLength tableName' s' = (Ret (-1), s').
Proof.
  intros Herr Hhead Hmsgs Hlen Hheader H payload_size buffer Hshort s'.
  assert (Z.of_nat (length payload) < payload_size) as Hpayload.
  { revert Hshort. unfold buffer, H. cbn [length]. rewrite length_app. lia. }
  split; [|split; [done|split]].
  - unfold merge. unfold bind at 1. unfold gets at 1. rewrite Herr.
    cbn [Z.eqb NONE negb]. unfold bind at 1. unfold gets at 1.
    rewrite Hhead. unfold bind at 1. unfold buffer.
    rewrite (_fetchHeader_header env s first headerBytes payload
               header msgs Hmsgs Hlen Hheader).
    cbv zeta. fold payload_size.
    by rewrite (proj2 (Z.ltb_lt _ _) Hpayload).
  - intros Heq. apply (f_equal (λ x, errorCode (_error x))) in Heq.
    rewrite Herr in Heq. done.
  - intros more moreLength tableName'. unfold merge, bind, gets, ret. done.
Qed.

Lemma C3_short_payload_witness :
  let s' :=
    set_errorCode HEADER_OVERFLOW
      (set_description ("Buffer too small for result msg, " +:+
                        "increase buffer size in InfileMerger")
         (set_msgs (Some {| protoHeader := {| size := 3; md5 := "10" |};
                            result := {| session := 0; rowschema := [] |} |})
            toyMerger)) in
  merge toyEnv shortFrame 6 "chunk_1" toyMerger = (Ret 0, s')
  ∧ world s' = world toyMerger
  ∧ s' ≠ toyMerger
  ∧ ∀ more moreLength tableName',
      merge toyEnv more moreLength tableName' s' = (Ret (-1), s').
Proof.
  apply (C3_short_payload toyEnv toyMerger x03 [x03; x31; x30] [x07; x01]
           {| size := 3; md5 := "10" |}
           {| protoHeader := {| size := 0; md5 := "" |};
              result := {| session := 0; rowschema := [] |} |}
           "chunk_1"); reflexivity.
Defined.

(** *** The name of the merge table *)

(** C10. On construction (the manager being connected) the merge table
    is the target table with "_m" appended when the configuration asks
    for a fixup, and the target table itself otherwise; an empty target
    table in the configuration (with a target database, and the clock
    answering) is first replaced by
    [targetDb.result_<timestamp>], the timestamp being the decimal
    digits of the seconds modulo 10000 followed by those of the
    microseconds. *)
Theorem C10_merge_table_name (env : Environment) (c : InfileMergerConfig)
    (needHeader0 : bool) (status0 : Z) (w : World) :
  connect env w = true →
  (targetTable c = "" → targetDb c ≠ "" ∧ (gettimeofday env).1 = 0) →
  let now := (gettimeofday env).2 in
  let stamp := decimal (Z.rem (tv_sec now) 10000) +:+ decimal (tv_usec now) in
  let target :=
    if bool_decide (targetTable c = "")
    then targetDb c +:+ ".result_" +:+ stamp
    else targetTable c in
  ∃ s,
    InfileMerger_ctor env c needHeader0 status0 w = (Ret tt, s)
    ∧ targetTable (_config s) = target
    ∧ _mergeTable s
      = (if needsFixup (mFixup c) then target +:+ "_m" else target).
Proof.
  intros Hconnect Hempty now stamp target.
  unfold InfileMerger_ctor, Mgr_ctor, _fixupTargetName, getTimeStampId,
    assert, bind, gets, modify, ret, throw, fault.
  cbn. rewrite Hconnect. cbn.
  unfold target, stamp, now.
  destruct (gettimeofday env) as [rc tv] eqn:Eclock. cbn in *.
  destruct (bool_decide (targetTable c = "")) eqn:Etable; cbn.
  - apply bool_decide_eq_true in Etable.
    destruct (Hempty Etable) as [Hdb ->].
    rewrite bool_decide_eq_false_2 by done. cbn.
    destruct (needsFixup (mFixup c)); eexists; split; try reflexivity;
      split; reflexivity.
  - destruct (needsFixup (mFixup c)); eexists; split; try reflexivity;
      split; reflexivity.
Qed.

Lemma C10_merge_table_name_witness :
  ∃ s,
    InfileMerger_ctor toyEnv
      {| targetDb := "qservResult"; targetTable := "";
         mFixup := {| needsFixup := true |}; user := "qsmaster";
         socket := "/tmp/mysql.sock" |} true NONE [] = (Ret tt, s)
    ∧ targetTable (_config s) = "qservResult.result_5432123456"
    ∧ _mergeTable s = "qservResult.result_5432123456_m".
Proof.
  apply (C10_merge_table_name toyEnv
           {| targetDb := "qservResult"; targetTable := "";
              mFixup := {| needsFixup := true |}; user := "qsmaster";
              socket := "/tmp/mysql.sock" |} true NONE []).
  - reflexivity.
  - intros _. split; [discriminate|reflexivity].
Defined.

(** *** Further properties of the merger *)

Lemma Z_eqb_bool_decide (a b : Z) : (a =? b) = bool_decide (a = b).
Proof.
  destruct (Z.eqb_spec a b).
  - by rewrite bool_decide_eq_true_2.
  - by rewrite bool_decide_eq_false_2.
Qed.

(** X9. [_applySqlLocal] connects when it has no connection, and only
    then. When the connection fails, nothing is sent: the call returns
    [false] with status [MYSQLCONNECT] and the error number of the
    engine, and the merger is left without a connection, so that the
    next call connects again. Otherwise exactly the statement given is
    sent, once, the connection is kept, and the call returns whether
    the engine accepted the statement: if so the error is untouched, if
    not the status is [MYSQLEXEC] with the error number of the engine,
    which [resultTooBig] recognises when it is 1114. *)
Theorem applySqlLocal_behaviour (env : Environment) (sql : Sql) (s : State) :
  let out := _applySqlLocal env sql s in
  let pre := if _sqlConn s then []
             else [Connect (connectToDb env (world s))] in
  let answer := runQuery env (world s ++ pre) sql in
  (_sqlConn s = false →
   ∀ errObj, connectToDb env (world s) = Some errObj →
     out.1 = Ret false
     ∧ world out.2 = world s ++ pre
     ∧ _sqlConn out.2 = false
     ∧ status (_error out.2) = MYSQLCONNECT
     ∧ errorCode (_error out.2) = errNo errObj)
  ∧ (_sqlConn s = true ∨ connectToDb env (world s) = None →
     world out.2 = world s ++ pre ++ [RunQuery sql answer]
     ∧ _sqlConn out.2 = true
     ∧ (answer = None → out.1 = Ret true ∧ _error out.2 = _error s)
     ∧ ∀ errObj, answer = Some errObj →
         out.1 = Ret false
         ∧ status (_error out.2) = MYSQLEXEC
         ∧ errorCode (_error out.2) = errNo errObj
         ∧ resultTooBig (_error out.2) = bool_decide (errNo errObj = 1114)).
Proof.
  intros out pre answer. unfold out, answer, pre. clear out answer pre.
  unfold _applySqlLocal, bind, gets, modify, ret. split.
  - intros Hconn errObj Hfail. rewrite Hconn. cbn. rewrite Hfail. cbn. done.
  - intros Husable. destruct (_sqlConn s) eqn:Hconn; cbn.
    + rewrite app_nil_r.
      destruct (runQuery env (world s) sql) as [errObj|] eqn:Hrun; cbn.
      * split; [done|]. split; [done|]. split; [done|].
        intros ? [= <-]. split; [done|]. split; [done|]. split; [done|].
        unfold resultTooBig. cbn. apply Z_eqb_bool_decide.
      * split; [done|]. split; [done|]. split; [|done].
        intros _. split; [done|]. by destruct s as [? ? []].
    + destruct Husable as [?|Hok]; [done|]. rewrite Hok. cbn.
      destruct (runQuery env (world s ++ [Connect None]) sql)
        as [errObj|] eqn:Hrun; cbn; rewrite <- app_assoc.
      * split; [done|]. split; [done|]. split; [done|].
        intros ? [= <-]. split; [done|]. split; [done|]. split; [done|].
        unfold resultTooBig. cbn. apply Z_eqb_bool_decide.
      * split; [done|]. split; [done|]. split; [|done].
        intros _. split; [done|]. by destruct s as [? ? []].
Qed.

Lemma applySqlLocal_behaviour_witness :
  let sql := formCreateTable "qservResult.result_1_m" {| columns := [] |} in
  let out := _applySqlLocal fullEnv sql toyMerger in
  world out.2
  = world toyMerger ++ [Connect None]
    ++ [RunQuery sql (Some {| errNo := 1114;
                              printErrMsg := "The table is full" |})]
  ∧ out.1 = Ret false
  ∧ resultTooBig (_error out.2) = true.
Proof.
  pose proof (proj2 (applySqlLocal_behaviour fullEnv
                       (formCreateTable "qservResult.result_1_m"
                          {| columns := [] |}) toyMerger)
                (or_intror eq_refl)) as (Hw & _ & _ & Hfail).
  destruct (Hfail _ eq_refl) as (Hret & _ & _ & Hbig).
  split; [exact Hw|]. split; [exact Hret|]. exact Hbig.
Defined.

Lemma count_load_app (w1 w2 : World) :
  count_load (w1 ++ w2) = (count_load w1 + count_load w2)%nat.
Proof. induction w1 as [|ev w1 IH]; simpl; [done|]. rewrite IH. lia. Qed.

Lemma merge_session_fixed (env : Environment) (dumpBuffer : list byte)
    (dumpLength : Z) (tableName : string) (s0 s : State) :
  session_fixed s0 s →
  session_fixed s0 (merge env dumpBuffer dumpLength tableName s).2.
Proof.
  intros (Hc & Hm & Hn & Hl). unfold session_fixed. unfold_ops.
  repeat (case_match; simplify_eq/=; try done);
    rewrite ?count_load_app; simpl; rewrite ?Nat.add_0_r; done.
Qed.

Lemma merge_finished_by_create (env : Environment) (dumpBuffer : list byte)
    (dumpLength : Z) (tableName : string) (s : State) :
  finished_by_create s →
  finished_by_create (merge env dumpBuffer dumpLength tableName s).2.
Proof.
  intros Hf. unfold finished_by_create in *. unfold_ops.
  repeat (case_match; simplify_eq/=; try done);
    repeat match goal with
           | H : negb _ = true |- _ => apply negb_true_iff in H
           | H : negb _ = false |- _ => apply negb_false_iff in H
           | H : (_ =? _) = true |- _ => apply Z.eqb_eq in H
           | H : (_ =? _) = false |- _ => apply Z.eqb_neq in H
           end;
    try done; intros Hfin; specialize (Hf Hfin);
    unfold CREATE_TABLE in *; congruence.
Qed.

Lemma run_session_fixed (env : Environment) (calls : list Call) (s : State) :
  session_fixed s (run env calls s).2.
Proof.
  apply run_invariant; [|done]. intros [dumpBuffer dumpLength tableName|] x Hx.
  - unfold call.
    pose proof
      (merge_session_fixed env dumpBuffer dumpLength tableName s x Hx).
    by destruct (merge env dumpBuffer dumpLength tableName x).
  - done.
Qed.

(** X10. No [merge] and no [finalize] changes the configuration or the
    name of the merge table, and [isFinished] turns true only together
    with the error [CREATE_TABLE]: in a session that starts unfinished,
    [isFinished] tells that the creation of the merge table failed, and
    [finalize] never sets it. *)
Theorem session_keeps (env : Environment) (calls : list Call) (s : State) :
  let s' := (run env calls s).2 in
  _config s' = _config s
  ∧ _mergeTable s' = _mergeTable s
  ∧ (_isFinished s = false →
     _isFinished s' = true → errorCode (_error s') = CREATE_TABLE).
Proof.
  cbv zeta.
  destruct (run_session_fixed env calls s) as (Hc & Hm & Hn & Hl).
  split; [done|]. split; [done|].
  intros Hstart.
  apply (run_invariant env finished_by_create).
  - intros [dumpBuffer dumpLength tableName|] x Hx.
    + unfold call.
      pose proof
        (merge_finished_by_create env dumpBuffer dumpLength tableName x Hx).
      by destruct (merge env dumpBuffer dumpLength tableName x).
    + done.
  - intros Hfin. congruence.
Qed.

Lemma session_keeps_witness :
  let s' := (run fullEnv [CallMerge toyFrame 7 "chunk_1"; CallFinalize]
               toyMerger).2 in
  _isFinished s' = true ∧ errorCode (_error s') = CREATE_TABLE.
Proof.
  split; [reflexivity|].
  apply (session_keeps fullEnv [CallMerge toyFrame 7 "chunk_1"; CallFinalize]
           toyMerger); reflexivity.
Defined.

(** The call of [merge] on a merger that has no error and awaits a
    header: what [_fetchHeader] does decides. *)
Lemma merge_awaiting_header (env : Environment) (dumpBuffer : list byte)
    (dumpLength : Z) (tableName : string) (s : State) :
  errorCode (_error s) = NONE →
  _needHeader s = true →
  merge env dumpBuffer dumpLength tableName s =
  match _fetchHeader env dumpBuffer dumpLength s with
  | (Ret hSize, s1) =>
      if hSize =? 0 then (Ret 0, s1)
      else (Ret dumpLength, s1)
  | (Throw e, s1) => (Throw e, s1)
  | (Fault f, s1) => (Fault f, s1)
  end.
Proof.
  intros Herr Hhead. unfold merge, _waitPacket, bind, gets, ret.
  cbv beta. rewrite Herr. change (negb (NONE =? 0)) with false.
  cbv beta iota. rewrite Hhead.
  destruct (_fetchHeader env dumpBuffer dumpLength s) as [[hSize|e|f] s1];
    [|done..].
  by destruct (hSize =? 0).
Qed.

(** What a whole frame that decodes leaves of the SQL engine's stream
    and of the mark of the table: what the setup of the table left. *)
Lemma merge_frame_setup (env : Environment) (s : State) (first : byte)
    (headerBytes resultBytes : list byte) (header : ProtoHeader)
    (res : Result) (msgs : Msgs) (tableName : string) :
  errorCode (_error s) = NONE →
  _needHeader s = true →
  _msgs s = Some msgs →
  Z.of_nat (length headerBytes) = Z.of_N (Byte.to_N first) →
  headerFrom env headerBytes = (true, header) →
  size header = Z.of_nat (length resultBytes) →
  resultFrom env resultBytes = (true, res) →
  let buffer := first :: headerBytes ++ resultBytes in
  let decoded :=
    set_msgs (Some {| protoHeader := header; result := res |}) s in
  let afterSetup := (_setupTable env decoded).2 in
  let s' := (merge env buffer (Z.of_nat (length buffer)) tableName s).2 in
  world s' = world afterSetup
  ∧ _needCreateTable s' = _needCreateTable afterSetup.
Proof.
  intros Herr Hhead Hmsgs Hlen Hheader Hsize Hres buffer decoded afterSetup.
  cbv zeta.
  enough (∀ out, out = merge env buffer (Z.of_nat (length buffer))
                         tableName s →
                 world out.2 = world afterSetup
                 ∧ _needCreateTable out.2 = _needCreateTable afterSetup)
    as Hout by (by apply Hout).
  intros out Hout.
  rewrite (merge_awaiting_header env buffer _ tableName s Herr Hhead) in Hout.
  unfold buffer in Hout.
  rewrite (_fetchHeader_header env s first headerBytes resultBytes
             header msgs Hmsgs Hlen Hheader) in Hout.
  cbv zeta in Hout. rewrite <- Hsize, Z.ltb_irrefl in Hout.
  rewrite (readBytes_all _ _ (eq_sym Hsize)) in Hout. rewrite Hres in Hout.
  cbn [negb] in Hout. unfold bind at 1 in Hout. unfold modify at 1 in Hout.
  change (set_msgs (Some {| protoHeader := header; result := res |})
            (set_msgs (Some {| protoHeader := header;
                               result := result msgs |}) s))
    with decoded in Hout.
  unfold bind at 1 in Hout.
  pose proof (_setupTable_returns env decoded _ eq_refl) as Hret.
  unfold afterSetup.
  destruct (_setupTable env decoded) as [r s2] eqn:Hrun.
  simpl in Hret. subst r. cbn [snd].
  unfold bind at 1 in Hout. unfold gets at 1 in Hout.
  destruct (negb (errorCode (_error s2) =? 0)); [by subst out|].
  destruct (bool_decide (md5 header ≠ getMd5 env resultBytes));
    by subst out.
Qed.

(** C1. In a session, from the construction of the merger on, the SQL
    engine sees at most one CREATE TABLE, whatever calls are made and
    however many frames they carry. The first [_setupTable] that the
    engine accepts sends the CREATE TABLE for the merge table and marks
    the table as created, and the mark is set in no other way; from
    then on [_setupTable] does nothing, the mark stays through every
    public call, and no further CREATE TABLE reaches the engine. In a
    session it is the [merge] of the first frame that decodes which
    sends the statement. *)
Theorem C1_at_most_one_create (env : Environment) :
  (∀ c needHeader0 status0 w calls,
     count_create w = 0%nat →
     (count_create
        (world (run env calls
                  (InfileMerger_ctor env c needHeader0 status0 w).2).2)
      ≤ 1)%nat)
  ∧ (∀ calls s,
     count_create (world s) = 0%nat →
     (count_create (world (run env calls s).2) ≤ 1)%nat)
  ∧ (∀ s msgs,
       _needCreateTable s = true →
       _msgs s = Some msgs →
       _sqlConn s = true ∨ connectToDb env (world s) = None →
       let pre := if _sqlConn s then [] else [Connect None] in
       let stmt :=
         formCreateTable (_mergeTable s)
           {| columns := map colSchemaOf (rowschema (result msgs)) |} in
       runQuery env (world s ++ pre) stmt = None →
       ∃ s', _setupTable env s = (Ret tt, s')
             ∧ world s' = world s ++ pre ++ [RunQuery stmt None]
             ∧ count_create (world s') = S (count_create (world s))
             ∧ _needCreateTable s' = false
             ∧ _error s' = _error s)
  ∧ (∀ s r s',
       _needCreateTable s = true →
       _setupTable env s = (r, s') →
       _needCreateTable s' = false →
       r = Ret tt
       ∧ ∃ msgs,
           _msgs s = Some msgs
           ∧ let stmt :=
               formCreateTable (_mergeTable s)
                 {| columns := map colSchemaOf (rowschema (result msgs)) |} in
             (world s' = world s ++ [RunQuery stmt None]
              ∨ world s' = world s ++ [Connect None; RunQuery stmt None]))
  ∧ (∀ s, _needCreateTable s = false → _setupTable env s = (Ret tt, s))
  ∧ (∀ calls s,
       _needCreateTable s = false →
       _needCreateTable (run env calls s).2 = false
       ∧ count_create (world (run env calls s).2) = count_create (world s))
  ∧ (∀ s first headerBytes resultBytes header res msgs tableName,
       errorCode (_error s) = NONE →
       _needHeader s = true →
       _msgs s = Some msgs →
       Z.of_nat (length headerBytes) = Z.of_N (Byte.to_N first) →
       headerFrom env headerBytes = (true, header) →
       size header = Z.of_nat (length resultBytes) →
       resultFrom env resultBytes = (true, res) →
       _needCreateTable s = true →
       _sqlConn s = true ∨ connectToDb env (world s) = None →
       let buffer := first :: headerBytes ++ resultBytes in
       let pre := if _sqlConn s then [] else [Connect None] in
       let stmt :=
         formCreateTable (_mergeTable s)
           {| columns := map colSchemaOf (rowschema res) |} in
       runQuery env (world s ++ pre) stmt = None →
       let s' :=
         (merge env buffer (Z.of_nat (length buffer)) tableName s).2 in
       world s' = world s ++ pre ++ [RunQuery stmt None]
       ∧ count_create (world s') = S (count_create (world s))
       ∧ _needCreateTable s' = false).
Proof.
  assert (∀ calls s,
            count_create (world s) = 0%nat →
            (count_create (world (run env calls s).2) ≤ 1)%nat) as Hmost.
  { intros calls s Hzero.
    assert (create_once (run env calls s).2) as [H|[H _]]; [|lia..].
    apply run_invariant; [apply call_create_once|by left]. }
  assert (∀ s msgs,
            _needCreateTable s = true →
            _msgs s = Some msgs →
            _sqlConn s = true ∨ connectToDb env (world s) = None →
            let pre := if _sqlConn s then [] else [Connect None] in
            let stmt :=
              formCreateTable (_mergeTable s)
                {| columns := map colSchemaOf (rowschema (result msgs)) |} in
            runQuery env (world s ++ pre) stmt = None →
            ∃ s', _setupTable env s = (Ret tt, s')
                  ∧ world s' = world s ++ pre ++ [RunQuery stmt None]
                  ∧ count_create (world s')
                    = S (count_create (world s))
                  ∧ _needCreateTable s' = false
                  ∧ _error s' = _error s) as Hfirst.
  { intros s msgs Hneed Hmsgs Hconn pre stmt Haccept.
    unfold pre, stmt in *. clear pre stmt.
    unfold_ops. rewrite Hneed, Hmsgs. cbn.
    destruct (_sqlConn s) eqn:Econn; cbn in *.
    - rewrite app_nil_r in Haccept. rewrite Haccept. cbn.
      eexists. split; [done|]. cbn.
      rewrite count_create_app. cbn. repeat split; lia.
    - destruct Hconn as [?|Hconn]; [done|]. rewrite Hconn. cbn.
      rewrite Haccept. cbn.
      eexists. split; [done|]. cbn. rewrite <- !app_assoc. cbn.
      rewrite count_create_app. cbn. repeat split; lia. }
  split; [|split; [|split; [|split; [|split; [|split]]]]].
  - intros c needHeader0 status0 w calls Hzero. apply Hmost.
    by rewrite ctor_count_create.
  - exact Hmost.
  - exact Hfirst.
  - intros s r s' Hneed Hrun Hdone. unfold_ops. rewrite Hneed in Hrun.
    destruct (_msgs s) as [msgs|] eqn:Hmsgs; [|simplify_eq/=; congruence].
    repeat (case_match; simplify_eq/=; try done; try congruence);
      (split; [done|]); exists msgs; (split; [done|]);
      rewrite <- ?app_assoc; simpl; auto.
  - intros s Hneed. unfold _setupTable, bind, gets, ret. by rewrite Hneed.
  - intros calls s Hneed.
    apply (run_invariant env (created_with (count_create (world s))));
      [apply call_created_with|done].
  - intros s first headerBytes resultBytes header res msgs tableName
      Herr Hhead Hmsgs Hlen Hheader Hsize Hres Hneed Hconn buffer pre stmt
      Haccept.
    destruct (merge_frame_setup env s first headerBytes resultBytes header
                res msgs tableName Herr Hhead Hmsgs Hlen Hheader Hsize Hres)
      as [Hworld Hmark].
    subst buffer pre stmt. cbv zeta in *. rewrite Hworld, Hmark.
    destruct (Hfirst
                (set_msgs (Some {| protoHeader := header; result := res |}) s)
                {| protoHeader := header; result := res |}
                Hneed eq_refl Hconn Haccept)
      as (s2 & Hrun & Hw & Hcount & Hflag & _).
    rewrite Hrun. cbn [snd]. done.
Qed.

Lemma C1_at_most_one_create_witness :
  (count_create
     (world (run toyEnv [CallMerge corruptFrame 7 "chunk_1";
                         CallMerge toyFrame 7 "chunk_2"; CallFinalize]
               (InfileMerger_ctor toyEnv toyConfig true NONE []).2).2)
   ≤ 1)%nat
  ∧ (let s' := (merge toyEnv toyFrame 7 "chunk_1" toyMerger).2 in
     world s'
     = world toyMerger ++ [Connect None]
       ++ [RunQuery (formCreateTable "qservResult.result_1_m"
                       {| columns := map colSchemaOf toyRowSchema |}) None]
     ∧ count_create (world s') = 1%nat
     ∧ _needCreateTable s' = false)
  ∧ _setupTable toyEnv (merge toyEnv toyFrame 7 "chunk_1" toyMerger).2
    = (Ret tt, (merge toyEnv toyFrame 7 "chunk_1" toyMerger).2).
Proof.
  pose proof (C1_at_most_one_create toyEnv)
    as (Hmost & _ & _ & _ & Hnoop & _ & Hmerge).
  split; [|split].
  - apply (Hmost toyConfig true NONE []). reflexivity.
  - apply (Hmerge toyMerger x03 [x03; x31; x30] toyPayload
             {| size := 3; md5 := "10" |}
             {| session := 7; rowschema := toyRowSchema |}
             {| protoHeader := {| size := 0; md5 := "" |};
                result := {| session := 0; rowschema := [] |} |}
             "chunk_1"); try reflexivity.
    right. reflexivity.
  - apply Hnoop. reflexivity.
Defined.

(** X11. A frame that is whole and sound does not get loaded. On a
    merger without error that awaits a header, for a buffer that holds
    a header that decodes, a payload of the declared size that decodes,
    and the matching digest: once the table is set up without error,
    [merge] clears [_needHeader], hands the messages over, and stops in
    the constructor of the load action, which reads [msgs->result]
    through the pointer that its initializer [_msgs(msgs)] has just
    emptied. Nothing of the load reaches the SQL engine. *)
Theorem merge_sound_frame_stops (env : Environment) (s : State) (first : byte)
    (headerBytes resultBytes : list byte) (header : ProtoHeader)
    (res : Result) (msgs : Msgs) (tableName : string) :
  errorCode (_error s) = NONE →
  _needHeader s = true →
  _msgs s = Some msgs →
  Z.of_nat (length headerBytes) = Z.of_N (Byte.to_N first) →
  headerFrom env headerBytes = (true, header) →
  size header = Z.of_nat (length resultBytes) →
  resultFrom env resultBytes = (true, res) →
  md5 header = getMd5 env resultBytes →
  let buffer := first :: headerBytes ++ resultBytes in
  let decoded :=
    set_msgs (Some {| protoHeader := header; result := res |}) s in
  let afterSetup := (_setupTable env decoded).2 in
  errorCode (_error afterSetup) = NONE →
  merge env buffer (Z.of_nat (length buffer)) tableName s
  = (Fault NullPointer, set_msgs None (set_needHeader false afterSetup))
  ∧ count_load
      (world (merge env buffer (Z.of_nat (length buffer)) tableName s).2)
    = count_load (world s).
Proof.
  intros Herr Hhead Hmsgs Hlen Hheader Hsize Hres Hmd5
    buffer decoded afterSetup Hsetup.
  assert (merge env buffer (Z.of_nat (length buffer)) tableName s
          = (Fault NullPointer,
             set_msgs None (set_needHeader false afterSetup))) as Hmerge.
  { rewrite (merge_awaiting_header env buffer _ tableName s Herr Hhead).
    unfold buffer.
    rewrite (_fetchHeader_header env s first headerBytes resultBytes
               header msgs Hmsgs Hlen Hheader).
    cbv zeta. rewrite <- Hsize, Z.ltb_irrefl.
    rewrite (readBytes_all _ _ (eq_sym Hsize)). rewrite Hres.
    cbn [negb]. unfold bind at 1. unfold modify at 1.
    change (set_msgs (Some {| protoHeader := header; result := res |})
              (set_msgs (Some {| protoHeader := header;
                                 result := result msgs |}) s))
      with decoded.
    unfold bind at 1.
    pose proof (_setupTable_returns env decoded _ eq_refl) as Hret.
    fold afterSetup in Hsetup.
    destruct (_setupTable env decoded) as [r s2] eqn:Hrun.
    simpl in Hret. subst r. unfold afterSetup in *. cbn [snd] in *.
    unfold bind at 1. unfold gets at 1. rewrite Hsetup.
    cbn [Z.eqb NONE negb].
    rewrite bool_decide_eq_false_2 by (by intros ?).
    reflexivity. }
  split; [exact Hmerge|].
  pose proof (run_session_fixed env
                [CallMerge buffer (Z.of_nat (length buffer)) tableName] s)
    as (_ & _ & _ & Hload).
  rewrite run_cons in Hload. unfold call in Hload.
  rewrite Hmerge in Hload |- *. exact Hload.
Qed.

Lemma merge_sound_frame_stops_witness :
  let header := {| size := 3; md5 := "10" |} in
  let res := {| session := 7; rowschema := toyRowSchema |} in
  let decoded :=
    set_msgs (Some {| protoHeader := header; result := res |}) toyMerger in
  let afterSetup := (_setupTable toyEnv decoded).2 in
  merge toyEnv toyFrame 7 "chunk_1" toyMerger
  = (Fault NullPointer, set_msgs None (set_needHeader false afterSetup))
  ∧ count_load (world (merge toyEnv toyFrame 7 "chunk_1" toyMerger).2)
    = count_load (world toyMerger).
Proof.
  apply (merge_sound_frame_stops toyEnv toyMerger x03 [x03; x31; x30]
           toyPayload {| size := 3; md5 := "10" |}
           {| session := 7; rowschema := toyRowSchema |}
           {| protoHeader := {| size := 0; md5 := "" |};
              result := {| session := 0; rowschema := [] |} |}
           "chunk_1"); reflexivity.
Defined.

(** X13. A header that does not decode: on a merger without error that
    awaits a header, [merge] keeps what the decoder left of the header,
    records [HEADER_IMPORT], sends no SQL and returns 0, the value that
    asks the caller for more bytes; but the error stays recorded, and
    the next [merge], whatever it brings, returns -1. *)
Theorem merge_header_import (env : Environment) (s : State) (first : byte)
    (headerBytes rest : list byte) (dumpLength : Z) (header : ProtoHeader)
    (msgs : Msgs) (tableName : string) :
  errorCode (_error s) = NONE →
  _needHeader s = true →
  _msgs s = Some msgs →
  Z.of_nat (length headerBytes) = Z.of_N (Byte.to_N first) →
  headerFrom env headerBytes = (false, header) →
  let s' :=
    set_description "Error decoding proto header"
      (set_errorCode HEADER_IMPORT
         (set_msgs (Some {| protoHeader := header;
                            result := result msgs |}) s)) in
  merge env (first :: headerBytes ++ rest) dumpLength tableName s
  = (Ret 0, s')
  ∧ world s' = world s
  ∧ ∀ more moreLength tableName',
           merge env more moreLength tableName' s' = (Ret (-1), s').
Proof.
  intros Herr Hhead Hmsgs Hlen Hheader s'.
  split; [|split; [done|]].
  - rewrite (merge_awaiting_header env _ _ tableName s Herr Hhead).
    unfold _fetchHeader.
    unfold bind at 1. unfold gets at 1. rewrite Hmsgs.
    rewrite (readBytes_app _ _ _ Hlen). rewrite Hheader. reflexivity.
  - intros more moreLength tableName'. reflexivity.
Qed.

Lemma merge_header_import_witness :
  let s' :=
    set_description "Error decoding proto header"
      (set_errorCode HEADER_IMPORT
         (set_msgs (Some {| protoHeader := {| size := 0; md5 := "" |};
                            result := {| session := 0; rowschema := [] |} |})
            toyMerger)) in
  merge toyEnv badHeaderFrame 4 "chunk_1" toyMerger = (Ret 0, s')
  ∧ world s' = world toyMerger
  ∧ ∀ more moreLength tableName',
           merge toyEnv more moreLength tableName' s' = (Ret (-1), s').
Proof.
  apply (merge_header_import toyEnv toyMerger x00 [] [x07; x01; x02] 4
           {| size := 0; md5 := "" |}
           {| protoHeader := {| size := 0; md5 := "" |};
              result := {| session := 0; rowschema := [] |} |}
           "chunk_1"); reflexivity.
Defined.

(** X14. A payload that does not decode: [merge] records
    [RESULT_IMPORT] and throws the recorded error; no SQL is sent, the
    table is not set up, and the merger that is left refuses every later
    [merge] with -1. *)
Theorem merge_result_import (env : Environment) (s : State) (first : byte)
    (headerBytes resultBytes rest : list byte) (header : ProtoHeader)
    (res : Result) (msgs : Msgs) (tableName : string) :
  errorCode (_error s) = NONE →
  _needHeader s = true →
  _msgs s = Some msgs →
  Z.of_nat (length headerBytes) = Z.of_N (Byte.to_N first) →
  headerFrom env headerBytes = (true, header) →
  size header = Z.of_nat (length resultBytes) →
  resultFrom env resultBytes = (false, res) →
  let buffer := first :: headerBytes ++ resultBytes ++ rest in
  let s' :=
    set_description "Error decoding result msg"
      (set_errorCode RESULT_IMPORT
         (set_msgs (Some {| protoHeader := header; result := res |}) s)) in
  merge env buffer (Z.of_nat (length buffer)) tableName s
  = (Throw (MergerError (_error s')), s')
  ∧ errorCode (_error s') = RESULT_IMPORT
  ∧ world s' = world s
  ∧ _needCreateTable s' = _needCreateTable s
  ∧ ∀ more moreLength tableName',
           merge env more moreLength tableName' s' = (Ret (-1), s').
Proof.
  intros Herr Hhead Hmsgs Hlen Hheader Hsize Hres buffer s'.
  split; [|split; [done|split; [done|split; [done|]]]].
  - rewrite (merge_awaiting_header env _ _ tableName s Herr Hhead).
    unfold buffer.
    rewrite (_fetchHeader_header env s first headerBytes (resultBytes ++ rest)
               header msgs Hmsgs Hlen Hheader).
    cbv zeta. rewrite length_app.
    rewrite (proj2 (Z.ltb_ge _ _)) by lia.
    rewrite (readBytes_app _ _ _ (eq_sym Hsize)). rewrite Hres.
    reflexivity.
  - intros more moreLength tableName'. reflexivity.
Qed.

Lemma merge_result_import_witness :
  let s' :=
    set_description "Error decoding result msg"
      (set_errorCode RESULT_IMPORT
         (set_msgs (Some {| protoHeader := {| size := 0; md5 := "0" |};
                            result := {| session := 0; rowschema := [] |} |})
            toyMerger)) in
  merge toyEnv badResultFrame 3 "chunk_1" toyMerger
  = (Throw (MergerError (_error s')), s')
  ∧ errorCode (_error s') = RESULT_IMPORT
  ∧ world s' = world toyMerger
  ∧ _needCreateTable s' = _needCreateTable toyMerger
  ∧ ∀ more moreLength tableName',
           merge toyEnv more moreLength tableName' s' = (Ret (-1), s').
Proof.
  apply (merge_result_import toyEnv toyMerger x02 [x00; x30] [] []
           {| size := 0; md5 := "0" |}
           {| session := 0; rowschema := [] |}
           {| protoHeader := {| size := 0; md5 := "" |};
              result := {| session := 0; rowschema := [] |} |}
           "chunk_1"); reflexivity.
Defined.



(** What [_setupTable] leaves when it fails. *)
Lemma _setupTable_failed (env : Environment) (s : State) :
  errorCode (_error s) = NONE →
  errorCode (_error (_setupTable env s).2) ≠ NONE →
  let s' := (_setupTable env s).2 in
  errorCode (_error s') = CREATE_TABLE
  ∧ description (_error s')
    = "Error creating table (" +:+ _mergeTable s +:+ ")"
  ∧ (status (_error s') = MYSQLCONNECT ∨ status (_error s') = MYSQLEXEC)
  ∧ _isFinished s' = true
  ∧ _needCreateTable s' = true
  ∧ _needHeader s' = _needHeader s
  ∧ (count_create (world s') ≤ count_create (world s) + 1)%nat.
Proof.
  intros Herr Hfail. cbv zeta. revert Hfail. unfold_ops.
  repeat (case_match; simplify_eq/=; try done);
    intros Hfail; rewrite ?count_create_app; simpl;
    repeat split; auto; try lia; congruence.
Qed.

(** X16. A table that cannot be created: on a merger without error that
    awaits a header and has the table still to create, for a frame whose
    header and payload decode, whatever its digest: when the setup of
    the table fails, because the connection or the CREATE TABLE is
    refused, [merge] records [CREATE_TABLE] with the name of the merge
    table, marks the merger finished and returns the length of the
    buffer, as if it had consumed it. The digest is not compared and no
    load is sent. The error number of the engine is overwritten:
    [resultTooBig] is false even if the engine said 1114. Every later
    [merge] returns -1. *)
Theorem merge_create_table_fails (env : Environment) (s : State)
    (first : byte) (headerBytes resultBytes : list byte)
    (header : ProtoHeader) (res : Result) (msgs : Msgs)
    (tableName : string) :
  errorCode (_error s) = NONE →
  _needHeader s = true →
  _msgs s = Some msgs →
  Z.of_nat (length headerBytes) = Z.of_N (Byte.to_N first) →
  headerFrom env headerBytes = (true, header) →
  size header = Z.of_nat (length resultBytes) →
  resultFrom env resultBytes = (true, res) →
  let buffer := first :: headerBytes ++ resultBytes in
  let decoded :=
    set_msgs (Some {| protoHeader := header; result := res |}) s in
  let s' := (_setupTable env decoded).2 in
  errorCode (_error s') ≠ NONE →
  merge env buffer (Z.of_nat (length buffer)) tableName s
  = (Ret (Z.of_nat (length buffer)), s')
  ∧ errorCode (_error s') = CREATE_TABLE
  ∧ description (_error s')
    = "Error creating table (" +:+ _mergeTable s +:+ ")"
  ∧ resultTooBig (_error s') = false
  ∧ _isFinished s' = true
  ∧ _needCreateTable s' = true
  ∧ count_load (world s') = count_load (world s)
  ∧ ∀ more moreLength tableName',
           merge env more moreLength tableName' s' = (Ret (-1), s').
Proof.
  intros Herr Hhead Hmsgs Hlen Hheader Hsize Hres buffer decoded s' Hfail.
  destruct (_setupTable_failed env decoded Herr Hfail)
    as (Hcode & Hdesc & Hstatus & Hfin & Hneed & _ & _).
  fold s' in Hcode, Hdesc, Hstatus, Hfin, Hneed.
  assert (merge env buffer (Z.of_nat (length buffer)) tableName s
          = (Ret (Z.of_nat (length buffer)), s'))
    as Hmerge.
  { rewrite (merge_awaiting_header env buffer _ tableName s Herr Hhead).
    unfold buffer.
    rewrite (_fetchHeader_header env s first headerBytes resultBytes
               header msgs Hmsgs Hlen Hheader).
    cbv zeta. rewrite <- Hsize, Z.ltb_irrefl.
    rewrite (readBytes_all _ _ (eq_sym Hsize)). rewrite Hres.
    cbn [negb]. unfold bind at 1. unfold modify at 1.
    change (set_msgs (Some {| protoHeader := header; result := res |})
              (set_msgs (Some {| protoHeader := header;
                                 result := result msgs |}) s))
      with decoded.
    unfold bind at 1.
    pose proof (_setupTable_returns env decoded _ eq_refl) as Hret.
    unfold s' in Hfail |- *.
    destruct (_setupTable env decoded) as [r s2] eqn:Hrun.
    simpl in Hret. subst r. cbn [snd] in *.
    unfold bind at 1. unfold gets at 1.
    pose proof (proj2 (Z.eqb_neq _ _) Hfail) as Hnonzero.
    unfold NONE in Hnonzero. rewrite Hnonzero. reflexivity. }
  split; [exact Hmerge|]. split; [done|]. split; [done|].
  split.
  { unfold resultTooBig. rewrite Hcode. apply andb_false_r. }
  split; [done|]. split; [done|]. split.
  - pose proof (run_session_fixed env
                  [CallMerge buffer (Z.of_nat (length buffer)) tableName] s)
      as (_ & _ & _ & Hload).
    rewrite run_cons in Hload. unfold call in Hload.
    rewrite Hmerge in Hload. exact Hload.
  - intros more moreLength tableName'. unfold merge, bind, gets, ret.
    rewrite Hcode. reflexivity.
Qed.

Lemma merge_create_table_fails_witness :
  let header := {| size := 3; md5 := "10" |} in
  let res := {| session := 7; rowschema := toyRowSchema |} in
  let decoded :=
    set_msgs (Some {| protoHeader := header; result := res |}) toyMerger in
  let s' := (_setupTable fullEnv decoded).2 in
  merge fullEnv toyFrame 7 "chunk_1" toyMerger = (Ret 7, s')
  ∧ errorCode (_error s') = CREATE_TABLE
  ∧ description (_error s')
    = "Error creating table (qservResult.result_1_m)"
  ∧ resultTooBig (_error s') = false
  ∧ _isFinished s' = true
  ∧ _needCreateTable s' = true
  ∧ count_load (world s') = count_load (world toyMerger)
  ∧ ∀ more moreLength tableName',
           merge fullEnv more moreLength tableName' s' = (Ret (-1), s').
Proof.
  apply (merge_create_table_fails fullEnv toyMerger x03 [x03; x31; x30]
           toyPayload {| size := 3; md5 := "10" |}
           {| session := 7; rowschema := toyRowSchema |}
           {| protoHeader := {| size := 0; md5 := "" |};
              result := {| session := 0; rowschema := [] |} |}
           "chunk_1"); try reflexivity.
  vm_compute. discriminate.
Defined.

(** X17. How the construction of a merger fails. When the manager
    cannot connect, the constructor throws the error that
    [InfileMergerError(MYSQLCONNECT)] constructs, after that one attempt
    to connect and nothing else. With the manager connected, no target
    table configured and a target database given, a clock that does not
    answer makes it throw "Failed to get timestamp.". *)
Theorem ctor_failures (env : Environment) (c : InfileMergerConfig)
    (needHeader0 : bool) (status0 : Z) (w : World) :
  let out := InfileMerger_ctor env c needHeader0 status0 w in
  (connect env w = false →
   out.1 = Throw (MergerErrorOf MYSQLCONNECT)
   ∧ world out.2 = w ++ [MgrConnect false])
  ∧ (connect env w = true →
     targetTable c = "" →
     targetDb c ≠ "" →
     (gettimeofday env).1 ≠ 0 →
     out.1 = Throw (CString "Failed to get timestamp.")
     ∧ world out.2 = w ++ [MgrConnect true]).
Proof.
  cbv zeta.
  unfold InfileMerger_ctor, Mgr_ctor, _fixupTargetName, getTimeStampId,
    assert, bind, gets, modify, ret, throw, fault.
  cbn. split.
  - intros ->. by cbn.
  - intros -> Htable Hdb Hclock. cbn. rewrite Htable. cbn.
    rewrite (bool_decide_eq_false_2 _ Hdb). cbn.
    destruct (gettimeofday env) as [rc now]. cbn in *.
    by rewrite (proj2 (Z.eqb_neq _ _) Hclock).
Qed.

Lemma ctor_failures_witness :
  (InfileMerger_ctor downEnv toyConfig true NONE []).1
  = Throw (MergerErrorOf MYSQLCONNECT)
  ∧ world (InfileMerger_ctor downEnv toyConfig true NONE []).2
    = [] ++ [MgrConnect false].
Proof.
  apply (ctor_failures downEnv toyConfig true NONE []). reflexivity.
Defined.

(** X18. The name generated for the target table repeats: two mergers
    constructed without a configured target table, 10000 seconds apart
    on the clock and at the same microsecond, get the same target table
    and the same merge table. *)
Theorem timestamp_repeats (env env' : Environment) (now : timeval)
    (c : InfileMergerConfig) (needHeader0 : bool) (status0 : Z) (w : World) :
  0 ≤ tv_sec now →
  gettimeofday env = (0, now) →
  gettimeofday env'
  = (0, {| tv_sec := tv_sec now + 10000; tv_usec := tv_usec now |}) →
  connect env' w = connect env w →
  getTimeStampId env' = getTimeStampId env
  ∧ InfileMerger_ctor env' c needHeader0 status0 w
    = InfileMerger_ctor env c needHeader0 status0 w.
Proof.
  intros Hsec Hnow Hnow' Hconnect.
  assert (getTimeStampId env' = getTimeStampId env) as Hstamp.
  { unfold getTimeStampId. rewrite Hnow, Hnow'. cbn.
    rewrite !Z.rem_mod_nonneg by lia.
    replace (tv_sec now + 10000) with (tv_sec now + 1 * 10000) by lia.
    by rewrite Z_mod_plus_full. }
  split; [done|].
  unfold InfileMerger_ctor, Mgr_ctor, _fixupTargetName, bind, gets.
  cbn [world uninitialized]. by rewrite Hstamp, Hconnect.
Qed.

Lemma timestamp_repeats_witness :
  InfileMerger_ctor
    {| gettimeofday := (0, {| tv_sec := 1414665432 + 10000;
                              tv_usec := 123456 |});
       connect := connect toyEnv; headerFrom := headerFrom toyEnv;
       resultFrom := resultFrom toyEnv; getMd5 := getMd5 toyEnv;
       connectToDb := connectToDb toyEnv; runQuery := runQuery toyEnv;
       prepareSrc := prepareSrc toyEnv; connected := connected toyEnv;
       queryUnbuffered := queryUnbuffered toyEnv |}
    {| targetDb := "qservResult"; targetTable := "";
       mFixup := {| needsFixup := false |}; user := "qsmaster";
       socket := "/tmp/mysql.sock" |} true NONE []
  = InfileMerger_ctor toyEnv
      {| targetDb := "qservResult"; targetTable := "";
         mFixup := {| needsFixup := false |}; user := "qsmaster";
         socket := "/tmp/mysql.sock" |} true NONE [].
Proof.
  apply (timestamp_repeats toyEnv _
           {| tv_sec := 1414665432; tv_usec := 123456 |}).
  - simpl. lia.
  - reflexivity.
  - reflexivity.
  - reflexivity.
Defined.

(** X12. No session registers a virtual file or sends a LOAD statement,
    and the in-flight counter of the manager stays where it was: every
    call that comes to construct a load action stops in its
    constructor, before [prepareSrc] and [_incrementInflight]. *)
Theorem session_never_loads (env : Environment) (calls : list Call)
    (s : State) :
  count_load (world (run env calls s).2) = count_load (world s)
  ∧ _numInflight (run env calls s).2 = _numInflight s.
Proof.
  destruct (run_session_fixed env calls s) as (_ & _ & Hn & Hl). done.
Qed.

End InfileMergerFacts.

(** ** Properties of the metadata cache *)

Module MetadataCacheFacts.

Import MetadataCache.

(** *** The map *)

Lemma map_insert_lookup {V : Type} (k k' : string) (v : V)
    (m : gmap string V) :
  map_insert k v m !! k' =
  match m !! k' with
  | Some x => Some x
  | None => if decide (k = k') then Some v else None
  end.
Proof.
  unfold map_insert. destruct (m !! k) as [x|] eqn:Hk.
  - destruct (m !! k') eqn:Hk'; [done|]. case_decide; [|done]. congruence.
  - destruct (decide (k = k')) as [->|Hne].
    + by rewrite lookup_insert_eq, Hk.
    + rewrite lookup_insert_ne by done. by destruct (m !! k').
Qed.

Lemma map_keys_elem_of {V : Type} (m : gmap string V) (k : string) :
  k ∈ map_keys m ↔ is_Some (m !! k).
Proof.
  unfold map_keys. rewrite merge_sort_Permutation, list_elem_of_fmap. split.
  - intros ([k' x] & -> & Hin). apply elem_of_map_to_list in Hin. by eexists.
  - intros [x Hx]. exists (k, x). split; [done|].
    by apply elem_of_map_to_list.
Qed.

Lemma ascending_le_NoDup (names : list string) :
  StronglySorted String.le names → NoDup names → ascending names.
Proof.
  unfold ascending. induction 1 as [|a l Hl IH Hall]; intros Hnd.
  - constructor.
  - apply NoDup_cons in Hnd as [Hnotin Hnd]. constructor; [by apply IH|].
    rewrite Forall_forall in Hall |- *. intros b Hb.
    apply StrOrder.ltb_le. split; [by apply Hall|]. by intros ->.
Qed.

Lemma map_keys_ascending {V : Type} (m : gmap string V) :
  ascending (map_keys m).
Proof.
  apply ascending_le_NoDup.
  - apply StronglySorted_merge_sort; apply _.
  - unfold map_keys. rewrite merge_sort_Permutation.
    apply NoDup_fst_map_to_list.
Qed.

Lemma ascending_filter (P : string → Prop) `{!∀ x, Decision (P x)}
    (names : list string) :
  ascending names → ascending (filter P names).
Proof.
  unfold ascending. induction 1 as [|a l Hl IH Hall]; [constructor|].
  rewrite filter_cons. case_decide; [|done].
  constructor; [done|]. rewrite Forall_forall in Hall |- *.
  intros b [_ Hb]%list_elem_of_filter. by apply Hall.
Qed.

(** The loop of the listings, when [check] throws on no key. *)
Lemma push_back_if_filter (check : string → Res bool) (p : string → bool)
    (keys v : list string) :
  (∀ k, k ∈ keys → check k = Ret (p k)) →
  push_back_if check keys v = Ret (v ++ filter (λ k, p k = true) keys).
Proof.
  revert v. induction keys as [|k keys IH]; intros v Hcheck; simpl.
  - by rewrite app_nil_r.
  - rewrite (Hcheck k) by left. rewrite IH by (intros; apply Hcheck; by right).
    rewrite filter_cons. destruct (p k) eqn:Hp.
    + rewrite decide_True by done. by rewrite <- app_assoc.
    + rewrite decide_False by done. done.
Qed.

Lemma fold_push_back (keys v : list string) :
  fold_left (λ v name, v ++ [name]) keys v = v ++ keys.
Proof.
  revert v. induction keys as [|k keys IH]; intros v; simpl.
  - by rewrite app_nil_r.
  - by rewrite IH, <- app_assoc.
Qed.

(** *** The listings *)

Lemma DbInfo_getChunkedTables_filter (d : DbInfo.t) :
  DbInfo.getChunkedTables d =
  Ret (filter (λ name, DbInfo.checkIfTableIsChunked name d = Ret true)
         (map_keys (DbInfo._tables d))).
Proof.
  unfold DbInfo.getChunkedTables.
  rewrite (push_back_if_filter _
             (λ name, match DbInfo._tables d !! name with
                      | Some ti => getIsPartitioned ti
                      | None => false
                      end)).
  - rewrite app_nil_l. f_equal. apply list_filter_iff. intros name.
    unfold DbInfo.checkIfTableIsChunked.
    destruct (DbInfo._tables d !! name); split; congruence.
  - intros name [ti Hti]%map_keys_elem_of.
    unfold DbInfo.checkIfTableIsChunked. by rewrite Hti.
Qed.

Lemma DbInfo_getSubChunkedTables_filter (d : DbInfo.t) :
  DbInfo.getSubChunkedTables d =
  Ret (filter (λ name, DbInfo.checkIfTableIsSubChunked name d = Ret true)
         (map_keys (DbInfo._tables d))).
Proof.
  unfold DbInfo.getSubChunkedTables.
  rewrite (push_back_if_filter _
             (λ name, match DbInfo._tables d !! name with
                      | Some ti => 2 =? getLogicalPart ti
                      | None => false
                      end)).
  - rewrite app_nil_l. f_equal. apply list_filter_iff. intros name.
    unfold DbInfo.checkIfTableIsSubChunked.
    destruct (DbInfo._tables d !! name); split; congruence.
  - intros name [ti Hti]%map_keys_elem_of.
    unfold DbInfo.checkIfTableIsSubChunked. by rewrite Hti.
Qed.

(** X19. [getAllowedDbs] lists the databases of the cache, each once,
    in strictly ascending order of their names. *)
Theorem getAllowedDbs_listing (c : MetadataCache) :
  ascending (getAllowedDbs c)
  ∧ ∀ db, db ∈ getAllowedDbs c ↔ checkIfContainsDb db c = true.
Proof.
  unfold getAllowedDbs. rewrite fold_push_back, app_nil_l. split.
  - apply map_keys_ascending.
  - intros db. rewrite map_keys_elem_of. unfold checkIfContainsDb.
    destruct (_dbs c !! db); split; try done; try (by eexists);
      by intros [? ?].
Qed.

(** X20. For a database of the cache, [getChunkedTables] and
    [getSubChunkedTables] return: the checks they make in their loops
    never throw. Each lists, once and in strictly ascending order, the
    tables for which [checkIfTableIsChunked], respectively
    [checkIfTableIsSubChunked], returns true. *)
Theorem chunked_tables_listing (c : MetadataCache) (db : string) :
  checkIfContainsDb db c = true →
  ∃ v w,
    getChunkedTables db c = Ret v
    ∧ getSubChunkedTables db c = Ret w
    ∧ ascending v
    ∧ ascending w
    ∧ (∀ tb, tb ∈ v ↔ checkIfTableIsChunked db tb c = Ret true)
    ∧ (∀ tb, tb ∈ w ↔ checkIfTableIsSubChunked db tb c = Ret true).
Proof.
  unfold checkIfContainsDb, getChunkedTables, getSubChunkedTables,
    checkIfTableIsChunked, checkIfTableIsSubChunked.
  destruct (_dbs c !! db) as [d|]; [intros _|done].
  rewrite DbInfo_getChunkedTables_filter, DbInfo_getSubChunkedTables_filter.
  eexists _, _. split; [done|]. split; [done|].
  split; [apply ascending_filter, map_keys_ascending|].
  split; [apply ascending_filter, map_keys_ascending|].
  split; intros tb; rewrite list_elem_of_filter, map_keys_elem_of.
  - unfold DbInfo.checkIfTableIsChunked.
    destruct (DbInfo._tables d !! tb);
      (split; [by intros [? _]|intros H; split; [done|]]);
      first [discriminate H|by eexists].
  - unfold DbInfo.checkIfTableIsSubChunked.
    destruct (DbInfo._tables d !! tb);
      (split; [by intros [? _]|intros H; split; [done|]]);
      first [discriminate H|by eexists].
Qed.

Lemma chunked_tables_listing_witness :
  ∃ v w,
    getChunkedTables "LSST" lsstCache = Ret v
    ∧ getSubChunkedTables "LSST" lsstCache = Ret w
    ∧ ascending v
    ∧ ascending w
    ∧ (∀ tb, tb ∈ v ↔ checkIfTableIsChunked "LSST" tb lsstCache = Ret true)
    ∧ (∀ tb, tb ∈ w ↔ checkIfTableIsSubChunked "LSST" tb lsstCache = Ret true).
Proof.
  apply (chunked_tables_listing lsstCache "LSST"). vm_compute. reflexivity.
Defined.

(** X21. What guards the queries. Each query on a table returns when
    [checkIfContainsTable] says that the table is in the cache, and
    throws when it says it is not, be it the database or the table that
    is missing; each query on a database returns when
    [checkIfContainsDb] says that the database is in the cache, and
    throws when not. The two checks themselves never throw. *)
Theorem queries_guard (c : MetadataCache) (db tb : string) :
  returned (checkIfTableIsChunked db tb c) = checkIfContainsTable db tb c
  ∧ returned (checkIfTableIsSubChunked db tb c) = checkIfContainsTable db tb c
  ∧ returned (getChunkLevel db tb c) = checkIfContainsTable db tb c
  ∧ returned (getPartitionCols db tb c) = checkIfContainsTable db tb c
  ∧ returned (getKeyColumn db tb c) = checkIfContainsTable db tb c
  ∧ returned (getChunkedTables db c) = checkIfContainsDb db c
  ∧ returned (getSubChunkedTables db c) = checkIfContainsDb db c
  ∧ returned (getDbInfo db c) = checkIfContainsDb db c.
Proof.
  unfold checkIfTableIsChunked, checkIfTableIsSubChunked, getChunkLevel,
    getPartitionCols, getKeyColumn, getChunkedTables, getSubChunkedTables,
    getDbInfo, checkIfContainsTable, checkIfContainsDb.
  destruct (_dbs c !! db) as [d|]; [|done].
  rewrite DbInfo_getChunkedTables_filter, DbInfo_getSubChunkedTables_filter.
  unfold DbInfo.checkIfTableIsChunked, DbInfo.checkIfTableIsSubChunked,
    DbInfo.getChunkLevel, DbInfo.getPartitionCols, DbInfo.getKeyColumn,
    DbInfo.checkIfContainsTable.
  by destruct (DbInfo._tables d !! tb).
Qed.

(** *** Filling the cache *)

Lemma extends_refl (c : MetadataCache) : extends c c.
Proof. intros db d Hd. by exists d. Qed.

Lemma extends_trans (c1 c2 c3 : MetadataCache) :
  extends c1 c2 → extends c2 c3 → extends c1 c3.
Proof.
  intros H12 H23 db d Hd.
  destruct (H12 db d Hd) as (d2 & Hd2 & Hp2 & Ht2).
  destruct (H23 db d2 Hd2) as (d3 & Hd3 & Hp3 & Ht3).
  exists d3. split; [done|]. split; [congruence|]. auto.
Qed.

Lemma addDb_extends (dbName : string) (dbInfo : DbInfo.t)
    (c : MetadataCache) :
  extends c {| _dbs := map_insert dbName dbInfo (_dbs c) |}.
Proof.
  intros db d Hd. exists d. split; [|done]. simpl.
  by rewrite map_insert_lookup, Hd.
Qed.

Lemma addTableAt_extends (dbName tbName : string) (tInfo : TableInfo)
    (c : MetadataCache) :
  extends c (addTableAt dbName tbName tInfo c).2.
Proof.
  unfold addTableAt. destruct (_dbs c !! dbName) as [d0|] eqn:Hd0;
    [|apply extends_refl].
  unfold DbInfo.addTable.
  destruct (DbInfo._tables d0 !! tbName) as [ti0|] eqn:Hti0; simpl.
  - rewrite insert_id by done. destruct c. apply extends_refl.
  - intros db d Hd. simpl. destruct (decide (dbName = db)) as [->|Hne].
    + rewrite lookup_insert_eq. eexists. split; [done|]. simplify_eq.
      split; [done|]. intros tb ti Hti. simpl.
      by rewrite map_insert_lookup, Hti.
    + rewrite lookup_insert_ne by done. by exists d.
Qed.

Lemma add_extends (a : Add) (c : MetadataCache) : extends c (add a c).2.
Proof.
  destruct a; simpl.
  - unfold addDbInfoNonPartitioned. case_match; [apply extends_refl|].
    apply addDb_extends.
  - unfold addDbInfoPartitionedSphBox. case_match; [apply extends_refl|].
    apply addDb_extends.
  - apply addTableAt_extends.
  - apply addTableAt_extends.
Qed.

Lemma fill_extends (calls : list Add) (c : MetadataCache) :
  extends c (fill calls c).
Proof.
  revert c. induction calls as [|a calls IH]; intros c.
  - apply extends_refl.
  - eapply extends_trans; [apply add_extends|apply IH].
Qed.

(** X22. What is in the cache stays as it is. No sequence of calls that
    add databases and tables, whatever their arguments and statuses,
    removes a table or changes what the queries answer for it; and a
    database keeps the parameters it was registered with. *)
Theorem fill_keeps_answers (calls : list Add) (c : MetadataCache)
    (db tb : string) :
  checkIfContainsTable db tb c = true →
  let c' := fill calls c in
  checkIfContainsTable db tb c' = true
  ∧ checkIfTableIsChunked db tb c' = checkIfTableIsChunked db tb c
  ∧ checkIfTableIsSubChunked db tb c' = checkIfTableIsSubChunked db tb c
  ∧ getChunkLevel db tb c' = getChunkLevel db tb c
  ∧ getPartitionCols db tb c' = getPartitionCols db tb c
  ∧ getKeyColumn db tb c' = getKeyColumn db tb c
  ∧ ∃ d d', getDbInfo db c = Ret d
            ∧ getDbInfo db c' = Ret d'
            ∧ DbInfo.set_tables ∅ d' = DbInfo.set_tables ∅ d.
Proof.
  intros Hin c'. pose proof (fill_extends calls c) as Hext. fold c' in Hext.
  revert Hin.
  unfold checkIfTableIsChunked, checkIfTableIsSubChunked, getChunkLevel,
    getPartitionCols, getKeyColumn, getDbInfo, checkIfContainsTable.
  destruct (_dbs c !! db) as [d|] eqn:Hd; [|done].
  destruct (Hext db d Hd) as (d' & -> & Hparams & Htables).
  unfold DbInfo.checkIfTableIsChunked, DbInfo.checkIfTableIsSubChunked,
    DbInfo.getChunkLevel, DbInfo.getPartitionCols, DbInfo.getKeyColumn,
    DbInfo.checkIfContainsTable.
  destruct (DbInfo._tables d !! tb) as [ti|] eqn:Hti; [intros _|done].
  rewrite (Htables tb ti Hti). repeat (split; [done|]). by eexists _, _.
Qed.

Lemma fill_keeps_answers_witness :
  let c' :=
    fill [AddTbInfoNonPartitioned "LSST" "Object";
          AddDbInfoNonPartitioned "LSST"] lsstCache in
  checkIfContainsTable "LSST" "Object" c' = true
  ∧ checkIfTableIsChunked "LSST" "Object" c'
    = checkIfTableIsChunked "LSST" "Object" lsstCache
  ∧ checkIfTableIsSubChunked "LSST" "Object" c'
    = checkIfTableIsSubChunked "LSST" "Object" lsstCache
  ∧ getChunkLevel "LSST" "Object" c' = getChunkLevel "LSST" "Object" lsstCache
  ∧ getPartitionCols "LSST" "Object" c'
    = getPartitionCols "LSST" "Object" lsstCache
  ∧ getKeyColumn "LSST" "Object" c' = getKeyColumn "LSST" "Object" lsstCache
  ∧ ∃ d d', getDbInfo "LSST" lsstCache = Ret d
            ∧ getDbInfo "LSST" c' = Ret d'
            ∧ DbInfo.set_tables ∅ d' = DbInfo.set_tables ∅ d.
Proof.
  apply (fill_keeps_answers
           [AddTbInfoNonPartitioned "LSST" "Object";
            AddDbInfoNonPartitioned "LSST"] lsstCache "LSST" "Object").
  vm_compute. reflexivity.
Defined.

Lemma addTableAt_constructed (dbName tbName : string) (tInfo : TableInfo)
    (c : MetadataCache) :
  constructed tInfo →
  cache_constructed c →
  cache_constructed (addTableAt dbName tbName tInfo c).2.
Proof.
  intros Hnew Hc. unfold addTableAt.
  destruct (_dbs c !! dbName) as [d0|] eqn:Hd0; [|done].
  unfold DbInfo.addTable.
  destruct (DbInfo._tables d0 !! tbName) as [ti0|] eqn:Hti0; simpl.
  - rewrite insert_id by done. by destruct c.
  - intros db d tb ti. simpl. destruct (decide (dbName = db)) as [->|Hne].
    + rewrite lookup_insert_eq. intros [= <-]. simpl.
      rewrite map_insert_lookup.
      destruct (DbInfo._tables d0 !! tb) as [ti1|] eqn:Hti1.
      * intros [= <-]. by eapply Hc.
      * case_decide; [|done]. by intros [= <-].
    + rewrite lookup_insert_ne by done. apply Hc.
Qed.

Lemma addDb_constructed (dbName : string) (dbInfo : DbInfo.t)
    (c : MetadataCache) :
  DbInfo._tables dbInfo = ∅ →
  cache_constructed c →
  cache_constructed {| _dbs := map_insert dbName dbInfo (_dbs c) |}.
Proof.
  intros Hempty Hc db d tb ti. simpl. rewrite map_insert_lookup.
  destruct (_dbs c !! db) as [d1|] eqn:Hd1.
  - intros [= <-]. by eapply Hc.
  - case_decide; [|done]. intros [= <-]. by rewrite Hempty, lookup_empty.
Qed.

Lemma add_constructed (a : Add) (c : MetadataCache) :
  cache_constructed c → cache_constructed (add a c).2.
Proof.
  intros Hc. destruct a; simpl.
  - unfold addDbInfoNonPartitioned. case_match; [done|].
    by apply addDb_constructed.
  - unfold addDbInfoPartitionedSphBox. case_match; [done|].
    by apply addDb_constructed.
  - apply addTableAt_constructed; [by right|done].
  - apply addTableAt_constructed; [by left|done].
Qed.

Lemma fill_constructed (calls : list Add) (c : MetadataCache) :
  cache_constructed c → cache_constructed (fill calls c).
Proof.
  revert c. induction calls as [|a calls IH]; intros c Hc; [done|].
  apply IH. by apply add_constructed.
Qed.

(** X23. In a cache filled by the calls that add databases and tables,
    the three views of the chunking of a table agree. A table that is
    sub-chunked is chunked and has chunk level 2, and conversely a table
    of chunk level 2 is sub-chunked; a table that is not chunked has
    chunk level 0, is not sub-chunked and has the columns "invalid";
    and the sub-chunked tables of a database are among its chunked
    tables. *)
Theorem filled_chunk_levels (calls : list Add) (db tb : string) :
  let c := fill calls empty_cache in
  (checkIfTableIsSubChunked db tb c = Ret true ↔ getChunkLevel db tb c = Ret 2)
  ∧ (checkIfTableIsSubChunked db tb c = Ret true →
     checkIfTableIsChunked db tb c = Ret true)
  ∧ (checkIfTableIsChunked db tb c = Ret false →
     getChunkLevel db tb c = Ret 0
     ∧ checkIfTableIsSubChunked db tb c = Ret false
     ∧ getPartitionCols db tb c = Ret ["invalid"; "invalid"; "invalid"]
     ∧ getKeyColumn db tb c = Ret "invalid")
  ∧ (∀ v w, getChunkedTables db c = Ret v → getSubChunkedTables db c = Ret w →
            w ⊆ v).
Proof.
  intros c.
  assert (cache_constructed c) as Hc.
  { apply fill_constructed. intros ? ? ? ? Hd. simpl in Hd.
    by rewrite lookup_empty in Hd. }
  assert (checkIfTableIsSubChunked db tb c = Ret true →
          checkIfTableIsChunked db tb c = Ret true) as Hsub.
  { unfold checkIfTableIsSubChunked, checkIfTableIsChunked.
    destruct (_dbs c !! db) as [d|] eqn:Hd; [|done].
    unfold DbInfo.checkIfTableIsSubChunked, DbInfo.checkIfTableIsChunked.
    destruct (DbInfo._tables d !! tb) as [ti|] eqn:Hti; [|done].
    destruct (Hc db d tb ti Hd Hti) as [->| ->]; [done|]. by intros [=]. }
  split; [|split; [exact Hsub|split]].
  - unfold checkIfTableIsSubChunked, getChunkLevel.
    destruct (_dbs c !! db) as [d|] eqn:Hd; [|done].
    unfold DbInfo.checkIfTableIsSubChunked, DbInfo.getChunkLevel.
    destruct (DbInfo._tables d !! tb) as [ti|] eqn:Hti; [|done].
    destruct (Hc db d tb ti Hd Hti) as [->| ->].
    + split; intros [= H]; f_equal; [symmetry|]; by apply Z.eqb_eq.
    + done.
  - unfold checkIfTableIsSubChunked, checkIfTableIsChunked, getChunkLevel,
      getPartitionCols, getKeyColumn.
    destruct (_dbs c !! db) as [d|] eqn:Hd; [|done].
    unfold DbInfo.checkIfTableIsSubChunked, DbInfo.checkIfTableIsChunked,
      DbInfo.getChunkLevel, DbInfo.getPartitionCols, DbInfo.getKeyColumn.
    destruct (DbInfo._tables d !! tb) as [ti|] eqn:Hti; [|done].
    destruct (Hc db d tb ti Hd Hti) as [->| ->]; [done|]. done.
  - intros v w Hv Hw name Hname.
    assert (checkIfContainsDb db c = true) as Hdb.
    { unfold checkIfContainsDb. unfold getChunkedTables in Hv.
      by destruct (_dbs c !! db). }
    revert Hv Hw Hname.
    unfold getChunkedTables, getSubChunkedTables.
    destruct (_dbs c !! db) as [d|] eqn:Hd; [|done].
    rewrite DbInfo_getChunkedTables_filter, DbInfo_getSubChunkedTables_filter.
    intros [= <-] [= <-]. rewrite !list_elem_of_filter.
    intros [Hyes Hin]. split; [|done].
    revert Hyes.
    unfold DbInfo.checkIfTableIsSubChunked, DbInfo.checkIfTableIsChunked.
    destruct (DbInfo._tables d !! name) as [ti|] eqn:Hti; [|done].
    destruct (Hc db d name ti Hd Hti) as [->| ->]; [done|]. by intros [=].
Qed.

(** *** Adding *)

(** X24. Adding a database: when the name is registered already, the
    call returns [STATUS_ERR_DB_EXISTS] and the cache stays as it is,
    so that the parameters of the first registration stand; otherwise it
    returns [STATUS_OK], and the database is there with the parameters
    given and no table, beside the databases that were there. *)
Theorem addDbInfo_outcome (c : MetadataCache) (dbName : string)
    (nStripes nSubStripes : Z) (defOverlapF defOverlapNN : float) :
  let plain := addDbInfoNonPartitioned dbName c in
  let sph :=
    addDbInfoPartitionedSphBox dbName nStripes nSubStripes defOverlapF
      defOverlapNN c in
  (checkIfContainsDb dbName c = true →
   plain = (STATUS_ERR_DB_EXISTS, c) ∧ sph = (STATUS_ERR_DB_EXISTS, c))
  ∧ (checkIfContainsDb dbName c = false →
     plain.1 = STATUS_OK
     ∧ sph.1 = STATUS_OK
     ∧ getDbInfo dbName plain.2 = Ret DbInfo.default
     ∧ getDbInfo dbName sph.2
       = Ret (DbInfo.sphBox nStripes nSubStripes defOverlapF defOverlapNN)
     ∧ getChunkedTables dbName sph.2 = Ret []
     ∧ (∀ tb, checkIfContainsTable dbName tb sph.2 = false)
     ∧ ∀ other, other ≠ dbName →
         getDbInfo other plain.2 = getDbInfo other c
         ∧ getDbInfo other sph.2 = getDbInfo other c).
Proof.
  cbv zeta. unfold addDbInfoNonPartitioned, addDbInfoPartitionedSphBox.
  split; intros Hdb; rewrite Hdb; [done|].
  unfold checkIfContainsDb in Hdb.
  destruct (_dbs c !! dbName) as [d|] eqn:Hd; [done|].
  unfold getDbInfo, getChunkedTables, checkIfContainsTable. simpl.
  rewrite !map_insert_lookup, Hd, !decide_True by done.
  repeat (split; [done|]). intros other Hother.
  rewrite !map_insert_lookup.
  destruct (_dbs c !! other); [done|]. by rewrite !decide_False by done.
Qed.

Lemma addDbInfo_outcome_witness :
  addDbInfoNonPartitioned "LSST" lsstCache = (STATUS_ERR_DB_EXISTS, lsstCache)
  ∧ addDbInfoPartitionedSphBox "LSST" 85 12 0 0 lsstCache
    = (STATUS_ERR_DB_EXISTS, lsstCache).
Proof.
  apply (addDbInfo_outcome lsstCache "LSST" 85 12 0 0).
  vm_compute. reflexivity.
Defined.

Lemma addTableAt_outcome (c : MetadataCache) (dbName tbName : string)
    (tInfo : TableInfo) :
  let out := addTableAt dbName tbName tInfo c in
  (checkIfContainsDb dbName c = false →
   out = (STATUS_ERR_DB_DOES_NOT_EXIST, c))
  ∧ (checkIfContainsTable dbName tbName c = true →
     out = (STATUS_ERR_TABLE_EXISTS, c))
  ∧ (checkIfContainsDb dbName c = true →
     checkIfContainsTable dbName tbName c = false →
     out.1 = STATUS_OK
     ∧ (∃ d, _dbs out.2 !! dbName = Some d
             ∧ DbInfo._tables d !! tbName = Some tInfo)
     ∧ ∀ db tb, (db, tb) ≠ (dbName, tbName) →
         checkIfContainsTable db tb out.2 = checkIfContainsTable db tb c
         ∧ getChunkLevel db tb out.2 = getChunkLevel db tb c).
Proof.
  cbv zeta. unfold addTableAt, checkIfContainsDb, checkIfContainsTable,
    getChunkLevel.
  destruct (_dbs c !! dbName) as [d|] eqn:Hd; [|done].
  unfold DbInfo.addTable, DbInfo.checkIfContainsTable.
  destruct (DbInfo._tables d !! tbName) as [ti|] eqn:Hti.
  - split; [done|]. split; [|done]. intros _.
    rewrite insert_id by done. by destruct c.
  - split; [done|]. split; [done|]. intros _ _. simpl.
    split; [done|]. split.
    + rewrite lookup_insert_eq. eexists. split; [done|]. simpl.
      by rewrite map_insert_lookup, Hti, decide_True.
    + intros db tb Hne. destruct (decide (dbName = db)) as [<-|Hdb].
      * rewrite lookup_insert_eq, Hd. simpl.
        unfold DbInfo.getChunkLevel. simpl. rewrite map_insert_lookup.
        destruct (DbInfo._tables d !! tb); [done|].
        rewrite decide_False; [done|]. congruence.
      * by rewrite lookup_insert_ne.
Qed.

(** X25. Adding a table. In a database that is not registered the call
    returns [STATUS_ERR_DB_DOES_NOT_EXIST], for a table that is
    registered [STATUS_ERR_TABLE_EXISTS], and the cache stays as it is.
    Otherwise the call returns [STATUS_OK], and the queries then answer
    from the arguments: a partitioned table is chunked, its chunk level
    is the [logicalPart] given, whatever number that is, it is
    sub-chunked when that is 2, and its columns are the three given,
    longitude first and key last; a table added as non-partitioned is
    not chunked, has chunk level 0 and the columns "invalid". The other
    tables answer as before. *)
Theorem addTbInfo_outcome (c : MetadataCache) (dbName tbName : string)
    (overlap : float) (lonCol latCol objIdCol : string)
    (lonColNo latColNo objIdColNo logicalPart physChunking : Z) :
  let plain := addTbInfoNonPartitioned dbName tbName c in
  let sph :=
    addTbInfoPartitionedSphBox dbName tbName overlap lonCol latCol objIdCol
      lonColNo latColNo objIdColNo logicalPart physChunking c in
  (checkIfContainsDb dbName c = false →
   plain = (STATUS_ERR_DB_DOES_NOT_EXIST, c)
   ∧ sph = (STATUS_ERR_DB_DOES_NOT_EXIST, c))
  ∧ (checkIfContainsTable dbName tbName c = true →
     plain = (STATUS_ERR_TABLE_EXISTS, c)
     ∧ sph = (STATUS_ERR_TABLE_EXISTS, c))
  ∧ (checkIfContainsDb dbName c = true →
     checkIfContainsTable dbName tbName c = false →
     (plain.1 = STATUS_OK
      ∧ checkIfTableIsChunked dbName tbName plain.2 = Ret false
      ∧ checkIfTableIsSubChunked dbName tbName plain.2 = Ret false
      ∧ getChunkLevel dbName tbName plain.2 = Ret 0
      ∧ getPartitionCols dbName tbName plain.2
        = Ret ["invalid"; "invalid"; "invalid"])
     ∧ (sph.1 = STATUS_OK
        ∧ checkIfTableIsChunked dbName tbName sph.2 = Ret true
        ∧ checkIfTableIsSubChunked dbName tbName sph.2
          = Ret (bool_decide (logicalPart = 2))
        ∧ getChunkLevel dbName tbName sph.2 = Ret logicalPart
        ∧ getPartitionCols dbName tbName sph.2
          = Ret [lonCol; latCol; objIdCol]
        ∧ getKeyColumn dbName tbName sph.2 = Ret objIdCol)
     ∧ ∀ db tb, (db, tb) ≠ (dbName, tbName) →
         getChunkLevel db tb plain.2 = getChunkLevel db tb c
         ∧ getChunkLevel db tb sph.2 = getChunkLevel db tb c).
Proof.
  cbv zeta. unfold addTbInfoNonPartitioned, addTbInfoPartitionedSphBox.
  pose proof (addTableAt_outcome c dbName tbName TableInfo_default)
    as (Hp1 & Hp2 & Hp3).
  pose proof (addTableAt_outcome c dbName tbName
                (TableInfo_sphBox overlap lonCol latCol objIdCol lonColNo
                   latColNo objIdColNo logicalPart physChunking))
    as (Hs1 & Hs2 & Hs3).
  split; [by auto|]. split; [by auto|]. intros Hdb Htb.
  destruct (Hp3 Hdb Htb) as (Hpst & (dp & Hdp & Htp) & Hpo).
  destruct (Hs3 Hdb Htb) as (Hsst & (ds & Hds & Hts) & Hso).
  unfold checkIfTableIsChunked, checkIfTableIsSubChunked, getChunkLevel,
    getPartitionCols, getKeyColumn.
  rewrite Hdp, Hds.
  unfold DbInfo.checkIfTableIsChunked, DbInfo.checkIfTableIsSubChunked,
    DbInfo.getChunkLevel, DbInfo.getPartitionCols, DbInfo.getKeyColumn.
  rewrite Htp, Hts. unfold TableInfo_sphBox, TableInfo_default.
  cbn [getIsPartitioned getLogicalPart getLonCol getLatCol getObjIdCol].
  split; [done|]. split.
  - repeat (split; [done|]). split; [|done]. f_equal.
    destruct (Z.eqb_spec 2 logicalPart) as [<-|Hne]; [done|].
    by rewrite bool_decide_eq_false_2 by lia.
  - intros db tb Hne. split; [by apply Hpo|by apply Hso].
Qed.

Lemma addTbInfo_outcome_witness :
  addTbInfoNonPartitioned "LSST" "Object" lsstCache
  = (STATUS_ERR_TABLE_EXISTS, lsstCache)
  ∧ addTbInfoPartitionedSphBox "LSST" "Object" 0 "ra" "decl" "id" 0 1 2 1 0
      lsstCache
    = (STATUS_ERR_TABLE_EXISTS, lsstCache).
Proof.
  apply (addTbInfo_outcome lsstCache "LSST" "Object" 0 "ra" "decl" "id"
           0 1 2 1 0).
  vm_compute. reflexivity.
Defined.

End MetadataCacheFacts.
